(** * JustPlug: the plugin manager's dependency graph and lifecycle

    A shallow embedding of the core of the JustPlug plugin manager
    (graph.cpp, pluginmanagerprivate.cpp, pluginmanager.cpp, plugin.cpp)
    and the properties of its load order, unload order, dependency check,
    discovery and request brokering. *)

From stdpp Require Import base tactics option list strings numbers relations.
From Stdlib Require Import ZArith Lia Ascii.

Set Warnings "-register-all".

Open Scope string_scope.
Open Scope list_scope.
Open Scope Z_scope.

(** ** Results of running a piece of the program

    A call either completes with a value, runs into undefined behaviour
    (a null [PluginPtr] dereferenced, a vector indexed out of range, a
    symbol read from a closed library), or exhausts the recursion budget
    of the model. *)

Inductive outcome (A : Type) : Type :=
  | Done (a : A)
  | Undefined
  | OutOfFuel.

Arguments Done {A} a.
Arguments Undefined {A}.
Arguments OutOfFuel {A}.

(** ** The dependency graph (private/graph.h, graph.cpp) *)

Module Graph.

Inductive Flag : Type := UNMARKED | MARK_TEMP | MARK_PERMANENT.

#[global] Instance Flag_eq_dec : EqDecision Flag.
Proof. solve_decision. Defined.

(** [struct Node]: the name the node stands for, the indices of its
    parents in the node list, and the mark of the depth-first search. *)
Record Node : Type := mkNode {
  name : string;
  parentNodes : list Z;
  flag : Flag
}.

Abbreviation NodeList := (list Node).
Abbreviation NodeNamesList := (list string).

(** Modelled from the spec: the declaration of [Node] in private/graph.h is
    not part of the sources; a default-constructed node has no parent and
    is unmarked, and [loadPlugins] then sets its name. *)
Definition newNode (n : string) : Node :=
  {| name := n; parentNodes := []; flag := UNMARKED |}.

Definition setFlag (f : Flag) (n : Node) : Node :=
  {| name := name n; parentNodes := parentNodes n; flag := f |}.

Definition addParent (p : Z) (n : Node) : Node :=
  {| name := name n; parentNodes := parentNodes n ++ [p]; flag := flag n |}.

(** [_nodeList[id]] for an [int] index: defined only inside the vector. *)
Definition nodeIndex (nl : NodeList) (id : Z) : option nat :=
  if decide (0 ≤ id < Z.of_nat (length nl)) then Some (Z.to_nat id) else None.

Abbreviation VisitResult := (outcome (bool * NodeList * NodeNamesList)).

(** The loop [for(int parentId : node.parentNodes)] of [visitNode]; [visit]
    is the recursive call. *)
Fixpoint visitParents (visit : nat → NodeList → NodeNamesList → VisitResult)
    (parents : list Z) (nl : NodeList) (out : NodeNamesList) : VisitResult :=
  match parents with
  | [] => Done (true, nl, out)
  | parentId :: rest =>
      match nodeIndex nl parentId with
      | None => Undefined
      | Some p =>
          match visit p nl out with
          | Done (true, nl', out') => visitParents visit rest nl' out'
          | r => r
          end
      end
  end.

(** [Graph::visitNode]; the node reference is its index in [_nodeList]. *)
Fixpoint visitNode (fuel : nat) (i : nat) (nl : NodeList) (out : NodeNamesList)
    : VisitResult :=
  match fuel with
  | O => OutOfFuel
  | S fuel' =>
      match nl !! i with
      | None => Undefined
      | Some node =>
          match flag node with
          | MARK_PERMANENT => Done (true, nl, out)
          | MARK_TEMP => Done (false, nl, out)
          | UNMARKED =>
              match visitParents (visitNode fuel') (parentNodes node)
                      (alter (setFlag MARK_TEMP) i nl) out with
              | Done (true, nl', out') =>
                  Done (true, alter (setFlag MARK_PERMANENT) i nl',
                        out' ++ [name node])
              | r => r
              end
          end
      end
  end.

(** The loop [for(Node& node: _nodeList)] of [topologicalSort]. The result
    is the error flag, the returned list and the node list the graph is
    left with. *)
Fixpoint sortLoop (fuel : nat) (todo : list nat) (nl : NodeList)
    (out : NodeNamesList) : outcome (bool * NodeNamesList * NodeList) :=
  match todo with
  | [] => Done (false, out, nl)
  | i :: rest =>
      match nl !! i with
      | None => Undefined
      | Some node =>
          match flag node with
          | UNMARKED =>
              match visitNode fuel i nl out with
              | Done (true, nl', out') => sortLoop fuel rest nl' out'
              | Done (false, nl', _) => Done (true, [], nl')
              | Undefined => Undefined
              | OutOfFuel => OutOfFuel
              end
          | _ => sortLoop fuel rest nl out
          end
      end
  end.

(** [Graph::topologicalSort]. Every recursive call of [visitNode] follows
    the marking of an unmarked node, so one more unit of fuel than there
    are nodes is enough (lemma [visitNode_fuel]). *)
Definition topologicalSort (nl : NodeList)
    : outcome (bool * NodeNamesList * NodeList) :=
  sortLoop (S (length nl)) (seq 0 (length nl)) nl [].

(** The edge set: [edge nl i p] when [p] is listed as a parent of node [i]. *)
Definition edge (nl : NodeList) (i p : nat) : Prop :=
  ∃ node, nl !! i = Some node ∧ Z.of_nat p ∈ parentNodes node.

Definition hasCycle (nl : NodeList) : Prop := ∃ v, tc (edge nl) v v.

Definition unmarked (nl : NodeList) : Prop :=
  Forall (λ n, flag n = UNMARKED) nl.

Definition parentsInRange (nl : NodeList) : Prop :=
  Forall (λ n, Forall (λ p, 0 ≤ p < Z.of_nat (length nl)) (parentNodes n)) nl.

End Graph.

(** ** Return codes (pluginmanager.h, pluginmanager.cpp) *)

Inductive ReturnCode : Type :=
  | SUCCESS
  | UNKNOWN_ERROR
  | SEARCH_NOTHING_FOUND
  | SEARCH_CANNOT_PARSE_METADATA
  | SEARCH_NAME_ALREADY_EXISTS
  | SEARCH_LISTFILES_ERROR
  | LOAD_DEPENDENCY_BAD_VERSION
  | LOAD_DEPENDENCY_NOT_FOUND
  | LOAD_DEPENDENCY_CYCLE
  | UNLOAD_NOT_ALL.

#[global] Instance ReturnCode_eq_dec : EqDecision ReturnCode.
Proof. solve_decision. Defined.

(** Modelled from the spec: the conversion of a [ReturnCode] to [bool] is
    declared in pluginmanager.h, which is not part of the sources; only
    [SUCCESS] converts to [true]. *)
Definition succeeded (code : ReturnCode) : bool :=
  match code with SUCCESS => true | _ => false end.

(** ** Versions (version/version.h) *)

Module Version.

(** Modelled from the spec: the [Version] class is third-party code that is
    not part of the sources. A version is [MAJOR.MINOR.PATCH], a suffix
    after the patch number is ignored, and [compatible] asks for the same
    major number and a (minor, patch) pair that is lexicographically at
    least the required one. The manager itself takes the test from its
    [Host]; this definition instantiates it in the examples. *)

Definition digit (c : ascii) : option nat :=
  let n := Ascii.nat_of_ascii c in
  if decide (48 ≤ n ≤ 57)%nat then Some (n - 48)%nat else None.

Fixpoint number (s : string) (acc : option nat) : option nat * string :=
  match s with
  | EmptyString => (acc, s)
  | String c rest =>
      match digit c with
      | Some d => number rest (Some (10 * default 0%nat acc + d)%nat)
      | None => (acc, s)
      end
  end.

Definition dot (s : string) : option string :=
  match s with
  | String "."%char rest => Some rest
  | _ => None
  end.

Definition parse (s : string) : option (nat * nat * nat) :=
  let '(major, s1) := number s None in
  let '(minor, s2) := number (default "" (dot s1)) None in
  let '(patch, _) := number (default "" (dot s2)) None in
  ma ← major; mi ← minor; pa ← patch; Some (ma, mi, pa).

Definition compatible (this required : string) : bool :=
  match parse this, parse required with
  | Some (ma, mi, pa), Some (rma, rmi, rpa) =>
      bool_decide (ma = rma) &&
      (bool_decide (rmi < mi)%nat || (bool_decide (mi = rmi) && bool_decide (rpa ≤ pa)%nat))
  | _, _ => false
  end.

End Version.

(** ** JSON values (json/json.hpp) *)

Module Json.

(** Modelled from the spec: the JSON library is third-party code that is
    not part of the sources. [at] fails unless the value is an object that
    has the key, [get_string] fails unless the value is a string, and the
    range-based [for] visits the elements of an array. A failure stands
    for the exception the library throws. *)
Inductive json : Type :=
  | JNull
  | JBool (b : bool)
  | JNumber (z : Z)
  | JString (s : string)
  | JArray (elements : list json)
  | JObject (members : list (string * json)).

Fixpoint member (key : string) (members : list (string * json)) : option json :=
  match members with
  | [] => None
  | (k, v) :: rest => if decide (k = key) then Some v else member key rest
  end.

Definition at_ (key : string) (tree : json) : option json :=
  match tree with
  | JObject members => member key members
  | _ => None
  end.

Definition get_string (tree : json) : option string :=
  match tree with
  | JString s => Some s
  | _ => None
  end.

Definition items (tree : json) : list json :=
  match tree with
  | JArray elements => elements
  | JObject members => members.*2
  | JNull => []
  | other => [other]
  end.

End Json.

(** ** Plugin metadata (private/plugin.h, plugin.cpp) *)

Module Dependency.
Record t : Type := mk { name : string; version : string }.
End Dependency.

Module PluginInfoStd.
Record t : Type := mk {
  name : string;
  prettyName : string;
  version : string;
  author : string;
  url : string;
  license : string;
  copyright : string;
  dependencies : list Dependency.t
}.

(** The default-constructed record, whose empty name marks it invalid. *)
Definition empty : t := mk "" "" "" "" "" "" "" [].
End PluginInfoStd.

(** ** Shared libraries (sharedlibrary.h) *)

(** Modelled from the spec: the shared-library wrapper is third-party code
    that is not part of the sources. A library file is described by the
    three symbols a plugin exports, and by whether closing its handle
    succeeds; an open handle is the file it was opened from. *)
Record LibraryFile : Type := mkLibraryFile {
  jp_name : option string;
  jp_metadata : option string;
  jp_createPlugin : bool;
  closes : bool
}.

Definition SharedLibrary : Type := option LibraryFile.

Definition isLoaded (lib : SharedLibrary) : bool :=
  match lib with Some _ => true | None => false end.

Definition unload (lib : SharedLibrary) : SharedLibrary :=
  match lib with
  | Some file => if closes file then None else Some file
  | None => None
  end.

(** ** The environment of the manager *)

(** What the manager takes from code outside the sources: the version
    test, the JSON text parser, the file a path loads as a shared library
    (if any), and the listing of the library files of a directory
    ([fsutil::listLibrariesInDir], which reads the file system: its result
    flag and the paths it found). *)
Class Host : Type := {
  Version_compatible : string → string → bool;
  json_parse : string → option Json.json;
  library_at : string → option LibraryFile;
  listLibrariesInDir : string → bool → bool * list string
}.

Definition JP_PLUGIN_API : string := "1.0.0".

(** ** Plugin records (private/plugin.h) *)

Inductive tribool : Type := indeterminate | tri_true | tri_false.

(** A plugin object, named by the library whose factory built it. *)
Inductive IPlugin : Type := InstanceOf (library : string).

Record Plugin : Type := mkPlugin {
  path : string;
  lib : SharedLibrary;
  info : PluginInfoStd.t;
  dependenciesExists : tribool;
  graphId : Z;
  iplugin : option IPlugin;
  isMainPlugin : bool
}.

(** Modelled from the spec: the declaration of [Plugin] in private/plugin.h
    is not part of the sources; a new record has no path, a closed
    library, invalid metadata, an undetermined dependency flag, graph id
    [-1], no plugin object and is not the main plugin. *)
Definition newPlugin : Plugin :=
  mkPlugin "" None PluginInfoStd.empty indeterminate (-1) None false.

Definition set_dependenciesExists (v : tribool) (p : Plugin) : Plugin :=
  mkPlugin (path p) (lib p) (info p) v (graphId p) (iplugin p) (isMainPlugin p).
Definition set_graphId (g : Z) (p : Plugin) : Plugin :=
  mkPlugin (path p) (lib p) (info p) (dependenciesExists p) g (iplugin p) (isMainPlugin p).
Definition set_iplugin (i : option IPlugin) (p : Plugin) : Plugin :=
  mkPlugin (path p) (lib p) (info p) (dependenciesExists p) (graphId p) i (isMainPlugin p).
Definition set_lib (l : SharedLibrary) (p : Plugin) : Plugin :=
  mkPlugin (path p) l (info p) (dependenciesExists p) (graphId p) (iplugin p) (isMainPlugin p).
Definition set_isMainPlugin (b : bool) (p : Plugin) : Plugin :=
  mkPlugin (path p) (lib p) (info p) (dependenciesExists p) (graphId p) (iplugin p) b.

(** ** The registry: [std::unordered_map<std::string, PluginPtr>]

    The map is kept as the sequence of its entries in iteration order,
    which the load order depends on; its keys are distinct ([NoDup] of
    [keys]), an invariant every operation below preserves. Records are
    reached through shared pointers, so changing a record is an update in
    place. *)

Abbreviation PluginsMap := (list (string * Plugin)).

Definition keys (m : PluginsMap) : list string := m.*1.

Fixpoint find (key : string) (m : PluginsMap) : option Plugin :=
  match m with
  | [] => None
  | (k, p) :: rest => if decide (k = key) then Some p else find key rest
  end.

Definition count (key : string) (m : PluginsMap) : nat :=
  match find key m with Some _ => 1 | None => 0 end.

Fixpoint erase (key : string) (m : PluginsMap) : PluginsMap :=
  match m with
  | [] => []
  | (k, p) :: rest => if decide (k = key) then rest else (k, p) :: erase key rest
  end.

(** [m[key]->field = v]: the record under [key] changed in place. *)
Fixpoint update (key : string) (f : Plugin → Plugin) (m : PluginsMap) : PluginsMap :=
  match m with
  | [] => []
  | (k, p) :: rest =>
      if decide (k = key) then (k, f p) :: rest else (k, p) :: update key f rest
  end.

(** [m[key] = plugin]: the entry replaced if the key is there, added if not. *)
Fixpoint assign (key : string) (plugin : Plugin) (m : PluginsMap) : PluginsMap :=
  match m with
  | [] => [(key, plugin)]
  | (k, p) :: rest =>
      if decide (k = key) then (k, plugin) :: rest else (k, p) :: assign key plugin rest
  end.

(** ** What the manager does to the outside *)

Inductive CallbackData : Type :=
  | PathOf (libraryPath : string)
  | ErrnoMessage
  | NoData.

(** Calls of the callback of an operation, and calls into libraries and
    plugin objects; a plugin object is named by the registry key of the
    record that holds it. *)
Inductive Event : Type :=
  | Callback (code : ReturnCode) (data : CallbackData)
  | Created (key : string) (depPlugins : list (option IPlugin)) (isMain : bool)
  | Loaded (key : string)
  | AboutToBeUnloaded (key : string)
  | MainPluginExec (key : string).

#[global] Instance CallbackData_eq_dec : EqDecision CallbackData.
Proof. solve_decision. Defined.
#[global] Instance IPlugin_eq_dec : EqDecision IPlugin.
Proof. solve_decision. Defined.
#[global] Instance Event_eq_dec : EqDecision Event.
Proof. solve_decision. Defined.

(** ** The manager's state (private/pluginmanagerprivate.h)

    [trace] is not a field of the program: it records the events in the
    order they happen. The logger and its switch are left out. *)
Record PlugMgrPrivate : Type := mkState {
  pluginsMap : PluginsMap;
  locations : list string;
  loadOrderList : list string;
  mainPluginName : string;
  trace : list Event
}.

Definition with_pluginsMap (m : PluginsMap) (s : PlugMgrPrivate) : PlugMgrPrivate :=
  mkState m (locations s) (loadOrderList s) (mainPluginName s) (trace s).
Definition with_locations (l : list string) (s : PlugMgrPrivate) : PlugMgrPrivate :=
  mkState (pluginsMap s) l (loadOrderList s) (mainPluginName s) (trace s).
Definition with_loadOrderList (l : list string) (s : PlugMgrPrivate) : PlugMgrPrivate :=
  mkState (pluginsMap s) (locations s) l (mainPluginName s) (trace s).
Definition with_mainPluginName (n : string) (s : PlugMgrPrivate) : PlugMgrPrivate :=
  mkState (pluginsMap s) (locations s) (loadOrderList s) n (trace s).

Definition emit (e : Event) (s : PlugMgrPrivate) : PlugMgrPrivate :=
  mkState (pluginsMap s) (locations s) (loadOrderList s) (mainPluginName s)
          (trace s ++ [e]).

(** [if(callbackFunc) callbackFunc(code, data)]; [cb] tells whether a
    callback was passed. *)
Definition callback (cb : bool) (code : ReturnCode) (data : CallbackData)
    (s : PlugMgrPrivate) : PlugMgrPrivate :=
  if cb then emit (Callback code data) s else s.

Definition modify (key : string) (f : Plugin → Plugin) (s : PlugMgrPrivate)
    : PlugMgrPrivate :=
  with_pluginsMap (update key f (pluginsMap s)) s.

Definition emptyManager : PlugMgrPrivate := mkState [] [] [] "" [].

(** ** The manager's operations *)

Abbreviation CheckResult := (outcome (ReturnCode * PlugMgrPrivate)).

Section Manager.

Context `{host : Host}.

(** *** Metadata (PlugMgrPrivate::parseMetadata) *)

Definition readString (key : string) (tree : Json.json) : option string :=
  Json.at_ key tree ≫= Json.get_string.

Definition readDependency (jdep : Json.json) : option Dependency.t :=
  name ← readString "name" jdep;
  version ← readString "version" jdep;
  Some (Dependency.mk name version).

(** The body of the API test of [parseMetadata]: the record read from the
    tree, or nothing when a read throws. *)
Definition readInfo (tree : Json.json) : option PluginInfoStd.t :=
  name ← readString "name" tree;
  prettyName ← readString "prettyName" tree;
  version ← readString "version" tree;
  author ← readString "author" tree;
  url ← readString "url" tree;
  license ← readString "license" tree;
  copyright ← readString "copyright" tree;
  jsonDep ← Json.at_ "dependencies" tree;
  dependencies ← mapM readDependency (Json.items jsonDep);
  Some (PluginInfoStd.mk name prettyName version author url license copyright
                         dependencies).

(** [parseMetadata]: every exception is caught, and the default record is
    returned for it and for an incompatible API version. *)
Definition parseMetadata (metadata : string) : PluginInfoStd.t :=
  match json_parse metadata with
  | None => PluginInfoStd.empty
  | Some tree =>
      match readString "api" tree with
      | None => PluginInfoStd.empty
      | Some api =>
          if Version_compatible api JP_PLUGIN_API then
            match readInfo tree with
            | Some info => info
            | None => PluginInfoStd.empty
            end
          else PluginInfoStd.empty
      end
  end.

(** *** Dependency check (PlugMgrPrivate::checkDependencies)

    The [PluginPtr&] argument is always an entry of the registry and is
    given by its key; a key without a record stands for a null pointer. *)

(** The loop over the declared dependencies, from the one at hand to the
    last; [check] is the recursive call and [pluginPath] the path of the
    record under [key]. *)
Fixpoint checkEach (check : string → PlugMgrPrivate → CheckResult) (cb : bool)
    (key pluginPath : string) (deps : list Dependency.t) (s : PlugMgrPrivate)
    : CheckResult :=
  match deps with
  | [] => Done (SUCCESS, modify key (set_dependenciesExists tri_true) s)
  | dep :: rest =>
      let depName := Dependency.name dep in
      let depVer := Dependency.version dep in
      match find depName (pluginsMap s) with
      | None =>
          Done (LOAD_DEPENDENCY_NOT_FOUND,
                callback cb LOAD_DEPENDENCY_NOT_FOUND (PathOf pluginPath)
                  (modify key (set_dependenciesExists tri_false) s))
      | Some depPlugin =>
          if negb (Version_compatible (PluginInfoStd.version (info depPlugin)) depVer)
          then
            Done (LOAD_DEPENDENCY_BAD_VERSION,
                  callback cb LOAD_DEPENDENCY_BAD_VERSION (PathOf pluginPath)
                    (modify key (set_dependenciesExists tri_false) s))
          else
            match check depName s with
            | Done (retCode, s') =>
                if succeeded retCode
                then checkEach check cb key pluginPath rest s'
                else Done (retCode, s')
            | r => r
            end
      end
  end.

Fixpoint checkDependencies (fuel : nat) (cb : bool) (key : string)
    (s : PlugMgrPrivate) : CheckResult :=
  match fuel with
  | O => OutOfFuel
  | S fuel' =>
      match find key (pluginsMap s) with
      | None => Undefined
      | Some plugin =>
          match dependenciesExists plugin with
          | tri_true => Done (SUCCESS, s)
          | tri_false =>
              Done (if decide (count (PluginInfoStd.name (info plugin)) (pluginsMap s) = 0%nat)
                    then LOAD_DEPENDENCY_NOT_FOUND
                    else LOAD_DEPENDENCY_BAD_VERSION, s)
          | indeterminate =>
              checkEach (checkDependencies fuel' cb) cb key (path plugin)
                        (PluginInfoStd.dependencies (info plugin)) s
          end
      end
  end.

(** *** Loading (PlugMgrPrivate::loadPlugin, loadPluginsInOrder) *)

(** [depPlugins[i] = pluginsMap[name]->iplugin.get()] for each declared
    dependency: a missing record is a null pointer dereferenced. *)
Fixpoint dependencyObjects (deps : list Dependency.t) (m : PluginsMap)
    : option (list (option IPlugin)) :=
  match deps with
  | [] => Some []
  | dep :: rest =>
      match find (Dependency.name dep) m with
      | None => None
      | Some depPlugin =>
          match dependencyObjects rest m with
          | None => None
          | Some objects => Some (iplugin depPlugin :: objects)
          end
      end
  end.

(** [PlugMgrPrivate::loadPlugin]: the factory is read from the library,
    which has to be open and to export it, the plugin object it returns
    is stored and [loaded()] is called on it. The [creator] field is set
    and used here only and is not kept in the model. *)
Definition PlugMgrPrivate_loadPlugin (key : string) (s : PlugMgrPrivate)
    : outcome PlugMgrPrivate :=
  match find key (pluginsMap s) with
  | None => Undefined
  | Some plugin =>
      match lib plugin with
      | None => Undefined
      | Some file =>
          if jp_createPlugin file then
            match dependencyObjects (PluginInfoStd.dependencies (info plugin))
                                    (pluginsMap s) with
            | None => Undefined
            | Some depPlugins =>
                Done (emit (Loaded key)
                       (modify key (set_iplugin (Some (InstanceOf (path plugin))))
                         (emit (Created key depPlugins (isMainPlugin plugin)) s)))
            end
          else Undefined
      end
  end.

(** [loadPluginsInOrder]; [pluginsMap.at(name)] throws for a missing name. *)
Fixpoint loadEach (names : list string) (s : PlugMgrPrivate)
    : outcome PlugMgrPrivate :=
  match names with
  | [] => Done s
  | name :: rest =>
      match PlugMgrPrivate_loadPlugin name s with
      | Done s' => loadEach rest s'
      | r => r
      end
  end.

Definition loadPluginsInOrder (s : PlugMgrPrivate) : outcome PlugMgrPrivate :=
  loadEach (loadOrderList s) s.

(** *** Unloading (Plugin::~Plugin, PlugMgrPrivate::unloadPlugin,
        unloadPluginsInOrder) *)

(** What the destructor of a record calls on its plugin object. *)
Definition Plugin_destructor (key : string) (plugin : Plugin) : list Event :=
  if isLoaded (lib plugin) then
    match iplugin plugin with
    | Some _ => [AboutToBeUnloaded key]
    | None => []
    end
  else [].

(** [PlugMgrPrivate::unloadPlugin]. [plugin.reset()] destroys the record,
    whose plugin object is gone by then, and leaves a null pointer in the
    entry, which every caller erases next; until then the model keeps the
    closed record in the entry. *)
Definition PlugMgrPrivate_unloadPlugin (key : string) (s : PlugMgrPrivate)
    : outcome (bool * PlugMgrPrivate) :=
  match find key (pluginsMap s) with
  | None => Undefined
  | Some plugin =>
      let s1 :=
        match iplugin plugin with
        | Some _ => emit (AboutToBeUnloaded key) s
        | None => s
        end in
      let closed := set_lib (unload (lib plugin)) (set_iplugin None plugin) in
      let s2 := modify key (λ _, closed) s1 in
      let s3 := fold_left (λ st e, emit e st) (Plugin_destructor key closed) s2 in
      Done (negb (isLoaded (lib closed)), s3)
  end.

Definition erasePlugin (key : string) (s : PlugMgrPrivate) : PlugMgrPrivate :=
  with_pluginsMap (erase key (pluginsMap s)) s.

(** The first loop of [unloadPluginsInOrder], over the load order from its
    last name to its first. *)
Fixpoint unloadEach (names : list string) (allUnloaded : bool)
    (s : PlugMgrPrivate) : outcome (bool * PlugMgrPrivate) :=
  match names with
  | [] => Done (allUnloaded, s)
  | name :: rest =>
      match PlugMgrPrivate_unloadPlugin name s with
      | Done (ok, s') =>
          unloadEach rest (if ok then allUnloaded else false) (erasePlugin name s')
      | r => r
      end
  end.

(** The loop [while(!pluginsMap.empty())]; the map loses an entry in each
    round, so as many rounds as it has entries are enough. *)
Fixpoint unloadRemaining (rounds : nat) (allUnloaded : bool)
    (s : PlugMgrPrivate) : outcome (bool * PlugMgrPrivate) :=
  match pluginsMap s with
  | [] => Done (allUnloaded, s)
  | (key, _) :: _ =>
      match rounds with
      | O => OutOfFuel
      | S rounds' =>
          match PlugMgrPrivate_unloadPlugin key s with
          | Done (ok, s') =>
              unloadRemaining rounds' (if ok then allUnloaded else false)
                              (erasePlugin key s')
          | r => r
          end
      end
  end.

Definition unloadPluginsInOrder (s : PlugMgrPrivate)
    : outcome (bool * PlugMgrPrivate) :=
  match unloadEach (reverse (loadOrderList s)) true s with
  | Done (allUnloaded, s1) =>
      match unloadRemaining (length (pluginsMap s1)) allUnloaded s1 with
      | Done (allUnloaded', s2) => Done (allUnloaded', with_locations [] s2)
      | r => r
      end
  | r => r
  end.

(** *** Queries (PluginManager::hasPlugin, isPluginLoaded) and the
        broker's plugin access (PlugMgrPrivate::getNonDepPlugin) *)

Definition hasPlugin (name : string) (s : PlugMgrPrivate) : bool :=
  bool_decide (count name (pluginsMap s) = 1%nat).

Definition isPluginLoaded (name : string) (s : PlugMgrPrivate) : bool :=
  hasPlugin name s &&
  match find name (pluginsMap s) with
  | Some plugin => isLoaded (lib plugin) && bool_decide (is_Some (iplugin plugin))
  | None => false
  end.

(** The result is the raw pointer, [None] for [nullptr]; the record of a
    sender that is not registered is a null pointer dereferenced. *)
Definition getNonDepPlugin (sender pluginName : string) (s : PlugMgrPrivate)
    : outcome (option IPlugin) :=
  match find sender (pluginsMap s) with
  | None => Undefined
  | Some senderPlugin =>
      if isMainPlugin senderPlugin then
        if isPluginLoaded pluginName s then
          match find pluginName (pluginsMap s) with
          | Some plugin => Done (iplugin plugin)
          | None => Undefined
          end
        else Done None
      else Done None
  end.

(** *** Discovery (PluginManager::searchForPlugins) *)

(** One round of the loop over the library files found. A candidate that
    is dropped has no plugin object, so closing it calls nothing. *)
Definition searchCandidate (cb : bool) (libPath : string)
    (acc : bool * PlugMgrPrivate) : bool * PlugMgrPrivate :=
  let '(atLeastOneFound, s) := acc in
  match library_at libPath with
  | None => acc
  | Some file =>
      match jp_name file, jp_metadata file, jp_createPlugin file with
      | Some name, Some metadata, true =>
          if decide (count name (pluginsMap s) = 1%nat) then
            (atLeastOneFound,
             callback cb SEARCH_NAME_ALREADY_EXISTS (PathOf libPath) s)
          else
            let info := parseMetadata metadata in
            if decide (PluginInfoStd.name info = "") then
              (atLeastOneFound,
               callback cb SEARCH_CANNOT_PARSE_METADATA (PathOf libPath) s)
            else
              let plugin :=
                mkPlugin libPath (Some file) info (dependenciesExists newPlugin)
                         (graphId newPlugin) (iplugin newPlugin)
                         (isMainPlugin newPlugin) in
              (true, with_pluginsMap (assign name plugin (pluginsMap s)) s)
      | _, _, _ => acc
      end
  end.

Definition searchForPlugins (pluginDir : string) (recursive cb : bool)
    (s : PlugMgrPrivate) : ReturnCode * PlugMgrPrivate :=
  let '(listed, libList) := listLibrariesInDir pluginDir recursive in
  let s0 := if listed then s
            else callback cb SEARCH_LISTFILES_ERROR ErrnoMessage s in
  if negb listed && bool_decide (libList = []) then (SEARCH_LISTFILES_ERROR, s0)
  else
    let '(atLeastOneFound, s1) :=
      fold_left (λ acc libPath, searchCandidate cb libPath acc) libList (false, s0) in
    if atLeastOneFound then
      (SUCCESS,
       if decide (pluginDir ∈ locations s1) then s1
       else with_locations (locations s1 ++ [pluginDir]) s1)
    else (SEARCH_NOTHING_FOUND, s1).

(** *** The main plugin (PluginManager::registerMainPlugin) *)

Definition registerMainPlugin (pluginName : string) (s : PlugMgrPrivate)
    : ReturnCode * PlugMgrPrivate :=
  if bool_decide (mainPluginName s = "") && hasPlugin pluginName s then
    (SUCCESS,
     modify pluginName (set_isMainPlugin true) (with_mainPluginName pluginName s))
  else (UNKNOWN_ERROR, s).

(** *** Bulk load (PluginManager::loadPlugins) *)

(** [nodeList.size() - 1] stored in the [int] field [graphId]. *)
Definition to_int (z : Z) : Z := (z + 2 ^ 31) `mod` 2 ^ 32 - 2 ^ 31.

(** The first loop: the dependency check of every record and the node of
    every record whose dependencies exist. The first component of the
    result is the code of the early return, if it is taken. *)
Fixpoint checkAll (fuel : nat) (tryToContinue cb : bool) (todo : list string)
    (nodeList : Graph.NodeList) (s : PlugMgrPrivate)
    : outcome (option ReturnCode * Graph.NodeList * PlugMgrPrivate) :=
  match todo with
  | [] => Done (None, nodeList, s)
  | key :: rest =>
      match checkDependencies fuel cb key (modify key (set_graphId (-1)) s) with
      | Done (retCode, s1) =>
          if negb tryToContinue && negb (succeeded retCode)
          then Done (Some retCode, nodeList, s1)
          else
            match find key (pluginsMap s1) with
            | None => Undefined
            | Some plugin =>
                match dependenciesExists plugin with
                | tri_true =>
                    let nodeList' := nodeList ++ [Graph.newNode key] in
                    checkAll fuel tryToContinue cb rest nodeList'
                      (modify key
                         (set_graphId (to_int (Z.of_nat (length nodeList') - 1))) s1)
                | _ => checkAll fuel tryToContinue cb rest nodeList s1
                end
            end
      | Undefined => Undefined
      | OutOfFuel => OutOfFuel
      end
  end.

(** [nodeList[nodeId].parentNodes.push_back(pluginsMap[name]->graphId)] for
    each declared dependency. *)
Fixpoint pushParents (nodeId : Z) (deps : list Dependency.t)
    (nodeList : Graph.NodeList) (m : PluginsMap) : outcome Graph.NodeList :=
  match deps with
  | [] => Done nodeList
  | dep :: rest =>
      match Graph.nodeIndex nodeList nodeId, find (Dependency.name dep) m with
      | Some i, Some depPlugin =>
          pushParents nodeId rest
            (alter (Graph.addParent (graphId depPlugin)) i nodeList) m
      | _, _ => Undefined
      end
  end.

(** The second loop: the parents of every node. *)
Fixpoint fillParents (todo : list string) (nodeList : Graph.NodeList)
    (m : PluginsMap) : outcome Graph.NodeList :=
  match todo with
  | [] => Done nodeList
  | key :: rest =>
      match find key m with
      | None => Undefined
      | Some plugin =>
          if decide (graphId plugin = -1) then fillParents rest nodeList m
          else
            match pushParents (graphId plugin)
                    (PluginInfoStd.dependencies (info plugin)) nodeList m with
            | Done nodeList' => fillParents rest nodeList' m
            | r => r
            end
      end
  end.

(** [pluginsMap.at(mainPluginName)->iplugin->mainPluginExec()], when a main
    plugin is registered. *)
Definition callMainPlugin (s : PlugMgrPrivate) : outcome PlugMgrPrivate :=
  if decide (mainPluginName s = "") then Done s
  else
    match find (mainPluginName s) (pluginsMap s) with
    | Some plugin =>
        match iplugin plugin with
        | Some _ => Done (emit (MainPluginExec (mainPluginName s)) s)
        | None => Undefined
        end
    | None => Undefined
    end.

Definition loadPlugins (fuel : nat) (tryToContinue cb : bool)
    (s : PlugMgrPrivate) : outcome (ReturnCode * PlugMgrPrivate) :=
  match checkAll fuel tryToContinue cb (keys (pluginsMap s)) [] s with
  | Done (Some retCode, _, s1) => Done (retCode, s1)
  | Done (None, nodeList, s1) =>
      match fillParents (keys (pluginsMap s1)) nodeList (pluginsMap s1) with
      | Done nodeList' =>
          match Graph.topologicalSort nodeList' with
          | Done (error, order, _) =>
              let s2 := with_loadOrderList order s1 in
              if error then
                Done (LOAD_DEPENDENCY_CYCLE,
                      callback cb LOAD_DEPENDENCY_CYCLE NoData s2)
              else
                match loadPluginsInOrder s2 with
                | Done s3 =>
                    match callMainPlugin s3 with
                    | Done s4 => Done (SUCCESS, s4)
                    | Undefined => Undefined
                    | OutOfFuel => OutOfFuel
                    end
                | Undefined => Undefined
                | OutOfFuel => OutOfFuel
                end
          | Undefined => Undefined
          | OutOfFuel => OutOfFuel
          end
      | Undefined => Undefined
      | OutOfFuel => OutOfFuel
      end
  | Undefined => Undefined
  | OutOfFuel => OutOfFuel
  end.

(** *** Bulk unload (PluginManager::unloadPlugins) *)

Definition unloadPlugins (cb : bool) (s : PlugMgrPrivate)
    : outcome (ReturnCode * PlugMgrPrivate) :=
  match unloadPluginsInOrder s with
  | Done (true, s') => Done (SUCCESS, s')
  | Done (false, s') => Done (UNLOAD_NOT_ALL, callback cb UNLOAD_NOT_ALL NoData s')
  | Undefined => Undefined
  | OutOfFuel => OutOfFuel
  end.

(** *** Targeted load (PluginManager::loadPlugin) *)

Definition loadPlugin (fuel : nat) (pluginName : string) (s : PlugMgrPrivate)
    : outcome (bool * PlugMgrPrivate) :=
  match find pluginName (pluginsMap s) with
  | None => Done (false, s)
  | Some plugin =>
      if isLoaded (lib plugin) then Done (true, s)
      else
        match checkDependencies fuel false pluginName s with
        | Done (retCode, s1) =>
            if negb (succeeded retCode) then Done (false, s1)
            else
              match PlugMgrPrivate_loadPlugin pluginName s1 with
              | Done s2 => Done (true, s2)
              | Undefined => Undefined
              | OutOfFuel => OutOfFuel
              end
        | Undefined => Undefined
        | OutOfFuel => OutOfFuel
        end
  end.

End Manager.

(** ** A host for the examples *)

Module Demo.
Import Json.

Definition metadata (api name version : string) (deps : list (string * string))
    : json :=
  JObject
    [("api", JString api); ("name", JString name);
     ("prettyName", JString name); ("version", JString version);
     ("author", JString "somebody"); ("url", JString "nowhere");
     ("license", JString "MIT"); ("copyright", JString "somebody");
     ("dependencies",
      JArray ((λ d, JObject [("name", JString d.1); ("version", JString d.2)])
                <$> deps))].

(** The metadata buffers of the example libraries, by what they hold. *)
Definition parse (buffer : string) : option json :=
  if decide (buffer = "metadata of A") then
    Some (metadata "1.0.0" "A" "1.0.0" [])
  else if decide (buffer = "metadata of B") then
    Some (metadata "1.0.0" "B" "1.2.0" [("A", "1.0.0")])
  else if decide (buffer = "metadata of C") then
    Some (metadata "1.0.0" "C" "1.0.0" [("Z", "1.0.0")])
  else if decide (buffer = "metadata of Old") then
    Some (metadata "2.0.0" "Old" "1.0.0" [])
  else None.

Definition pluginFile (name buffer : string) : LibraryFile :=
  mkLibraryFile (Some name) (Some buffer) true true.

Definition library (path : string) : option LibraryFile :=
  if decide (path = "plugins/libA.so") then
    Some (pluginFile "A" "metadata of A")
  else if decide (path = "plugins/libB.so") then
    Some (pluginFile "B" "metadata of B")
  else if decide (path = "more/libC.so") then
    Some (pluginFile "C" "metadata of C")
  else if decide (path = "more/libA.so") then
    Some (pluginFile "A" "not JSON")
  else if decide (path = "more/libOld.so") then
    Some (pluginFile "Old" "metadata of Old")
  else if decide (path = "more/libBroken.so") then
    Some (pluginFile "Broken" "not JSON")
  else if decide (path = "more/libm.so") then
    Some (mkLibraryFile None None false true)
  else None.

Definition listing (dir : string) (recursive : bool) : bool * list string :=
  if decide (dir = "plugins") then
    (true, ["plugins/libB.so"; "plugins/libA.so"])
  else if decide (dir = "more") then
    (true, ["more/libC.so"; "more/libA.so"; "more/libOld.so";
            "more/libBroken.so"; "more/libm.so"])
  else (false, []).

Definition host : Host :=
  {| Version_compatible := Version.compatible;
     json_parse := parse;
     library_at := library;
     listLibrariesInDir := listing |}.

(** The manager after the search of the directory [plugins], after the
    search of [more] that follows it, and after the load of all plugins
    found in [plugins]. *)
Definition discovered : PlugMgrPrivate :=
  (searchForPlugins (host := host) "plugins" false true emptyManager).2.

Definition discoveredMore : PlugMgrPrivate :=
  (searchForPlugins (host := host) "more" false true discovered).2.

Definition loaded : PlugMgrPrivate :=
  match loadPlugins (host := host) 4 true true discovered with
  | Done (_, s) => s
  | _ => discovered
  end.

(** The same with [B] registered as the main plugin before the load. *)
Definition loadedWithMain : PlugMgrPrivate :=
  match loadPlugins (host := host) 4 true true
          (registerMainPlugin "B" discovered).2 with
  | Done (_, s) => s
  | _ => discovered
  end.

(** The manager after the two searches and a load of all plugins. *)
Definition loadedMore : PlugMgrPrivate :=
  match loadPlugins (host := host) 4 true true discoveredMore with
  | Done (_, s) => s
  | _ => discoveredMore
  end.

Definition stateOf {A} (r : outcome (A * PlugMgrPrivate))
    (otherwise : PlugMgrPrivate) : PlugMgrPrivate :=
  match r with
  | Done (_, s) => s
  | _ => otherwise
  end.

(** The manager after the unload that follows the load of [plugins]. *)
Definition unloaded : PlugMgrPrivate :=
  stateOf (unloadPlugins true loaded) loaded.

(** The manager after the dependency check of [C], whose dependency [Z] is
    not registered, and after one and two calls of [loadPlugins] that stop
    at the first failure. *)
Definition checkedC : PlugMgrPrivate :=
  stateOf (checkDependencies (host := host) 4 true "C" discoveredMore)
          discoveredMore.

Definition stoppedOnce : PlugMgrPrivate :=
  stateOf (loadPlugins (host := host) 4 false true discoveredMore)
          discoveredMore.

Definition stoppedTwice : PlugMgrPrivate :=
  stateOf (loadPlugins (host := host) 4 false true stoppedOnce) stoppedOnce.

(** The manager after the dependency check of [A], which has no
    dependency. *)
Definition checkedA : PlugMgrPrivate :=
  stateOf (checkDependencies (host := host) 4 false "A" discovered) discovered.

(** The record under a key of a manager. *)
Definition recordOf (key : string) (s : PlugMgrPrivate) : Plugin :=
  default newPlugin (find key (pluginsMap s)).

(** Two nodes that are the parent of each other. *)
Definition twoCycle : Graph.NodeList :=
  [Graph.mkNode "A" [1] Graph.UNMARKED; Graph.mkNode "B" [0] Graph.UNMARKED].

End Demo.

(** ** Predicates of the properties *)

Module GraphSpec.
Import Graph.

(** What a successful visit may do to the node list: names and parents
    stay, and a mark changes only from unmarked to permanent. *)
Definition advances (nl nl' : NodeList) : Prop :=
  Forall2 (λ n n', name n' = name n ∧ parentNodes n' = parentNodes n ∧
                   (flag n' = flag n ∨
                    (flag n = UNMARKED ∧ flag n' = MARK_PERMANENT))) nl nl'.

Definition unmarkedCount (nl : NodeList) : nat :=
  length (filter (λ n, flag n = UNMARKED) nl).

(** The invariant of the search: [out] lists the names of the nodes [ids],
    which are the permanently marked ones, each once, and every parent of
    a listed node is listed at a smaller position. *)
Definition sortedSoFar (nl : NodeList) (out : NodeNamesList) (ids : list nat)
    : Prop :=
  Forall2 (λ i n, name <$> nl !! i = Some n) ids out ∧
  NoDup ids ∧
  (∀ i, i ∈ ids ↔ flag <$> nl !! i = Some MARK_PERMANENT) ∧
  (∀ (k i : nat) (node : Node) (p : Z), ids !! k = Some i → nl !! i = Some node →
     p ∈ parentNodes node →
     (0 ≤ p)%Z ∧ ∃ k', (k' < k)%nat ∧ ids !! k' = Some (Z.to_nat p)).

End GraphSpec.

Module ManagerSpec.

(** Two registries that differ at most in the dependency flags of their
    records. *)
Definition forgetFlag (p : Plugin) : Plugin :=
  set_dependenciesExists indeterminate p.

Definition sameButFlags (m m' : PluginsMap) : Prop :=
  prod_map id forgetFlag <$> m' = prod_map id forgetFlag <$> m.

(** The metadata the registry holds under each key. *)
Definition infos (m : PluginsMap) : list (string * PluginInfoStd.t) :=
  prod_map id info <$> m.

Definition dependencyNames (p : Plugin) : list string :=
  Dependency.name <$> PluginInfoStd.dependencies (info p).

(** [graphId] of the record of each declared dependency. *)
Definition parentIds (deps : list Dependency.t) (m : PluginsMap)
    : option (list Z) :=
  mapM (λ dep, graphId <$> find (Dependency.name dep) m) deps.

Definition addParents (ids : list Z) (n : Graph.Node) : Graph.Node :=
  Graph.mkNode (Graph.name n) (Graph.parentNodes n ++ ids) (Graph.flag n).

(** The keys of the records on whose plugin object [loaded()], and
    [aboutToBeUnloaded()], was called, in the order of the calls. *)
Definition loadedCalls (events : list Event) : list string :=
  omap (λ e, match e with Loaded key => Some key | _ => None end) events.

Definition unloadCalls (events : list Event) : list string :=
  omap (λ e, match e with AboutToBeUnloaded key => Some key | _ => None end)
       events.

(** The record under [name] holds a plugin object. *)
Definition holdsObject (m : PluginsMap) (name : string) : bool :=
  match find name m with
  | Some plugin => bool_decide (is_Some (iplugin plugin))
  | None => false
  end.

(** The keys of the records that are not in the load order, in the
    iteration order of the registry. *)
Definition stragglers (s : PlugMgrPrivate) : list string :=
  filter (λ k, k ∉ loadOrderList s) (keys (pluginsMap s)).

(** Two states that differ at most in dependency flags and in the calls
    of the callback. *)
Definition flagsOnly (s s' : PlugMgrPrivate) : Prop :=
  sameButFlags (pluginsMap s) (pluginsMap s') ∧
  locations s' = locations s ∧
  loadOrderList s' = loadOrderList s ∧
  mainPluginName s' = mainPluginName s ∧
  loadedCalls (trace s') = loadedCalls (trace s) ∧
  unloadCalls (trace s') = unloadCalls (trace s).

(** Two states with the same keys and metadata, locations and main plugin. *)
Definition sameInfos (s s' : PlugMgrPrivate) : Prop :=
  infos (pluginsMap s') = infos (pluginsMap s) ∧
  locations s' = locations s ∧
  mainPluginName s' = mainPluginName s.

(** The invariant of the first loop of [loadPlugins]: the nodes made so far
    are fresh nodes named [ns], all of them keys already visited, and the
    graph id of a visited record is [-1] when it has no node and the index
    of its node when it has one. *)
Definition numbered (visited ns : list string) (m : PluginsMap) : Prop :=
  NoDup ns ∧
  (∀ k, k ∈ ns → k ∈ visited) ∧
  (∀ k p, k ∈ visited → find k m = Some p →
     (graphId p = -1 ∧ k ∉ ns) ∨
     (0 ≤ graphId p ∧ ns !! Z.to_nat (graphId p) = Some k)).

(** The invariant of the second loop of [loadPlugins]: the node of a key
    already visited has the graph ids of its declared dependencies as
    parents, and the node of any other key is still fresh. *)
Definition filled (visited ns : list string) (m : PluginsMap)
    (nl : Graph.NodeList) : Prop :=
  length nl = length ns ∧
  ∀ (g : nat) k, ns !! g = Some k →
    (k ∈ visited →
       ∃ p ids, find k m = Some p ∧
         parentIds (PluginInfoStd.dependencies (info p)) m = Some ids ∧
         nl !! g = Some (Graph.mkNode k ids Graph.UNMARKED)) ∧
    (k ∉ visited → nl !! g = Some (Graph.newNode k)).

(** The keys of the registry are distinct. *)
Definition uniqueKeys (s : PlugMgrPrivate) : Prop :=
  NoDup (keys (pluginsMap s)).

(** The plugin under [name] is LIVE: registered, with an open library and
    a plugin object. *)
Definition LIVE (name : string) (s : PlugMgrPrivate) : Prop :=
  ∃ plugin, find name (pluginsMap s) = Some plugin ∧
            isLoaded (lib plugin) = true ∧ is_Some (iplugin plugin).

(** A library file is a candidate plugin called [name] with the metadata
    buffer [metadata]: it exports the three symbols. *)
Definition candidate (file : LibraryFile) (name metadata : string) : Prop :=
  jp_name file = Some name ∧ jp_metadata file = Some metadata ∧
  jp_createPlugin file = true.

(** The shape of the metadata that [parseMetadata] reads, told on the JSON
    value itself. [holdsString key tree value]: the value is an object
    and holds the string [value] under [key]. *)
Definition holdsString (key : string) (tree : Json.json) (value : string)
    : Prop :=
  ∃ members, tree = Json.JObject members ∧
             Json.member key members = Some (Json.JString value).

(** An entry of the dependencies: an object that holds a string under
    [name] and under [version]. *)
Definition dependencyEntry (jdep : Json.json) : Prop :=
  (∃ name, holdsString "name" jdep name) ∧
  (∃ version, holdsString "version" jdep version).

(** The values of the member [dependencies] whose items are all entries:
    an array of entries, and also an object whose values are entries and
    the null value, which has no item. A number, a string or a boolean is
    its own single item, and no entry. *)
Inductive entriesOnly : Json.json → Prop :=
  | entries_array elements :
      Forall dependencyEntry elements → entriesOnly (Json.JArray elements)
  | entries_object members :
      Forall dependencyEntry members.*2 → entriesOnly (Json.JObject members)
  | entries_null : entriesOnly Json.JNull.

Definition requiredStrings : list string :=
  ["api"; "name"; "prettyName"; "version"; "author"; "url"; "license";
   "copyright"].

(** The value is an object that holds a string under each of the eight
    keys and, under [dependencies], a value whose items are all entries. *)
Definition wellShaped (tree : Json.json) : Prop :=
  Forall (λ key, ∃ value, holdsString key tree value) requiredStrings ∧
  ∃ members value, tree = Json.JObject members ∧
    Json.member "dependencies" members = Some value ∧ entriesOnly value.

(** A metadata buffer that is not JSON, or whose JSON value is not of this
    shape, or whose API version is not compatible with [JP_PLUGIN_API]. *)
Definition metadataDefect `{host : Host} (metadata : string) : Prop :=
  json_parse metadata = None ∨
  ∃ tree, json_parse metadata = Some tree ∧
    (¬ wellShaped tree ∨
     ∃ api, holdsString "api" tree api ∧
            Version_compatible api JP_PLUGIN_API = false).

(** Follows the spec's words: the metadata schema of the plugin binary
    contract, an object with the eight strings and, under [dependencies],
    an array of objects with the strings [name] and [version]. The texts
    that the schema writes as semver and identifier are any strings
    here. *)
Definition conformsToSchema (tree : Json.json) : Prop :=
  Forall (λ key, ∃ value, holdsString key tree value) requiredStrings ∧
  ∃ members elements, tree = Json.JObject members ∧
    Json.member "dependencies" members = Some (Json.JArray elements) ∧
    Forall dependencyEntry elements.

(** What a search may do to the registry: the records that were there
    stay as they are, and a record that was not there has an open library
    and no plugin object. *)
Definition grownBySearch (s s' : PlugMgrPrivate) : Prop :=
  uniqueKeys s' ∧
  loadOrderList s' = loadOrderList s ∧
  mainPluginName s' = mainPluginName s ∧
  (∀ k q, find k (pluginsMap s) = Some q → find k (pluginsMap s') = Some q) ∧
  (∀ k q, find k (pluginsMap s') = Some q →
     find k (pluginsMap s) = Some q ∨
     (find k (pluginsMap s) = None ∧
      isLoaded (lib q) = true ∧ iplugin q = None)).

(** Every operation keeps the keys of the registry distinct. *)
Definition keepsUniqueKeys `{host : Host} : Prop :=
  (∀ pluginDir recursive cb s,
     uniqueKeys s → uniqueKeys (searchForPlugins pluginDir recursive cb s).2) ∧
  (∀ pluginName s,
     uniqueKeys s → uniqueKeys (registerMainPlugin pluginName s).2) ∧
  (∀ fuel tryToContinue cb s retCode s',
     uniqueKeys s → loadPlugins fuel tryToContinue cb s = Done (retCode, s') →
     uniqueKeys s') ∧
  (∀ fuel pluginName s ok s',
     uniqueKeys s → loadPlugin fuel pluginName s = Done (ok, s') →
     uniqueKeys s') ∧
  (∀ cb s retCode s',
     unloadPlugins cb s = Done (retCode, s') → uniqueKeys s').


End ManagerSpec.

(** * Further parts of the program *)

(** ** The text of a return code (ReturnCode::message) *)

Definition message (code : ReturnCode) : string :=
  match code with
  | SUCCESS => "Success"
  | UNKNOWN_ERROR => "Unknown error"
  | SEARCH_NOTHING_FOUND => "No plugins was found in that directory"
  | SEARCH_CANNOT_PARSE_METADATA =>
      "Plugins metadata cannot be parsed (maybe they are invalid ?)"
  | SEARCH_NAME_ALREADY_EXISTS =>
      "A plugin with the same name was already found"
  | SEARCH_LISTFILES_ERROR =>
      "An error occurs during the scan of the plugin dir"
  | LOAD_DEPENDENCY_BAD_VERSION =>
      "The plugin requires a dependency that's in an incorrect version"
  | LOAD_DEPENDENCY_NOT_FOUND =>
      "The plugin requires a dependency that wasn't found"
  | LOAD_DEPENDENCY_CYCLE =>
      "The dependencies graph contains a cycle, which makes impossible to load plugins"
  | UNLOAD_NOT_ALL => "Not all plugins have been unloaded"
  end.

(** ** C strings and the check of plugin names (iplugin.h)

    A [const char*] is given by the characters from the pointer on: the
    string it points to ends at the first NUL, or at the end of the
    characters given, where the terminator stands. *)

Module CStringUtil.

Definition NUL : ascii := "000"%char.

(** [*str]. *)
Definition first (str : string) : ascii :=
  match str with
  | EmptyString => NUL
  | String c _ => c
  end.

(** [jp_internal::CStringUtil::contains]. *)
Fixpoint contains (str : string) (c : ascii) : bool :=
  match str with
  | EmptyString => false
  | String x rest =>
      if decide (x = NUL) then false
      else if decide (x = c) then true else contains rest c
  end.

(** [jp_internal::CStringUtil::containsOnly]. *)
Fixpoint containsOnly (str allowed : string) : bool :=
  match str with
  | EmptyString => true
  | String x rest =>
      if decide (x = NUL) then true
      else if contains allowed x then containsOnly rest allowed else false
  end.

(** The three [static_assert]s of [JP_DECLARE_PLUGIN] on the plugin name. *)
Definition pluginNameAccepted (pluginName : string) : bool :=
  containsOnly pluginName
    "ABCDEFGHIJKLMNOPQRSTUVWXYZabcdefghijklmnopqrstuvwxyz0123456789_" &&
  negb (contains "0123456789" (first pluginName)) &&
  negb (bool_decide (first pluginName = NUL)).

(** The characters of the C string, and the copy [strdup] makes of it. *)
Fixpoint text (str : string) : list ascii :=
  match str with
  | EmptyString => []
  | String x rest => if decide (x = NUL) then [] else x :: text rest
  end.

Fixpoint c_str (str : string) : string :=
  match str with
  | EmptyString => EmptyString
  | String x rest => if decide (x = NUL) then EmptyString else String x (c_str rest)
  end.

(** [strlen], stored in a [uint32_t]. *)
Definition strlen32 (str : string) : Z :=
  Z.of_nat (length (text str)) `mod` 2 ^ 32.

End CStringUtil.

(** ** The metadata handed to plugins and to the application
       (plugininfo.h, PluginInfoStd::toPluginInfo, PluginInfoStd::toString) *)

Module jp.

Module Dependency.
Record t : Type := mk { name : string; version : string }.
End Dependency.

(** [struct PluginInfo]; a [const char*] field is [None] when it is null. *)
Module PluginInfo.
Record t : Type := mk {
  name : option string;
  prettyName : option string;
  version : option string;
  author : option string;
  url : option string;
  license : option string;
  copyright : option string;
  dependenciesNb : Z;
  dependencies : list Dependency.t
}.

(** [PluginInfo()]: every pointer null and no dependency. *)
Definition null : t := mk None None None None None None None 0 [].
End PluginInfo.

End jp.

(** [PluginInfoStd::toPluginInfo]: every string copied as a C string, and
    the number of dependencies stored in an [int]. *)
Definition toPluginInfo (info : PluginInfoStd.t) : jp.PluginInfo.t :=
  jp.PluginInfo.mk
    (Some (CStringUtil.c_str (PluginInfoStd.name info)))
    (Some (CStringUtil.c_str (PluginInfoStd.prettyName info)))
    (Some (CStringUtil.c_str (PluginInfoStd.version info)))
    (Some (CStringUtil.c_str (PluginInfoStd.author info)))
    (Some (CStringUtil.c_str (PluginInfoStd.url info)))
    (Some (CStringUtil.c_str (PluginInfoStd.license info)))
    (Some (CStringUtil.c_str (PluginInfoStd.copyright info)))
    (to_int (Z.of_nat (length (PluginInfoStd.dependencies info))))
    ((λ dep, jp.Dependency.mk (CStringUtil.c_str (Dependency.name dep))
                              (CStringUtil.c_str (Dependency.version dep)))
       <$> PluginInfoStd.dependencies info).

Definition newline : string := String "010"%char EmptyString.

(** [PluginInfoStd::toString]. *)
Definition toString (info : PluginInfoStd.t) : string :=
  if decide (PluginInfoStd.name info = "") then "Invalid PluginInfo"
  else
    let str := "Plugin info:" +:+ newline in
    let str := str +:+ ("Name: " +:+ PluginInfoStd.name info +:+ newline) in
    let str := str +:+ ("Pretty name: " +:+ PluginInfoStd.prettyName info +:+ newline) in
    let str := str +:+ ("Version: " +:+ PluginInfoStd.version info +:+ newline) in
    let str := str +:+ ("Author: " +:+ PluginInfoStd.author info +:+ newline) in
    let str := str +:+ ("Url: " +:+ PluginInfoStd.url info +:+ newline) in
    let str := str +:+ ("License: " +:+ PluginInfoStd.license info +:+ newline) in
    let str := str +:+ ("Copyright: " +:+ PluginInfoStd.copyright info +:+ newline) in
    let str := str +:+ ("Dependencies:" +:+ newline) in
    fold_left
      (λ str dep, str +:+ (" - " +:+ Dependency.name dep +:+ " (" +:+
                           Dependency.version dep +:+ ")" +:+ newline))
      (PluginInfoStd.dependencies info) str.

(** ** The getters of the manager (PluginManager::pluginsCount,
       pluginsList, pluginsLocation, pluginObject, pluginInfo) *)

Definition pluginsCount (s : PlugMgrPrivate) : nat := length (pluginsMap s).

Definition pluginsList (s : PlugMgrPrivate) : list string := keys (pluginsMap s).

Definition pluginsLocation (s : PlugMgrPrivate) : list string := locations s.

Definition pluginObject (name : string) (s : PlugMgrPrivate) : option IPlugin :=
  if hasPlugin name s then find name (pluginsMap s) ≫= iplugin else None.

Definition pluginInfo (name : string) (s : PlugMgrPrivate) : jp.PluginInfo.t :=
  if hasPlugin name s then
    match find name (pluginsMap s) with
    | Some plugin => toPluginInfo (info plugin)
    | None => jp.PluginInfo.null
    end
  else jp.PluginInfo.null.

(** ** Requests of plugins to the manager (PlugMgrPrivate::handleRequest) *)

Module Request.

(** The request codes the manager answers; [Unlisted] stands for every
    other value of the [uint16_t]. *)
Inductive Code : Type :=
  | GET_APPDIRECTORY
  | GET_PLUGINAPI
  | GET_PLUGINSCOUNT
  | GET_PLUGININFO
  | GET_PLUGINVERSION
  | CHECK_PLUGIN
  | CHECK_PLUGINLOADED
  | Unlisted.

Inductive Result : Type :=
  | SUCCESS
  | DATASIZE_NULL
  | NOT_FOUND
  | RESULT_TRUE
  | RESULT_FALSE
  | UNKNOWN_REQUEST.

(** What [*data] points to when the manager has set it. *)
Inductive Data : Type :=
  | Text (s : string)
  | Count (n : nat)
  | Info (i : jp.PluginInfo.t).

#[global] Instance Result_eq_dec : EqDecision Result.
Proof. solve_decision. Defined.

End Request.

(** [handleRequest(sender, code, data, dataSize)]. [data] is [None] for a
    null [void**], [Some None] when it points to a null pointer and
    [Some (Some name)] when it points to a pointer to the C string [name];
    [dataSize] tells whether the [uint32_t*] is not null. The result is the
    code returned and, when the manager wrote them, the new [*data] and
    [*dataSize]. [appDirectory] is the directory of the executable
    ([fsutil::appDir]). *)
Definition handleRequest (appDirectory : string) (sender : string)
    (code : Request.Code) (data : option (option string)) (dataSize : bool)
    (s : PlugMgrPrivate)
    : outcome (Request.Result * option (Request.Data * Z)) :=
  if negb dataSize then Done (Request.DATASIZE_NULL, None)
  else
    match code with
    | Request.GET_APPDIRECTORY =>
        match data with
        | None => Undefined
        | Some _ =>
            Done (Request.SUCCESS,
                  Some (Request.Text (CStringUtil.c_str appDirectory),
                        CStringUtil.strlen32 appDirectory))
        end
    | Request.GET_PLUGINAPI =>
        match data with
        | None => Undefined
        | Some _ =>
            Done (Request.SUCCESS,
                  Some (Request.Text (CStringUtil.c_str JP_PLUGIN_API),
                        CStringUtil.strlen32 JP_PLUGIN_API))
        end
    | Request.GET_PLUGINSCOUNT =>
        match data with
        | None => Undefined
        | Some _ => Done (Request.SUCCESS, Some (Request.Count (pluginsCount s), 1))
        end
    | Request.GET_PLUGININFO =>
        match data with
        | None => Undefined
        | Some target =>
            let info := pluginInfo (default sender target) s in
            match jp.PluginInfo.name info with
            | None => Done (Request.NOT_FOUND, None)
            | Some _ => Done (Request.SUCCESS, Some (Request.Info info, 1))
            end
        end
    | Request.GET_PLUGINVERSION =>
        match data with
        | None => Undefined
        | Some target =>
            let info := pluginInfo (default sender target) s in
            match jp.PluginInfo.name info, jp.PluginInfo.version info with
            | None, _ => Done (Request.NOT_FOUND, None)
            | Some _, Some version =>
                Done (Request.SUCCESS,
                      Some (Request.Text (CStringUtil.c_str version),
                            CStringUtil.strlen32 version))
            | Some _, None => Undefined
            end
        end
    | Request.CHECK_PLUGIN =>
        match data with
        | Some (Some name) =>
            Done (if hasPlugin name s then Request.RESULT_TRUE
                  else Request.RESULT_FALSE, None)
        | _ => Undefined
        end
    | Request.CHECK_PLUGINLOADED =>
        match data with
        | Some (Some name) =>
            Done (if isPluginLoaded name s then Request.RESULT_TRUE
                  else Request.RESULT_FALSE, None)
        | _ => Undefined
        end
    | Request.Unlisted => Done (Request.UNKNOWN_REQUEST, None)
    end.

(** ** Targeted unload (PluginManager::unloadPlugin) *)

(** What a targeted unload leaves. When the library of a record refuses to
    close, the call answers [false] and the entry of the record stays in
    the map with a null pointer, which the registry of the model cannot
    hold: [NullLeft key s] names the key, and [s] is the manager without
    this entry. *)
Inductive Unloaded : Type :=
  | Answer (ok : bool) (s : PlugMgrPrivate)
  | NullLeft (key : string) (s : PlugMgrPrivate).

(** The list [dependentPlugins]: the key of a record once for each of its
    declared dependencies that names [pluginName], if its library is open. *)
Definition dependentPlugins (pluginName : string) (m : PluginsMap) : list string :=
  kp ← m;
  dep ← PluginInfoStd.dependencies (info kp.2);
  if bool_decide (Dependency.name dep = pluginName) && isLoaded (lib kp.2)
  then [kp.1] else [].

(** The loop over [dependentPlugins]; [unload] is the recursive call. *)
Fixpoint unloadDependents (unload : string → PlugMgrPrivate → outcome Unloaded)
    (names : list string) (s : PlugMgrPrivate) : outcome Unloaded :=
  match names with
  | [] => Done (Answer true s)
  | depName :: rest =>
      match unload depName s with
      | Done (Answer true s') => unloadDependents unload rest s'
      | r => r
      end
  end.

(** [PluginManager::unloadPlugin]. [plugin] is a reference to the entry
    found at the start; had a recursive call erased this entry, the
    reference would dangle. *)
Fixpoint unloadPlugin (fuel : nat) (pluginName : string) (s : PlugMgrPrivate)
    : outcome Unloaded :=
  match fuel with
  | O => OutOfFuel
  | S fuel' =>
      match find pluginName (pluginsMap s) with
      | None => Done (Answer false s)
      | Some plugin =>
          if negb (isLoaded (lib plugin)) then Done (Answer false s)
          else
            match unloadDependents (unloadPlugin fuel')
                    (dependentPlugins pluginName (pluginsMap s)) s with
            | Done (Answer true s1) =>
                match PlugMgrPrivate_unloadPlugin pluginName s1 with
                | Done (true, s2) => Done (Answer true (erasePlugin pluginName s2))
                | Done (false, s2) => Done (NullLeft pluginName (erasePlugin pluginName s2))
                | Undefined => Undefined
                | OutOfFuel => OutOfFuel
                end
            | r => r
            end
      end
  end.

(** [PluginManager::~PluginManager]. *)
Definition PluginManager_destructor (s : PlugMgrPrivate)
    : outcome PlugMgrPrivate :=
  match pluginsMap s with
  | [] => Done s
  | _ :: _ =>
      match unloadPlugins false s with
      | Done (_, s') => Done s'
      | Undefined => Undefined
      | OutOfFuel => OutOfFuel
      end
  end.

Section Facade.

Context `{host : Host}.

(** [PluginManager::hasPlugin(name, minVersion)]. *)
Definition hasPluginVersion (name minVersion : string) (s : PlugMgrPrivate)
    : bool :=
  hasPlugin name s &&
  match find name (pluginsMap s) with
  | Some plugin => Version_compatible (PluginInfoStd.version (info plugin)) minVersion
  | None => false
  end.

(** [PluginManager::loadPluginFromPath]. The name is read from the library
    without a test that the symbol is there, and neither the path nor the
    metadata of the new record is set. A record dropped here has no
    plugin object, so its destructor calls nothing. *)
Definition loadPluginFromPath (fuel : nat) (pluginPath : string)
    (s : PlugMgrPrivate) : outcome (bool * PlugMgrPrivate) :=
  match library_at pluginPath with
  | None => Done (false, s)
  | Some file =>
      match jp_name file with
      | None => Undefined
      | Some pluginName =>
          if match find pluginName (pluginsMap s) with
             | Some existing => isLoaded (lib existing)
             | None => false
             end
          then Done (true, s)
          else
            let plugin := set_lib (Some file) newPlugin in
            let s0 := with_pluginsMap (assign pluginName plugin (pluginsMap s)) s in
            match checkDependencies fuel false pluginName s0 with
            | Done (retCode, s1) =>
                if negb (succeeded retCode) then Done (false, s1)
                else
                  match PlugMgrPrivate_loadPlugin pluginName s1 with
                  | Done s2 => Done (true, s2)
                  | Undefined => Undefined
                  | OutOfFuel => OutOfFuel
                  end
            | Undefined => Undefined
            | OutOfFuel => OutOfFuel
            end
      end
  end.

(** ** The calls of an application *)

Inductive Call : Type :=
  | SearchForPlugins (pluginDir : string) (recursive cb : bool)
  | RegisterMainPlugin (pluginName : string)
  | LoadPlugins (tryToContinue cb : bool)
  | UnloadPlugins (cb : bool)
  | LoadPlugin (pluginName : string)
  | LoadPluginFromPath (pluginPath : string)
  | UnloadPlugin (pluginName : string).

(** The manager a call leaves when it returns; there is none when the call
    does not return, or leaves a null entry in the map. *)
Definition perform (fuel : nat) (call : Call) (s : PlugMgrPrivate)
    : option PlugMgrPrivate :=
  match call with
  | SearchForPlugins pluginDir recursive cb =>
      Some (searchForPlugins pluginDir recursive cb s).2
  | RegisterMainPlugin pluginName => Some (registerMainPlugin pluginName s).2
  | LoadPlugins tryToContinue cb =>
      match loadPlugins fuel tryToContinue cb s with
      | Done (_, s') => Some s'
      | _ => None
      end
  | UnloadPlugins cb =>
      match unloadPlugins cb s with
      | Done (_, s') => Some s'
      | _ => None
      end
  | LoadPlugin pluginName =>
      match loadPlugin fuel pluginName s with
      | Done (_, s') => Some s'
      | _ => None
      end
  | LoadPluginFromPath pluginPath =>
      match loadPluginFromPath fuel pluginPath s with
      | Done (_, s') => Some s'
      | _ => None
      end
  | UnloadPlugin pluginName =>
      match unloadPlugin fuel pluginName s with
      | Done (Answer _ s') => Some s'
      | _ => None
      end
  end.

(** The managers an application can get to from a manager, and from the
    new one, by calls that return and leave no null entry in the map. *)
Inductive follows (s : PlugMgrPrivate) : PlugMgrPrivate → Prop :=
  | follows_here : follows s s
  | follows_call fuel call s1 s2 :
      follows s s1 → perform fuel call s1 = Some s2 → follows s s2.

Definition reachable : PlugMgrPrivate → Prop := follows emptyManager.

End Facade.

(** ** Predicates of the further properties *)

Module NameSpec.

Definition code (c : ascii) : nat := Ascii.nat_of_ascii c.

Definition isLetter (c : ascii) : bool :=
  bool_decide (65 ≤ code c ≤ 90)%nat || bool_decide (97 ≤ code c ≤ 122)%nat.

Definition isDigit (c : ascii) : bool := bool_decide (48 ≤ code c ≤ 57)%nat.

Definition isUnderscore (c : ascii) : bool := bool_decide (code c = 95%nat).

(** The characters of an identifier of C: a letter or an underscore, and
    then letters, digits and underscores. *)
Definition identifier (chars : list ascii) : Prop :=
  match chars with
  | [] => False
  | c :: rest =>
      isLetter c || isUnderscore c = true ∧
      Forall (λ x, isLetter x || isDigit x || isUnderscore x = true) rest
  end.

End NameSpec.

Module FacadeSpec.
Import ManagerSpec.

(** The manager a targeted unload leaves. *)
Definition managerOf (r : Unloaded) : PlugMgrPrivate :=
  match r with
  | Answer _ s => s
  | NullLeft _ s => s
  end.

(** The record under [a] has an open library and declares [b] as a
    dependency. *)
Definition declares (m : PluginsMap) (a b : string) : Prop :=
  ∃ p, find a m = Some p ∧ isLoaded (lib p) = true ∧ b ∈ dependencyNames p.

(** What targeted unloads do to a manager: the records [removed] are
    taken from the registry, in this order, and no other record is
    changed; no record that stays declares a record that was removed; a
    record is removed before every record it declares; and
    [aboutToBeUnloaded()] is called on the plugin objects of the removed
    records, in the order of their removal. *)
Definition unloadedTo (s s' : PlugMgrPrivate) (removed : list string) : Prop :=
  uniqueKeys s' ∧
  locations s' = locations s ∧
  loadOrderList s' = loadOrderList s ∧
  mainPluginName s' = mainPluginName s ∧
  (∀ k q, find k (pluginsMap s') = Some q ↔
          find k (pluginsMap s) = Some q ∧ k ∉ removed) ∧
  NoDup removed ∧
  (∀ k, k ∈ removed → k ∈ keys (pluginsMap s)) ∧
  (∀ k, k ∈ removed → ∀ k1, ¬ declares (pluginsMap s') k1 k) ∧
  (∀ (i j : nat) k1 k2, removed !! i = Some k1 → removed !! j = Some k2 →
        declares (pluginsMap s) k1 k2 → (i < j)%nat) ∧
  trace s' =
    trace s ++
    (AboutToBeUnloaded <$> filter (λ k, holdsObject (pluginsMap s) k) removed).

(** Every record of the registry has an open library. *)
Definition allOpen (s : PlugMgrPrivate) : Prop :=
  ∀ k p, find k (pluginsMap s) = Some p → isLoaded (lib p) = true.

(** The invariant of the managers an application can get to. *)
Definition wellFormed (s : PlugMgrPrivate) : Prop :=
  uniqueKeys s ∧ allOpen s ∧ NoDup (locations s).

(** The record a search makes of the library file at [libPath]. *)
Definition discoveredRecord `{host : Host} (libPath : string)
    (file : LibraryFile) (metadata : string) : Plugin :=
  mkPlugin libPath (Some file) (parseMetadata metadata) indeterminate (-1)
           None false.

(** The dependency flag of the record under a key. *)
Definition flagOf (s : PlugMgrPrivate) (k : string) : option tribool :=
  dependenciesExists <$> find k (pluginsMap s).

(** The record under [a] declares [b] as a dependency. *)
Definition dependsOn (m : PluginsMap) (a b : string) : Prop :=
  ∃ p, find a m = Some p ∧ b ∈ dependencyNames p.

(** The keys [l] are listed so that every dependency that a record of the
    list declares is listed after the record, is registered and has a
    version that is compatible with the one asked for. *)
Fixpoint groundedBy `{host : Host} (l : list string) (m : PluginsMap) : Prop :=
  match l with
  | [] => True
  | k :: older =>
      (∀ p dep, find k m = Some p →
         dep ∈ PluginInfoStd.dependencies (info p) →
         Dependency.name dep ∈ older ∧
         ∃ pd, find (Dependency.name dep) m = Some pd ∧
               Version_compatible (PluginInfoStd.version (info pd))
                                  (Dependency.version dep) = true) ∧
      groundedBy older m
  end.

(** The dependency flags of a manager are grounded by [l]: [l] is such a
    list of registered keys, among them every key whose flag is yes. *)
Definition groundedWith `{host : Host} (l : list string) (s : PlugMgrPrivate)
    : Prop :=
  (∀ k p, find k (pluginsMap s) = Some p → dependenciesExists p = tri_true →
          k ∈ l) ∧
  (∀ k, k ∈ l → k ∈ keys (pluginsMap s)) ∧
  groundedBy l (pluginsMap s).

Definition grounded `{host : Host} (s : PlugMgrPrivate) : Prop :=
  ∃ l, groundedWith l s.

(** The plugin objects that [pluginObject] gives for the dependencies that
    the record under [P] declares, and the main plugin flag of the record. *)
Definition dependencyObjectsOf (s : PlugMgrPrivate) (P : string)
    : list (option IPlugin) :=
  match find P (pluginsMap s) with
  | Some p => (λ D, pluginObject D s) <$> dependencyNames p
  | None => []
  end.

Definition isMainPluginOf (s : PlugMgrPrivate) (P : string) : bool :=
  match find P (pluginsMap s) with
  | Some p => isMainPlugin p
  | None => false
  end.

(** The value of [f] on the record under each key. *)
Definition fields {A} (f : Plugin → A) (m : PluginsMap) : list (string * A) :=
  prod_map id f <$> m.

Definition isCallback (e : Event) : Prop :=
  match e with
  | Callback _ _ => True
  | _ => False
  end.

(** The calls of factories: the key of the record, the plugin objects of
    the dependencies handed over, and the main plugin flag. *)
Definition createdCalls (events : list Event)
    : list (string * list (option IPlugin) * bool) :=
  omap (λ e, match e with
             | Created key depPlugins isMain => Some (key, depPlugins, isMain)
             | _ => None
             end) events.

(** No record has its dependency flag at no. *)
Definition noFailedCheck (s : PlugMgrPrivate) : Prop :=
  ∀ k p, find k (pluginsMap s) = Some p → dependenciesExists p ≠ tri_false.

(** Every dependency that a record declares is registered, in a version
    compatible with the one asked for. *)
Definition dependenciesMet `{host : Host} (s : PlugMgrPrivate) : Prop :=
  ∀ k p dep, find k (pluginsMap s) = Some p →
    dep ∈ PluginInfoStd.dependencies (info p) →
    hasPluginVersion (Dependency.name dep) (Dependency.version dep) s = true.

(** Both at once, record by record, as the proofs use them. *)
Definition clearOfFailures `{host : Host} (s : PlugMgrPrivate) : Prop :=
  ∀ k p, find k (pluginsMap s) = Some p →
    dependenciesExists p ≠ tri_false ∧
    ∀ dep, dep ∈ PluginInfoStd.dependencies (info p) →
      ∃ pd, find (Dependency.name dep) (pluginsMap s) = Some pd ∧
            Version_compatible (PluginInfoStd.version (info pd))
                               (Dependency.version dep) = true.


(** From [s] to [s'] nothing was called but the callback. *)
Definition callbacksOnly (s s' : PlugMgrPrivate) : Prop :=
  ∃ events, trace s' = trace s ++ events ∧ Forall isCallback events.

End FacadeSpec.

(** ** Further example managers *)

Module Scenes.
Import Json.

(** A node list without a cycle: [B] has the parent [A]. *)
Definition chain : Graph.NodeList :=
  [Graph.mkNode "B" [1] Graph.UNMARKED; Graph.mkNode "A" [] Graph.UNMARKED].

(** A directory with two plugins that depend on each other, and a third
    one without a dependency. *)
Definition ringParse (buffer : string) : option json :=
  if decide (buffer = "metadata of X") then
    Some (Demo.metadata "1.0.0" "X" "1.0.0" [("Y", "1.0.0")])
  else if decide (buffer = "metadata of Y") then
    Some (Demo.metadata "1.0.0" "Y" "1.0.0" [("X", "1.0.0")])
  else if decide (buffer = "metadata of W") then
    Some (Demo.metadata "1.0.0" "W" "1.0.0" [])
  else None.

Definition ringLibrary (path : string) : option LibraryFile :=
  if decide (path = "ring/libX.so") then
    Some (Demo.pluginFile "X" "metadata of X")
  else if decide (path = "ring/libY.so") then
    Some (Demo.pluginFile "Y" "metadata of Y")
  else if decide (path = "ring/libW.so") then
    Some (Demo.pluginFile "W" "metadata of W")
  else None.

Definition ringListing (dir : string) (recursive : bool) : bool * list string :=
  if decide (dir = "ring") then
    (true, ["ring/libX.so"; "ring/libY.so"; "ring/libW.so"])
  else (false, []).

Definition ring : Host :=
  {| Version_compatible := Version.compatible;
     json_parse := ringParse;
     library_at := ringLibrary;
     listLibrariesInDir := ringListing |}.

Definition ringDiscovered : PlugMgrPrivate :=
  (searchForPlugins (host := ring) "ring" false true emptyManager).2.

(** The manager a targeted unload leaves, or the manager itself when the
    unload does not return. *)
Definition afterUnload (fuel : nat) (name : string) (s : PlugMgrPrivate)
    : PlugMgrPrivate :=
  match unloadPlugin fuel name s with
  | Done r => FacadeSpec.managerOf r
  | _ => s
  end.

(** The managers of [Demo] with [B] as the main plugin: after its
    registration, and after the unload that follows the load. *)
Definition registered : PlugMgrPrivate :=
  (registerMainPlugin "B" Demo.discovered).2.

Definition unloadedWithMain : PlugMgrPrivate :=
  Demo.stateOf (unloadPlugins true Demo.loadedWithMain) Demo.loadedWithMain.

(** The manager after a load that goes on after the failed check of [C]. *)
Definition continued : PlugMgrPrivate :=
  Demo.stateOf (loadPlugins (host := Demo.host) 4 true true Demo.stoppedOnce)
               Demo.stoppedOnce.

(** The manager after [loadPluginFromPath] on the library of [A] in a new
    manager. *)
Definition loadedFromPath : PlugMgrPrivate :=
  Demo.stateOf
    (loadPluginFromPath (host := Demo.host) 1 "plugins/libA.so" emptyManager)
    emptyManager.


(** A directory with one plugin whose metadata holds null where the
    schema asks for the array of the dependencies. *)
Definition nullDependencies : json :=
  JObject
    [("api", JString "1.0.0"); ("name", JString "N");
     ("prettyName", JString "N"); ("version", JString "1.0.0");
     ("author", JString "somebody"); ("url", JString "nowhere");
     ("license", JString "MIT"); ("copyright", JString "somebody");
     ("dependencies", JNull)].

Definition lenient : Host :=
  {| Version_compatible := Version.compatible;
     json_parse := λ buffer,
       if decide (buffer = "metadata of N") then Some nullDependencies
       else None;
     library_at := λ path,
       if decide (path = "odd/libN.so") then
         Some (Demo.pluginFile "N" "metadata of N")
       else None;
     listLibrariesInDir := λ dir recursive,
       if decide (dir = "odd") then (true, ["odd/libN.so"]) else (false, []) |}.

End Scenes.

(** * Properties *)

Module GraphFacts.
Import Graph GraphSpec.

Lemma advances_refl nl : advances nl nl.
Proof. apply Forall_Forall2_diag, Forall_forall. auto. Qed.

Lemma advances_trans nl1 nl2 nl3 :
  advances nl1 nl2 → advances nl2 nl3 → advances nl1 nl3.
Proof.
  unfold advances. intros H12. revert nl3.
  induction H12 as [|a b l k Hab _ IH]; intros nl3 H23.
  - by inversion H23.
  - inversion H23 as [|b' c k' m Hbc Hkm]; subst.
    constructor; [|by apply IH].
    destruct Hab as (Hn & Hp & Hf), Hbc as (Hn' & Hp' & Hf').
    split_and!; [congruence | congruence |].
    destruct Hf as [Hf | [Hf1 Hf2]], Hf' as [Hf' | [Hf1' Hf2']];
      try (left; congruence); try (right; split; congruence).
Qed.

Lemma advances_length nl nl' : advances nl nl' → length nl' = length nl.
Proof. intros H. symmetry. by eapply Forall2_length. Qed.

Lemma advances_lookup nl nl' i n :
  advances nl nl' → nl !! i = Some n →
  ∃ n', nl' !! i = Some n' ∧ name n' = name n ∧ parentNodes n' = parentNodes n ∧
        (flag n' = flag n ∨ (flag n = UNMARKED ∧ flag n' = MARK_PERMANENT)).
Proof.
  intros H Hn. destruct (Forall2_lookup_l _ _ _ _ _ H Hn) as (n' & Hn' & HR).
  eauto.
Qed.

Lemma advances_lookup_r nl nl' i n' :
  advances nl nl' → nl' !! i = Some n' →
  ∃ n, nl !! i = Some n ∧ name n' = name n ∧ parentNodes n' = parentNodes n ∧
       (flag n' = flag n ∨ (flag n = UNMARKED ∧ flag n' = MARK_PERMANENT)).
Proof.
  intros H Hn. destruct (Forall2_lookup_r _ _ _ _ _ H Hn) as (n & Hn' & HR).
  eauto.
Qed.

(** Marking a node for the time of its visit and permanently after it
    amounts to one step from unmarked to permanent. *)
Lemma advances_bracket nl nl2 i node :
  nl !! i = Some node → flag node = UNMARKED →
  advances (alter (setFlag MARK_TEMP) i nl) nl2 →
  advances nl (alter (setFlag MARK_PERMANENT) i nl2).
Proof.
  intros Hi Hflag Hadv.
  pose proof (advances_length _ _ Hadv) as Hlen. rewrite length_alter in Hlen.
  apply Forall2_same_length_lookup. split.
  { by rewrite length_alter. }
  intros j x y Hx Hy.
  destruct (decide (i = j)) as [<-|Hne].
  - rewrite list_lookup_alter_eq in Hy.
    destruct (nl2 !! i) as [n2|] eqn:Hn2; [|done]. simplify_eq/=.
    destruct (advances_lookup_r _ _ _ _ Hadv Hn2) as (n1 & Hn1 & Hname & Hpar & _).
    rewrite list_lookup_alter_eq, Hi in Hn1. simplify_eq/=.
    split_and!; [done | done | by right].
  - rewrite list_lookup_alter_ne in Hy by done.
    destruct (advances_lookup_r _ _ _ _ Hadv Hy) as (n1 & Hn1 & HR).
    rewrite list_lookup_alter_ne, Hx in Hn1 by done. by simplify_eq.
Qed.

Section visit.
Variable visit : nat → NodeList → NodeNamesList → VisitResult.
Hypothesis visit_advances : ∀ i nl out nl' out',
  visit i nl out = Done (true, nl', out') → advances nl nl'.

Lemma visitParents_advances parents nl out nl' out' :
  visitParents visit parents nl out = Done (true, nl', out') →
  advances nl nl'.
Proof using visit_advances.
  revert nl out. induction parents as [|p ps IH]; intros nl out H; simpl in H.
  - simplify_eq. apply advances_refl.
  - destruct (nodeIndex nl p) as [i|]; [|done].
    destruct (visit i nl out) as [[[[] nl1] out1]| |] eqn:Hv; try done.
    eapply advances_trans; [by eapply visit_advances | by eapply IH].
Qed.
End visit.

Lemma visitNode_advances fuel : ∀ i nl out nl' out',
  visitNode fuel i nl out = Done (true, nl', out') → advances nl nl'.
Proof.
  induction fuel as [|fuel IH]; intros i nl out nl' out' H; [done|].
  simpl in H. destruct (nl !! i) as [node|] eqn:Hi; [|done].
  destruct (flag node) eqn:Hflag.
  - destruct (visitParents _ _ _ _) as [[[[] nl2] out2]| |] eqn:Hps; try done.
    simplify_eq. eapply advances_bracket; [done..|].
    by eapply visitParents_advances.
  - done.
  - simplify_eq. apply advances_refl.
Qed.

(** *** The fuel of [topologicalSort] is enough *)

Lemma unmarkedCount_cons n nl :
  unmarkedCount (n :: nl) =
  ((if decide (flag n = UNMARKED) then 1 else 0) + unmarkedCount nl)%nat.
Proof.
  unfold unmarkedCount. rewrite filter_cons. by case_decide.
Qed.

Lemma advances_unmarkedCount nl nl' :
  advances nl nl' → (unmarkedCount nl' ≤ unmarkedCount nl)%nat.
Proof.
  induction 1 as [|n n' l l' (_ & _ & Hf) _ IH]; [done|].
  rewrite !unmarkedCount_cons.
  destruct Hf as [Hf | [Hf1 Hf2]]; repeat case_decide; try congruence; lia.
Qed.

Lemma unmarkedCount_mark nl i node :
  nl !! i = Some node → flag node = UNMARKED →
  (unmarkedCount (alter (setFlag MARK_TEMP) i nl) < unmarkedCount nl)%nat.
Proof.
  revert i. induction nl as [|n nl IH]; intros [|i] Hi Hflag; simplify_eq/=.
  - rewrite !unmarkedCount_cons. simpl. rewrite Hflag.
    repeat case_decide; try done. lia.
  - rewrite !unmarkedCount_cons. specialize (IH i Hi Hflag).
    change (list_alter (setFlag MARK_TEMP) i nl)
      with (alter (setFlag MARK_TEMP) i nl). lia.
Qed.

Lemma visitNode_fuel fuel : ∀ i nl out,
  (unmarkedCount nl < fuel)%nat → visitNode fuel i nl out ≠ OutOfFuel.
Proof.
  induction fuel as [|fuel IH]; intros i nl out Hfuel; [lia|].
  simpl. destruct (nl !! i) as [node|] eqn:Hi; [|done].
  destruct (flag node) eqn:Hflag; [|done..].
  pose proof (unmarkedCount_mark _ _ _ Hi Hflag) as Hlt.
  assert (∀ ps nl1 out1, (unmarkedCount nl1 < fuel)%nat →
            visitParents (visitNode fuel) ps nl1 out1 ≠ OutOfFuel) as Hloop.
  { induction ps as [|p ps IHps]; intros nl1 out1 Hn1; simpl; [done|].
    destruct (nodeIndex nl1 p) as [j|]; [|done].
    destruct (visitNode fuel j nl1 out1) as [[[[] nl2] out2]| |] eqn:Hv;
      try done.
    - apply IHps. apply visitNode_advances, advances_unmarkedCount in Hv. lia.
    - by apply IH in Hv. }
  specialize (Hloop (parentNodes node) (alter (setFlag MARK_TEMP) i nl) out).
  destruct (visitParents _ _ _ _) as [[[[] nl2] out2]| |]; try done.
  apply Hloop. lia.
Qed.

(** *** Indices in range keep the search defined *)

Lemma parentsInRange_lookup nl i node p :
  parentsInRange nl → nl !! i = Some node → p ∈ parentNodes node →
  0 ≤ p < Z.of_nat (length nl).
Proof.
  intros Hr Hi Hp. unfold parentsInRange in Hr.
  rewrite Forall_forall in Hr. apply list_elem_of_lookup_2 in Hi.
  specialize (Hr _ Hi). rewrite Forall_forall in Hr. auto.
Qed.

Lemma parentsInRange_same nl nl' :
  length nl' = length nl →
  (∀ i n', nl' !! i = Some n' →
     ∃ n, nl !! i = Some n ∧ parentNodes n' = parentNodes n) →
  parentsInRange nl → parentsInRange nl'.
Proof.
  intros Hlen Hsame Hr. unfold parentsInRange. apply Forall_forall.
  intros n' Hn'. apply list_elem_of_lookup_1 in Hn' as [i Hi].
  destruct (Hsame _ _ Hi) as (n & Hn & ->). rewrite Hlen.
  apply Forall_forall. intros p Hp. by eapply parentsInRange_lookup.
Qed.

Lemma parentsInRange_advances nl nl' :
  advances nl nl' → parentsInRange nl → parentsInRange nl'.
Proof.
  intros Hadv. apply parentsInRange_same; [by apply advances_length|].
  intros i n' Hi. destruct (advances_lookup_r _ _ _ _ Hadv Hi) as (n & ? & _ & ? & _).
  eauto.
Qed.

Lemma parentsInRange_setFlag f i nl :
  parentsInRange nl → parentsInRange (alter (setFlag f) i nl).
Proof.
  apply parentsInRange_same; [by rewrite length_alter|].
  intros j n' Hj. destruct (decide (i = j)) as [<-|Hne].
  - rewrite list_lookup_alter_eq in Hj.
    destruct (nl !! i) as [n|]; simplify_eq/=. eauto.
  - rewrite list_lookup_alter_ne in Hj by done. eauto.
Qed.

Lemma nodeIndex_Some nl p :
  0 ≤ p < Z.of_nat (length nl) →
  nodeIndex nl p = Some (Z.to_nat p) ∧ (Z.to_nat p < length nl)%nat.
Proof. intros Hp. unfold nodeIndex. rewrite decide_True by done. split; [done|lia]. Qed.

Lemma visitNode_defined fuel : ∀ i nl out,
  parentsInRange nl → (i < length nl)%nat →
  visitNode fuel i nl out ≠ Undefined.
Proof.
  induction fuel as [|fuel IH]; intros i nl out Hr Hi; [done|].
  simpl. destruct (lookup_lt_is_Some_2 _ _ Hi) as [node Hnode]. rewrite Hnode.
  destruct (flag node) eqn:Hflag; [|done..].
  assert (∀ ps nl1 out1, parentsInRange nl1 →
            Forall (λ p, 0 ≤ p < Z.of_nat (length nl1)) ps →
            visitParents (visitNode fuel) ps nl1 out1 ≠ Undefined) as Hloop.
  { induction ps as [|p ps IHps]; intros nl1 out1 Hr1 Hps; simpl; [done|].
    apply Forall_cons in Hps as [Hp Hps].
    destruct (nodeIndex_Some _ _ Hp) as [-> Hlt].
    destruct (visitNode fuel (Z.to_nat p) nl1 out1) as [[[[] nl2] out2]| |] eqn:Hv;
      try done.
    - pose proof (visitNode_advances _ _ _ _ _ _ Hv) as Hadv.
      apply IHps; [by eapply parentsInRange_advances|].
      by rewrite (advances_length _ _ Hadv).
    - by apply IH in Hv. }
  specialize (Hloop (parentNodes node) (alter (setFlag MARK_TEMP) i nl) out).
  destruct (visitParents _ _ _ _) as [[[[] nl2] out2]| |]; try done.
  apply Hloop; [by apply parentsInRange_setFlag|].
  rewrite length_alter. apply Forall_forall. intros p Hp.
  by eapply parentsInRange_lookup.
Qed.

(** *** A successful search lists parents first *)

Lemma sortedSoFar_same (nl nl' : NodeList) out ids :
  (∀ j, name <$> nl' !! j = name <$> nl !! j) →
  (∀ j, parentNodes <$> nl' !! j = parentNodes <$> nl !! j) →
  (∀ j, flag <$> nl' !! j = Some MARK_PERMANENT ↔
        flag <$> nl !! j = Some MARK_PERMANENT) →
  sortedSoFar nl out ids → sortedSoFar nl' out ids.
Proof.
  intros Hname Hpar Hperm (Hout & Hnd & Hin & Hpp). split_and!.
  - eapply Forall2_impl; [done|]. intros j n Hj. by rewrite Hname.
  - done.
  - intros j. by rewrite Hin, Hperm.
  - intros k j node' p Hk Hj Hp.
    specialize (Hpar j). rewrite Hj in Hpar.
    destruct (nl !! j) as [node|] eqn:Hnode; simplify_eq/=.
    eapply Hpp; [done..|]. by rewrite <- Hpar.
Qed.

Lemma lookup_setFlag f (i : nat) (nl : NodeList) (j : nat) :
  (name <$> alter (setFlag f) i nl !! j = name <$> nl !! j) ∧
  (parentNodes <$> alter (setFlag f) i nl !! j = parentNodes <$> nl !! j) ∧
  (i ≠ j → flag <$> alter (setFlag f) i nl !! j = flag <$> nl !! j).
Proof.
  destruct (decide (i = j)) as [<-|Hne].
  - rewrite list_lookup_alter_eq. by destruct (nl !! i).
  - by rewrite list_lookup_alter_ne.
Qed.

Lemma sortedSoFar_mark nl out ids i node :
  nl !! i = Some node → flag node = UNMARKED →
  sortedSoFar nl out ids → sortedSoFar (alter (setFlag MARK_TEMP) i nl) out ids.
Proof.
  intros Hi Hflag. apply sortedSoFar_same; intros j.
  - apply lookup_setFlag.
  - apply lookup_setFlag.
  - destruct (decide (i = j)) as [<-|Hne].
    + rewrite list_lookup_alter_eq, Hi. simpl. rewrite Hflag. naive_solver.
    + by rewrite (proj2 (proj2 (lookup_setFlag _ _ _ _))).
Qed.

Lemma advances_permanent nl nl' (j : nat) :
  advances nl nl' → flag <$> nl !! j = Some MARK_PERMANENT →
  flag <$> nl' !! j = Some MARK_PERMANENT.
Proof.
  intros Hadv Hj. destruct (nl !! j) as [n|] eqn:Hn; simplify_eq/=.
  destruct (advances_lookup _ _ _ _ Hadv Hn) as (n' & -> & _ & _ & Hf).
  simpl. f_equal. destruct Hf as [?|[? _]]; congruence.
Qed.

(** The step that ends the visit of node [i]: its parents are listed, and
    it is listed after them. *)
Lemma sortedSoFar_finish nl2 out2 ids2 i n2 :
  nl2 !! i = Some n2 → flag n2 = MARK_TEMP →
  (∀ p, p ∈ parentNodes n2 →
     0 ≤ p ∧ flag <$> nl2 !! Z.to_nat p = Some MARK_PERMANENT) →
  sortedSoFar nl2 out2 ids2 →
  sortedSoFar (alter (setFlag MARK_PERMANENT) i nl2) (out2 ++ [name n2])
              (ids2 ++ [i]).
Proof.
  intros Hi Hflag Hparents (Hout & Hnd & Hin & Hpp).
  assert (i ∉ ids2) as Hfresh.
  { rewrite Hin, Hi. simpl. congruence. }
  split_and!.
  - apply Forall2_app.
    + eapply Forall2_impl; [done|]. intros j n Hj.
      by rewrite (proj1 (lookup_setFlag _ _ _ _)).
    + constructor; [|constructor].
      by rewrite (proj1 (lookup_setFlag _ _ _ _)), Hi.
  - apply NoDup_app. split_and!; [done| |apply NoDup_singleton].
    intros j Hj ->%list_elem_of_singleton. done.
  - intros j. rewrite elem_of_app, list_elem_of_singleton.
    destruct (decide (i = j)) as [<-|Hne].
    + rewrite list_lookup_alter_eq, Hi. naive_solver.
    + rewrite (proj2 (proj2 (lookup_setFlag _ _ _ _))) by done.
      rewrite Hin. naive_solver.
  - intros k j node p Hk Hj Hp.
    apply lookup_snoc_Some in Hk as [[Hlt Hk]|[-> <-]].
    + assert (i ≠ j) as Hne.
      { intros <-. apply Hfresh. by eapply list_elem_of_lookup_2. }
      rewrite list_lookup_alter_ne in Hj by done.
      destruct (Hpp _ _ _ _ Hk Hj Hp) as (Hp0 & k' & Hk' & Hlook).
      split; [done|]. exists k'. split; [done|].
      by apply lookup_app_l_Some.
    + rewrite list_lookup_alter_eq, Hi in Hj. simplify_eq/=.
      destruct (Hparents _ Hp) as [Hp0 Hperm]. split; [done|].
      apply Hin, list_elem_of_lookup_1 in Hperm as [k' Hk'].
      exists k'. split; [by eapply lookup_lt_Some|].
      by apply lookup_app_l_Some.
Qed.

Lemma visitNode_sorted fuel : ∀ i nl out nl' out' ids,
  visitNode fuel i nl out = Done (true, nl', out') →
  sortedSoFar nl out ids →
  ∃ ids', sortedSoFar nl' out' ids' ∧
          flag <$> nl' !! i = Some MARK_PERMANENT.
Proof.
  induction fuel as [|fuel IH]; intros i nl out nl' out' ids H Hinv; [done|].
  simpl in H. destruct (nl !! i) as [node|] eqn:Hi; [|done].
  destruct (flag node) eqn:Hflag; [|done|].
  2:{ simplify_eq. exists ids. split; [done|]. by rewrite Hi; simpl; f_equal. }
  assert (∀ ps nl1 out1 ids1 nl2 out2,
            visitParents (visitNode fuel) ps nl1 out1 = Done (true, nl2, out2) →
            sortedSoFar nl1 out1 ids1 →
            ∃ ids2, sortedSoFar nl2 out2 ids2 ∧
              ∀ p, p ∈ ps →
                0 ≤ p ∧ flag <$> nl2 !! Z.to_nat p = Some MARK_PERMANENT)
    as Hloop.
  { induction ps as [|p ps IHps]; intros nl1 out1 ids1 nl2 out2 Hps Hinv1;
      simpl in Hps.
    - simplify_eq. exists ids1. split; [done|]. by intros p ?%elem_of_nil.
    - unfold nodeIndex in Hps. case_decide as Hp; [|done].
      destruct (visitNode fuel (Z.to_nat p) nl1 out1)
        as [[[[] nl1'] out1']| |] eqn:Hv; try done.
      destruct (IH _ _ _ _ _ _ Hv Hinv1) as (ids1' & Hinv1' & Hperm).
      destruct (IHps _ _ _ _ _ Hps Hinv1') as (ids2 & Hinv2 & Hrest).
      exists ids2. split; [done|].
      intros q [->|Hq]%elem_of_cons; [|by apply Hrest].
      split; [lia|]. eapply advances_permanent; [|done].
      by eapply visitParents_advances; [apply visitNode_advances|]. }
  destruct (visitParents _ _ _ _) as [[[[] nl2] out2]| |] eqn:Hps; try done.
  simplify_eq.
  destruct (Hloop _ _ _ _ _ _ Hps (sortedSoFar_mark _ _ _ _ _ Hi Hflag Hinv))
    as (ids2 & Hinv2 & Hparents).
  pose proof (visitParents_advances _ (visitNode_advances fuel) _ _ _ _ _ Hps)
    as Hadv.
  assert (alter (setFlag MARK_TEMP) i nl !! i = Some (setFlag MARK_TEMP node))
    as Htemp by (by rewrite list_lookup_alter_eq, Hi).
  destruct (advances_lookup _ _ _ _ Hadv Htemp) as (n2 & Hn2 & Hname & Hpar & Hf).
  simpl in Hname, Hpar, Hf.
  assert (flag n2 = MARK_TEMP) as Hf2 by (destruct Hf as [?|[? _]]; congruence).
  exists (ids2 ++ [i]). rewrite <- Hname. split.
  - apply sortedSoFar_finish; [done..| |done]. by rewrite Hpar.
  - by rewrite list_lookup_alter_eq, Hn2.
Qed.

Lemma advances_marked nl nl' (j : nat) n :
  advances nl nl' → nl !! j = Some n → flag n ≠ UNMARKED →
  ∃ n', nl' !! j = Some n' ∧ flag n' ≠ UNMARKED.
Proof.
  intros Hadv Hn Hf.
  destruct (advances_lookup _ _ _ _ Hadv Hn) as (n' & Hn' & _ & _ & Hf').
  exists n'. split; [done|]. destruct Hf' as [?|[? _]]; congruence.
Qed.

Lemma sortLoop_sorted fuel : ∀ todo nl out ids names nl',
  sortLoop fuel todo nl out = Done (false, names, nl') →
  sortedSoFar nl out ids →
  ∃ ids', sortedSoFar nl' names ids' ∧ advances nl nl' ∧
          ∀ i, i ∈ todo → ∃ n', nl' !! i = Some n' ∧ flag n' ≠ UNMARKED.
Proof.
  induction todo as [|i todo IH]; intros nl out ids names nl' H Hinv;
    simpl in H.
  - simplify_eq. exists ids. split_and!; [done|apply advances_refl|].
    by intros i ?%elem_of_nil.
  - destruct (nl !! i) as [node|] eqn:Hi; [|done].
    destruct (flag node) eqn:Hflag.
    + destruct (visitNode fuel i nl out) as [[[[] nl1] out1]| |] eqn:Hv;
        try done.
      destruct (visitNode_sorted _ _ _ _ _ _ _ Hv Hinv) as (ids1 & Hinv1 & Hperm).
      pose proof (visitNode_advances _ _ _ _ _ _ Hv) as Hadv1.
      destruct (IH _ _ _ _ _ H Hinv1) as (ids' & Hinv' & Hadv' & Hrest).
      exists ids'. split_and!; [done|by eapply advances_trans|].
      intros j [->|Hj]%elem_of_cons; [|by apply Hrest].
      destruct (nl1 !! i) as [n1|] eqn:Hn1; simplify_eq/=.
      eapply advances_marked; [done..|congruence].
    + destruct (IH _ _ _ _ _ H Hinv) as (ids' & Hinv' & Hadv' & Hrest).
      exists ids'. split_and!; [done..|].
      intros j [->|Hj]%elem_of_cons; [|by apply Hrest].
      eapply advances_marked; [done..|congruence].
    + destruct (IH _ _ _ _ _ H Hinv) as (ids' & Hinv' & Hadv' & Hrest).
      exists ids'. split_and!; [done..|].
      intros j [->|Hj]%elem_of_cons; [|by apply Hrest].
      eapply advances_marked; [done..|congruence].
Qed.

Lemma unmarkedCount_le nl : (unmarkedCount nl ≤ length nl)%nat.
Proof. apply length_filter. Qed.

Lemma sortLoop_returns fuel : ∀ todo nl out,
  parentsInRange nl → (length nl < fuel)%nat →
  Forall (λ i, (i < length nl)%nat) todo →
  ∃ error names nl',
    sortLoop fuel todo nl out = Done (error, names, nl') ∧
    (error = true → names = []).
Proof.
  induction todo as [|i todo IH]; intros nl out Hr Hfuel Htodo; simpl.
  - by eexists false, out, nl.
  - apply Forall_cons in Htodo as [Hi Htodo].
    destruct (lookup_lt_is_Some_2 _ _ Hi) as [node ->].
    destruct (flag node); [|by apply IH..].
    pose proof (visitNode_fuel fuel i nl out) as Hfu.
    pose proof (visitNode_defined fuel i nl out Hr Hi) as Hdef.
    destruct (visitNode fuel i nl out) as [[[[] nl1] out1]| |] eqn:Hv.
    + pose proof (visitNode_advances _ _ _ _ _ _ Hv) as Hadv.
      pose proof (advances_length _ _ Hadv) as Hlen.
      apply IH; [by eapply parentsInRange_advances|lia|by rewrite Hlen].
    + by eexists true, [], nl1.
    + done.
    + exfalso. apply Hfu; [|done]. pose proof (unmarkedCount_le nl). lia.
Qed.

(** [topologicalSort] returns, with a list that is empty when it reports
    an error. *)
Lemma topologicalSort_returns nl :
  parentsInRange nl →
  ∃ error names nl',
    topologicalSort nl = Done (error, names, nl') ∧
    (error = true → names = []).
Proof.
  intros Hr. apply sortLoop_returns; [done|lia|].
  apply Forall_forall. intros i Hi%elem_of_seq. lia.
Qed.

(** When [topologicalSort] reports no error on fresh nodes, the list it
    returns names every node once, and every parent of a node at a
    smaller position than the node. *)
Lemma topologicalSort_sound nl names nl' :
  unmarked nl →
  topologicalSort nl = Done (false, names, nl') →
  ∃ ids : list nat,
    Forall2 (λ i n, name <$> nl !! i = Some n) ids names ∧
    NoDup ids ∧
    (∀ i, (i < length nl)%nat → i ∈ ids) ∧
    (∀ (k i : nat) (node : Node) (p : Z),
       ids !! k = Some i → nl !! i = Some node → p ∈ parentNodes node →
       0 ≤ p ∧ ∃ k', (k' < k)%nat ∧ ids !! k' = Some (Z.to_nat p)).
Proof.
  intros Hfresh H.
  assert (sortedSoFar nl [] []) as Hinit.
  { split_and!; [constructor|constructor| |by intros []].
    intros i. split; [by intros ?%elem_of_nil|].
    intros Hi. destruct (nl !! i) as [n|] eqn:Hn; simplify_eq/=.
    unfold unmarked in Hfresh. rewrite Forall_forall in Hfresh.
    apply list_elem_of_lookup_2, Hfresh in Hn. congruence. }
  destruct (sortLoop_sorted _ _ _ _ _ _ _ H Hinit)
    as (ids & (Hout & Hnd & Hin & Hpp) & Hadv & Hall).
  exists ids. split_and!.
  - eapply Forall2_impl; [done|]. intros i n Hi. cbv beta in Hi.
    destruct (nl' !! i) as [n'|] eqn:Hn'; [|done]. simpl in Hi.
    destruct (advances_lookup_r _ _ _ _ Hadv Hn') as (n0 & -> & Hname & _).
    simpl. congruence.
  - done.
  - intros i Hi. apply Hin.
    destruct (Hall i) as (n' & Hn' & Hf); [apply elem_of_seq; lia|].
    rewrite Hn'. simpl. f_equal.
    destruct (advances_lookup_r _ _ _ _ Hadv Hn') as (n0 & _ & _ & _ & Hf').
    destruct Hf' as [?|[_ ?]]; [|done]. destruct (flag n') eqn:?; try done.
    unfold unmarked in Hfresh. rewrite Forall_forall in Hfresh.
    destruct (advances_lookup_r _ _ _ _ Hadv Hn') as (n1 & Hn1 & _ & _ & Hf1).
    apply list_elem_of_lookup_2, Hfresh in Hn1.
    destruct Hf1 as [?|[_ ?]]; congruence.
  - intros k i node p Hk Hi Hp.
    destruct (advances_lookup _ _ _ _ Hadv Hi) as (n' & Hn' & _ & Hpar & _).
    eapply Hpp; [done..|]. by rewrite Hpar.
Qed.

(** C5. For every list of fresh nodes whose parent indices lie in the list
    and whose edge set contains a cycle, [topologicalSort] sets the error
    flag and returns the empty list of names. *)
Theorem topologicalSort_cycle nl :
  unmarked nl → parentsInRange nl → hasCycle nl →
  ∃ nl', topologicalSort nl = Done (true, [], nl').
Proof.
  intros Hfresh Hr [v Hcycle].
  destruct (topologicalSort_returns nl Hr) as (error & names & nl' & H & Hempty).
  destruct error; [exists nl'; by rewrite H, Hempty|].
  exfalso.
  destruct (topologicalSort_sound _ _ _ Hfresh H) as (ids & _ & Hnd & Hall & Hpp).
  assert (∀ x y, tc (edge nl) x y → ∀ k, ids !! k = Some x →
            ∃ k', (k' < k)%nat ∧ ids !! k' = Some y) as Hdown.
  { induction 1 as [x y (node & Hx & Hy)|x y z (node & Hx & Hy) _ IH];
      intros k Hk.
    - destruct (Hpp _ _ _ _ Hk Hx Hy) as (_ & k' & Hlt & Hk').
      rewrite Nat2Z.id in Hk'. eauto.
    - destruct (Hpp _ _ _ _ Hk Hx Hy) as (_ & k' & Hlt & Hk').
      rewrite Nat2Z.id in Hk'. destruct (IH _ Hk') as (k'' & Hlt' & Hk'').
      exists k''. split; [lia|done]. }
  assert (v ∈ ids) as [k Hk]%list_elem_of_lookup_1.
  { apply Hall.
    inversion Hcycle as [x y (node & Hv & _)|x y z (node & Hv & _) _];
      by eapply lookup_lt_Some. }
  destruct (Hdown _ _ Hcycle _ Hk) as (k' & Hlt & Hk').
  pose proof (NoDup_lookup _ _ _ _ Hnd Hk Hk'). lia.
Qed.

End GraphFacts.

(** ** The registry *)

Module RegistryFacts.
Import ManagerSpec.

Lemma find_Some_elem key (m : PluginsMap) p :
  find key m = Some p → (key, p) ∈ m.
Proof.
  induction m as [|[k q] m IH]; simpl; [done|].
  case_decide; intros; simplify_eq; [left | right; auto].
Qed.

Lemma find_is_Some key (m : PluginsMap) :
  is_Some (find key m) ↔ key ∈ keys m.
Proof.
  unfold keys. induction m as [|[k q] m IH]; simpl.
  - split; [by intros [? ?] | by intros ?%elem_of_nil].
  - rewrite elem_of_cons. case_decide; subst; [naive_solver|].
    rewrite IH. naive_solver.
Qed.

Lemma find_None key (m : PluginsMap) : find key m = None ↔ key ∉ keys m.
Proof. rewrite <- find_is_Some, eq_None_not_Some. done. Qed.

Lemma count_1 key (m : PluginsMap) : count key m = 1%nat ↔ key ∈ keys m.
Proof.
  rewrite <- find_is_Some. unfold count.
  destruct (find key m); split; [by eauto|done|done|by intros [? ?]].
Qed.

Lemma count_0 key (m : PluginsMap) : count key m = 0%nat ↔ key ∉ keys m.
Proof.
  rewrite <- find_None. unfold count. by destruct (find key m).
Qed.

Lemma keys_update key f (m : PluginsMap) : keys (update key f m) = keys m.
Proof.
  unfold keys. induction m as [|[k q] m IH]; simpl; [done|].
  case_decide; simpl; [done | f_equal; apply IH].
Qed.

Lemma length_update key f (m : PluginsMap) :
  length (update key f m) = length m.
Proof.
  induction m as [|[k q] m IH]; simpl; [done|].
  case_decide; simpl; [done | by rewrite IH].
Qed.

Lemma find_update key key' f (m : PluginsMap) :
  find key' (update key f m) =
  if decide (key = key') then f <$> find key' m else find key' m.
Proof.
  induction m as [|[k q] m IH]; simpl; [by case_decide|].
  repeat (case_decide; simplify_eq/=); try done.
  all: rewrite IH; by repeat case_decide.
Qed.

Lemma find_update_eq key f (m : PluginsMap) :
  find key (update key f m) = f <$> find key m.
Proof. by rewrite find_update, decide_True. Qed.

Lemma find_update_ne key key' f (m : PluginsMap) :
  key ≠ key' → find key' (update key f m) = find key' m.
Proof. intros. by rewrite find_update, decide_False. Qed.

Lemma keys_assign key p (m : PluginsMap) :
  keys (assign key p m) = if decide (key ∈ keys m) then keys m else keys m ++ [key].
Proof.
  unfold keys. induction m as [|[k q] m IH].
  - destruct (decide (key ∈ ([] : PluginsMap).*1)) as [Hin|Hin]; [|done].
    by apply elem_of_nil in Hin.
  - change (assign key p ((k, q) :: m))
      with (if decide (k = key) then (k, p) :: m else (k, q) :: assign key p m).
    rewrite fmap_cons. simpl fst.
    destruct (decide (k = key)) as [->|Hne].
    + rewrite decide_True by left. done.
    + rewrite fmap_cons, IH. simpl fst.
      destruct (decide (key ∈ m.*1)) as [Hin|Hin].
      * by rewrite decide_True by (by right).
      * rewrite decide_False; [done|]. rewrite elem_of_cons. naive_solver.
Qed.

Lemma find_assign key key' p (m : PluginsMap) :
  find key' (assign key p m) =
  if decide (key = key') then Some p else find key' m.
Proof.
  induction m as [|[k q] m IH]; simpl.
  - by repeat case_decide.
  - repeat (case_decide; simplify_eq/=); try done.
    all: rewrite IH; by repeat case_decide.
Qed.

Lemma NoDup_keys_assign key p (m : PluginsMap) :
  NoDup (keys m) → NoDup (keys (assign key p m)).
Proof.
  intros Hnd. rewrite keys_assign. case_decide; [done|].
  apply NoDup_app. split_and!; [done| |apply NoDup_singleton].
  intros k Hk ->%list_elem_of_singleton. done.
Qed.

Lemma filter_all {A} (P : A → Prop) `{∀ x, Decision (P x)} (l : list A) :
  Forall P l → filter P l = l.
Proof.
  induction 1 as [|x l Hx _ IH]; [done|].
  by rewrite filter_cons_True, IH.
Qed.

Lemma erase_filter key (m : PluginsMap) :
  NoDup (keys m) → erase key m = filter (λ kp, kp.1 ≠ key) m.
Proof.
  unfold keys. induction m as [|[k q] m IH]; [done|].
  rewrite fmap_cons. intros [Hk Hnd]%NoDup_cons. simpl fst in Hk.
  change (erase key ((k, q) :: m))
    with (if decide (k = key) then m else (k, q) :: erase key m).
  destruct (decide (k = key)) as [->|Hne].
  - rewrite filter_cons_False by (simpl; naive_solver).
    symmetry. apply filter_all, Forall_forall.
    intros [k' q'] Hin Heq. simpl in Heq. subst k'.
    apply Hk. by apply (list_elem_of_fmap_2 fst) in Hin.
  - rewrite filter_cons_True by done. by rewrite IH.
Qed.

Lemma NoDup_keys_filter (P : string * Plugin → Prop) `{∀ x, Decision (P x)}
    (m : PluginsMap) :
  NoDup (keys m) → NoDup (keys (filter P m)).
Proof.
  intros Hnd. eapply sublist_NoDup; [done|].
  unfold keys. apply fmap_sublist, sublist_filter.
Qed.

Lemma NoDup_keys_erase key (m : PluginsMap) :
  NoDup (keys m) → NoDup (keys (erase key m)).
Proof. intros Hnd. rewrite erase_filter by done. by apply NoDup_keys_filter. Qed.

Lemma find_erase key key' (m : PluginsMap) :
  NoDup (keys m) →
  find key' (erase key m) = if decide (key = key') then None else find key' m.
Proof.
  unfold keys. induction m as [|[k q] m IH]; simpl; [by case_decide|].
  intros [Hk Hnd]%NoDup_cons.
  repeat (case_decide; simplify_eq/=); try done.
  all: try (by apply find_None).
  all: rewrite IH by done; by repeat case_decide.
Qed.

Lemma erase_head key p (m : PluginsMap) : erase key ((key, p) :: m) = m.
Proof. simpl. by rewrite decide_True. Qed.

Lemma keys_sameButFlags (m m' : PluginsMap) :
  sameButFlags m m' → keys m' = keys m.
Proof.
  unfold sameButFlags, keys. revert m'.
  induction m as [|[k q] m IH]; intros [|[k' q'] m'] H; simplify_eq/=; [done|].
  f_equal. by apply IH.
Qed.

Lemma find_sameButFlags key (m m' : PluginsMap) :
  sameButFlags m m' →
  forgetFlag <$> find key m' = forgetFlag <$> find key m.
Proof.
  unfold sameButFlags. revert m'.
  induction m as [|[k q] m IH]; intros [|[k' q'] m'] H; simplify_eq/=; [done|].
  case_decide; simpl; [|by apply IH].
  unfold forgetFlag, set_dependenciesExists. congruence.
Qed.

Lemma sameButFlags_refl (m : PluginsMap) : sameButFlags m m.
Proof. done. Qed.

Lemma sameButFlags_trans (m1 m2 m3 : PluginsMap) :
  sameButFlags m1 m2 → sameButFlags m2 m3 → sameButFlags m1 m3.
Proof. unfold sameButFlags. congruence. Qed.

Lemma sameButFlags_update key v (m : PluginsMap) :
  sameButFlags m (update key (set_dependenciesExists v) m).
Proof.
  unfold sameButFlags. induction m as [|[k q] m IH]; simpl; [done|].
  case_decide; simpl; [done | f_equal; apply IH].
Qed.

Lemma infos_update key f (m : PluginsMap) :
  (∀ p, info (f p) = info p) → infos (update key f m) = infos m.
Proof.
  intros Hf. unfold infos. induction m as [|[k q] m IH]; simpl; [done|].
  case_decide; simpl; [by rewrite Hf | f_equal; apply IH].
Qed.

Lemma keys_infos (m m' : PluginsMap) : infos m' = infos m → keys m' = keys m.
Proof.
  unfold infos, keys. revert m'.
  induction m as [|[k q] m IH]; intros [|[k' q'] m'] H; simplify_eq/=; [done|].
  f_equal. by apply IH.
Qed.

Lemma find_infos key (m m' : PluginsMap) :
  infos m' = infos m → info <$> find key m' = info <$> find key m.
Proof.
  unfold infos. revert m'.
  induction m as [|[k q] m IH]; intros [|[k' q'] m'] H; simplify_eq/=; [done|].
  case_decide; simpl; [congruence | by apply IH].
Qed.

Lemma infos_sameButFlags (m m' : PluginsMap) :
  sameButFlags m m' → infos m' = infos m.
Proof.
  unfold sameButFlags, infos. revert m'.
  induction m as [|[k q] m IH]; intros [|[k' q'] m'] H; simplify_eq/=; [done|].
  f_equal; [|by apply IH]. by f_equal.
Qed.

End RegistryFacts.

(** ** The dependency check *)

Module CheckFacts.
Import ManagerSpec RegistryFacts.

Section host.
Context `{host : Host}.

Lemma flagsOnly_refl s : flagsOnly s s.
Proof. done. Qed.

Lemma flagsOnly_trans s1 s2 s3 :
  flagsOnly s1 s2 → flagsOnly s2 s3 → flagsOnly s1 s3.
Proof.
  intros (Hm & Hl & Ho & Hn & Ht & Hu) (Hm' & Hl' & Ho' & Hn' & Ht' & Hu').
  split_and!; [by eapply sameButFlags_trans | congruence..].
Qed.

Lemma flagsOnly_callback cb code data s : flagsOnly s (callback cb code data s).
Proof.
  destruct cb; [|done]. split_and!; try done; simpl.
  - unfold loadedCalls. rewrite omap_app. simpl. by rewrite app_nil_r.
  - unfold unloadCalls. rewrite omap_app. simpl. by rewrite app_nil_r.
Qed.

Lemma flagsOnly_flag key v s :
  flagsOnly s (modify key (set_dependenciesExists v) s).
Proof. split_and!; [apply sameButFlags_update | done..]. Qed.

Section check.
Variable check : string → PlugMgrPrivate → CheckResult.
Hypothesis check_frame : ∀ key s retCode s',
  check key s = Done (retCode, s') → flagsOnly s s'.

Lemma checkEach_frame cb key pluginPath deps : ∀ s retCode s',
  checkEach check cb key pluginPath deps s = Done (retCode, s') →
  flagsOnly s s'.
Proof using check_frame.
  induction deps as [|dep deps IH]; intros s retCode s' H; simpl in H.
  - simplify_eq. apply flagsOnly_flag.
  - destruct (find _ _) as [depPlugin|].
    + destruct (negb _).
      * simplify_eq. eapply flagsOnly_trans;
          [apply flagsOnly_flag | apply flagsOnly_callback].
      * destruct (check _ s) as [[rc s1]| |] eqn:Hc; try done.
        apply check_frame in Hc. destruct (succeeded rc).
        -- eapply flagsOnly_trans; [done | by eapply IH].
        -- by simplify_eq.
    + simplify_eq. eapply flagsOnly_trans;
        [apply flagsOnly_flag | apply flagsOnly_callback].
Qed.
End check.

(** A dependency check changes dependency flags and calls the callback,
    and nothing else. *)
Lemma checkDependencies_frame fuel cb : ∀ key s retCode s',
  checkDependencies fuel cb key s = Done (retCode, s') → flagsOnly s s'.
Proof.
  induction fuel as [|fuel IH]; intros key s retCode s' H; [done|].
  simpl in H. destruct (find key (pluginsMap s)) as [plugin|]; [|done].
  destruct (dependenciesExists plugin).
  - by eapply checkEach_frame.
  - by simplify_eq.
  - by simplify_eq.
Qed.

Lemma flagsOnly_find key s s' p' :
  flagsOnly s s' → find key (pluginsMap s') = Some p' →
  ∃ p, find key (pluginsMap s) = Some p ∧ graphId p' = graphId p ∧
       info p' = info p ∧ path p' = path p ∧ lib p' = lib p ∧
       iplugin p' = iplugin p ∧ isMainPlugin p' = isMainPlugin p.
Proof.
  intros (Hm & _) Hp'. pose proof (find_sameButFlags key _ _ Hm) as H.
  rewrite Hp' in H. destruct (find key (pluginsMap s)) as [p|]; [|done].
  exists p. split; [done|]. simpl in H. unfold forgetFlag in H.
  by simplify_eq/=.
Qed.

Lemma flagsOnly_keys s s' :
  flagsOnly s s' → keys (pluginsMap s') = keys (pluginsMap s).
Proof. intros (Hm & _). by apply keys_sameButFlags. Qed.

Lemma flagsOnly_sameInfos s s' : flagsOnly s s' → sameInfos s s'.
Proof.
  intros (Hm & Hl & _ & Hn & _). split_and!; [by apply infos_sameButFlags|done..].
Qed.

End host.
End CheckFacts.

(** ** The load order *)

Module LoadFacts.
Import ManagerSpec RegistryFacts CheckFacts.

Section host.
Context `{host : Host}.

Lemma to_int_small z : - 2 ^ 31 ≤ z < 2 ^ 31 → to_int z = z.
Proof. unfold to_int. intros. rewrite Z.mod_small; lia. Qed.

Lemma sameInfos_refl s : sameInfos s s.
Proof. done. Qed.

Lemma sameInfos_trans s1 s2 s3 :
  sameInfos s1 s2 → sameInfos s2 s3 → sameInfos s1 s3.
Proof. intros (? & ? & ?) (? & ? & ?). split_and!; congruence. Qed.

Lemma sameInfos_modify key f s :
  (∀ p, info (f p) = info p) → sameInfos s (modify key f s).
Proof. intros Hf. split_and!; [by apply infos_update|done..]. Qed.

Lemma sameInfos_keys s s' :
  sameInfos s s' → keys (pluginsMap s') = keys (pluginsMap s).
Proof. intros (Hm & _). by apply keys_infos. Qed.

Lemma sameInfos_find key s s' p' :
  sameInfos s s' → find key (pluginsMap s') = Some p' →
  ∃ p, find key (pluginsMap s) = Some p ∧ info p' = info p.
Proof.
  intros (Hm & _) Hp'. pose proof (find_infos key _ _ Hm) as H.
  rewrite Hp' in H. destruct (find key (pluginsMap s)) as [p|]; [|done].
  exists p. by simplify_eq/=.
Qed.

Lemma numbered_length visited ns m :
  numbered visited ns m → (length ns ≤ length visited)%nat.
Proof.
  intros (Hnd & Hsub & _). apply submseteq_length, NoDup_submseteq; done.
Qed.

Lemma numbered_skip visited ns (m m' : PluginsMap) k :
  numbered visited ns m → k ∉ visited →
  (∀ k' p', k' ∈ visited → find k' m' = Some p' →
     ∃ p, find k' m = Some p ∧ graphId p' = graphId p) →
  (∀ p', find k m' = Some p' → graphId p' = -1) →
  numbered (visited ++ [k]) ns m'.
Proof.
  intros (Hnd & Hsub & Hid) Hk Hold Hnew. split_and!; [done| |].
  - intros k' Hk'. apply elem_of_app. left. by apply Hsub.
  - intros k' p' [Hk'| ->%list_elem_of_singleton]%elem_of_app Hp'.
    + destruct (Hold _ _ Hk' Hp') as (p & Hp & ->). by apply Hid.
    + left. split; [by apply Hnew|]. intros Hin. by apply Hk, Hsub.
Qed.

Lemma numbered_push visited ns (m m' : PluginsMap) k :
  numbered visited ns m → k ∉ visited →
  (∀ k' p', k' ∈ visited → find k' m' = Some p' →
     ∃ p, find k' m = Some p ∧ graphId p' = graphId p) →
  (∀ p', find k m' = Some p' → graphId p' = Z.of_nat (length ns)) →
  numbered (visited ++ [k]) (ns ++ [k]) m'.
Proof.
  intros (Hnd & Hsub & Hid) Hk Hold Hnew. split_and!.
  - apply NoDup_app. split_and!; [done| |apply NoDup_singleton].
    intros k' Hk' ->%list_elem_of_singleton. by apply Hk, Hsub.
  - intros k' [Hk'| ->%list_elem_of_singleton]%elem_of_app;
      apply elem_of_app; [left; by apply Hsub | right; by left].
  - intros k' p' [Hk'| ->%list_elem_of_singleton]%elem_of_app Hp'.
    + destruct (Hold _ _ Hk' Hp') as (p & Hp & ->).
      destruct (Hid _ _ Hk' Hp) as [[Hg Hout]|[Hg Hin]].
      * left. split; [done|]. intros [?| ->%list_elem_of_singleton]%elem_of_app;
          done.
      * right. split; [done|]. by apply lookup_app_l_Some.
    + right. rewrite (Hnew _ Hp'), Nat2Z.id. split; [lia|].
      by rewrite lookup_app_r, Nat.sub_diag.
Qed.

(** What the first loop of [loadPlugins] leaves behind when it runs to its
    end. *)
Lemma checkAll_numbered fuel tryToContinue cb :
  ∀ todo visited ns nodeList s nodeList' s',
  keys (pluginsMap s) = visited ++ todo →
  NoDup (visited ++ todo) →
  Z.of_nat (length (visited ++ todo)) < 2 ^ 31 →
  nodeList = Graph.newNode <$> ns →
  numbered visited ns (pluginsMap s) →
  checkAll fuel tryToContinue cb todo nodeList s = Done (None, nodeList', s') →
  ∃ ns', nodeList' = Graph.newNode <$> ns' ∧
         numbered (visited ++ todo) ns' (pluginsMap s') ∧
         sameInfos s s' ∧ loadOrderList s' = loadOrderList s ∧
         loadedCalls (trace s') = loadedCalls (trace s).
Proof.
  induction todo as [|k todo IH];
    intros visited ns nodeList s nodeList' s' Hkeys Hnd Hsize -> Hnum H;
    simpl in H.
  - simplify_eq. exists ns. by rewrite app_nil_r.
  - destruct (checkDependencies _ _ _ _) as [[rc s1]| |] eqn:Hc; try done.
    apply checkDependencies_frame in Hc.
    destruct (negb tryToContinue && negb (succeeded rc)); [done|].
    destruct (find k (pluginsMap s1)) as [p1|] eqn:Hp1; [|done].
    assert (k ∉ visited) as Hk.
    { apply NoDup_app in Hnd as (_ & Hnd & _). intros Hin.
      apply (Hnd _ Hin). by left. }
    assert (∀ k' p', k' ∈ visited → find k' (pluginsMap s1) = Some p' →
              ∃ p, find k' (pluginsMap s) = Some p ∧ graphId p' = graphId p)
      as Hold.
    { intros k' p' Hk' Hp'.
      destruct (flagsOnly_find _ _ _ _ Hc Hp') as (p0 & Hp0 & Hg & _).
      simpl in Hp0. rewrite find_update_ne in Hp0 by (by intros ->).
      eauto. }
    assert (∀ p', find k (pluginsMap s1) = Some p' → graphId p' = -1) as Hnew.
    { intros p' Hp'.
      destruct (flagsOnly_find _ _ _ _ Hc Hp') as (p0 & Hp0 & Hg & _).
      simpl in Hp0. rewrite find_update_eq in Hp0.
      destruct (find k (pluginsMap s)); by simplify_eq/=. }
    assert (sameInfos s s1) as Hinfo1.
    { eapply sameInfos_trans; [|by apply flagsOnly_sameInfos].
      by apply sameInfos_modify. }
    assert (loadOrderList s1 = loadOrderList s) as Hord1.
    { by destruct Hc as (_ & _ & -> & _). }
    assert (loadedCalls (trace s1) = loadedCalls (trace s)) as Htr1.
    { by destruct Hc as (_ & _ & _ & _ & -> & _). }
    assert (visited ++ k :: todo = (visited ++ [k]) ++ todo) as Happ.
    { by rewrite <- app_assoc. }
    rewrite Happ in *.
    assert (∀ ns1 s2,
              keys (pluginsMap s2) = keys (pluginsMap s1) →
              sameInfos s1 s2 → loadOrderList s2 = loadOrderList s1 →
              trace s2 = trace s1 →
              numbered (visited ++ [k]) ns1 (pluginsMap s2) →
              checkAll fuel tryToContinue cb todo (Graph.newNode <$> ns1) s2
                = Done (None, nodeList', s') →
              ∃ ns', nodeList' = Graph.newNode <$> ns' ∧
                numbered ((visited ++ [k]) ++ todo) ns' (pluginsMap s') ∧
                sameInfos s s' ∧ loadOrderList s' = loadOrderList s ∧
                loadedCalls (trace s') = loadedCalls (trace s)) as Hnext.
    { intros ns1 s2 Hkeys2 Hinfo2 Hord2 Htr2 Hnum2 Hrest.
      destruct (IH (visited ++ [k]) ns1 (Graph.newNode <$> ns1) s2 nodeList' s')
        as (ns' & ? & ? & ? & ? & ?);
        try done.
      - rewrite Hkeys2, (sameInfos_keys _ _ Hinfo1). done.
      - exists ns'. split_and!; [done..| |congruence|congruence].
        eapply sameInfos_trans; [|done]. by eapply sameInfos_trans. }
    destruct (dependenciesExists p1).
    + apply (Hnext ns s1); try done. by eapply numbered_skip.
    + change [Graph.newNode k] with (Graph.newNode <$> [k]) in H.
      rewrite <- (fmap_app Graph.newNode ns [k]) in H.
      revert H. apply Hnext.
      * simpl. apply keys_update.
      * by apply sameInfos_modify.
      * done.
      * done.
      * eapply numbered_push; [done..| |].
        -- intros k' p' Hk' Hp'. simpl in Hp'.
           rewrite find_update_ne in Hp' by (by intros ->). by apply Hold.
        -- intros p' Hp'. simpl in Hp'. rewrite find_update_eq, Hp1 in Hp'.
           rewrite length_fmap, length_app in Hp'. simpl in Hp'.
           pose proof (numbered_length _ _ _ Hnum) as Hlen.
           rewrite !length_app in Hsize. simpl in Hsize.
           rewrite to_int_small in Hp' by lia. simplify_eq/=. lia.
    + apply (Hnext ns s1); try done. by eapply numbered_skip.
Qed.

Lemma addParents_nil n : addParents [] n = n.
Proof. destruct n. unfold addParents. simpl. by rewrite app_nil_r. Qed.

Lemma addParents_cons g ids n :
  addParents ids (Graph.addParent g n) = addParents (g :: ids) n.
Proof. unfold addParents, Graph.addParent. simpl. by rewrite <- app_assoc. Qed.

Lemma pushParents_spec nodeId (m : PluginsMap) : ∀ deps nl nl',
  pushParents nodeId deps nl m = Done nl' →
  ∃ ids, parentIds deps m = Some ids ∧
         nl' = alter (addParents ids) (Z.to_nat nodeId) nl.
Proof.
  induction deps as [|dep deps IH]; intros nl nl' H; simpl in H.
  - simplify_eq. exists []. split; [done|].
    symmetry. apply list_alter_id, addParents_nil.
  - unfold Graph.nodeIndex in H. case_decide; [|done].
    destruct (find (Dependency.name dep) m) as [depPlugin|] eqn:Hdep; [|done].
    destruct (IH _ _ H) as (ids & Hids & ->).
    exists (graphId depPlugin :: ids). split.
    + unfold parentIds in *. simpl. rewrite Hdep. simpl. by rewrite Hids.
    + rewrite list_alter_alter_eq. apply list_alter_ext; [|done].
      intros n _. apply addParents_cons.
Qed.

(** What the second loop of [loadPlugins] leaves behind. *)
Lemma fillParents_filled ns (m : PluginsMap) : ∀ todo visited nl nl',
  keys m = visited ++ todo → NoDup (keys m) → numbered (keys m) ns m →
  filled visited ns m nl →
  fillParents todo nl m = Done nl' →
  filled (visited ++ todo) ns m nl'.
Proof.
  intros todo visited nl nl' Hkeys Hnd (Hndns & Hsub & Hid).
  revert visited nl Hkeys.
  induction todo as [|k todo IH]; intros visited nl Hkeys Hfill H; simpl in H.
  - simplify_eq. by rewrite app_nil_r.
  - assert (k ∈ keys m) as Hk.
    { rewrite Hkeys, elem_of_app. right. by left. }
    assert (k ∉ visited) as Hfresh.
    { rewrite Hkeys in Hnd. apply NoDup_app in Hnd as (_ & Hnd & _).
      intros Hin. apply (Hnd _ Hin). by left. }
    replace (visited ++ k :: todo) with ((visited ++ [k]) ++ todo) in *
      by (by rewrite <- app_assoc).
    destruct (find k m) as [p|] eqn:Hp; [|done].
    destruct Hfill as [Hlen Hfill].
    case_decide as Hg.
    + apply (IH (visited ++ [k]) nl); [done| |done].
      split; [done|]. intros g k' Hk'.
      assert (k' ≠ k) as Hne.
      { intros ->. destruct (Hid _ _ Hk Hp) as [[_ Hout]|[Hpos _]]; [|lia].
        apply Hout. by eapply list_elem_of_lookup_2. }
      destruct (Hfill _ _ Hk') as [Hin Hout]. split.
      * intros [?| ?%list_elem_of_singleton]%elem_of_app; [auto|done].
      * intros Hnot. apply Hout. intros ?. apply Hnot, elem_of_app. by left.
    + destruct (pushParents _ _ _ _) as [nl1| |] eqn:Hpush; try done.
      destruct (pushParents_spec _ _ _ _ _ Hpush) as (ids & Hids & ->).
      destruct (Hid _ _ Hk Hp) as [[? _]|[Hpos Hat]]; [done|].
      apply (IH (visited ++ [k])
                (alter (addParents ids) (Z.to_nat (graphId p)) nl)); [done| |done].
      split; [by rewrite length_alter|]. intros g k' Hk'.
      destruct (Hfill _ _ Hk') as [Hin Hout].
      destruct (decide (k' = k)) as [->|Hne].
      * pose proof (NoDup_lookup _ _ _ _ Hndns Hat Hk') as ->.
        split; [|intros Hnot; exfalso; apply Hnot, elem_of_app; right; by left].
        intros _. exists p, ids. split_and!; [done..|].
        by rewrite list_lookup_alter_eq, (Hout Hfresh).
      * assert (Z.to_nat (graphId p) ≠ g) as Hgne.
        { intros <-. congruence. }
        rewrite list_lookup_alter_ne by done. split.
        -- intros [?| ?%list_elem_of_singleton]%elem_of_app; [auto|done].
        -- intros Hnot. apply Hout. intros ?. apply Hnot, elem_of_app. by left.
Qed.

(** The early return of the first loop carries a failure code. *)
Lemma checkAll_early fuel tryToContinue cb : ∀ todo nodeList s retCode nodeList' s',
  checkAll fuel tryToContinue cb todo nodeList s
    = Done (Some retCode, nodeList', s') →
  succeeded retCode = false.
Proof.
  induction todo as [|k todo IH]; intros nodeList s retCode nodeList' s' H;
    simpl in H; [done|].
  destruct (checkDependencies _ _ _ _) as [[rc s1]| |]; try done.
  destruct (negb tryToContinue && negb (succeeded rc)) eqn:Hret.
  - simplify_eq. apply andb_true_iff in Hret as [_ Hret].
    by apply negb_true_iff in Hret.
  - destruct (find k (pluginsMap s1)) as [p1|]; [|done].
    destruct (dependenciesExists p1); by eapply IH.
Qed.

(** *** Creating the plugin objects keeps keys, metadata and load order *)

Lemma loadPlugin_sameInfos key s s' :
  PlugMgrPrivate_loadPlugin key s = Done s' →
  sameInfos s s' ∧ loadOrderList s' = loadOrderList s.
Proof.
  unfold PlugMgrPrivate_loadPlugin. intros H.
  destruct (find key (pluginsMap s)) as [plugin|]; [|done].
  destruct (lib plugin) as [file|]; [|done].
  destruct (jp_createPlugin file); [|done].
  destruct (dependencyObjects _ _); [|done]. simplify_eq. split; [|done].
  split_and!; [|done..]. simpl. by apply infos_update.
Qed.

Lemma loadEach_sameInfos : ∀ names s s',
  loadEach names s = Done s' →
  sameInfos s s' ∧ loadOrderList s' = loadOrderList s.
Proof.
  induction names as [|name names IH]; intros s s' H; simpl in H.
  - by simplify_eq.
  - destruct (PlugMgrPrivate_loadPlugin name s) as [s1| |] eqn:H1; try done.
    apply loadPlugin_sameInfos in H1 as [? ?].
    apply IH in H as [? ?]. split; [by eapply sameInfos_trans|congruence].
Qed.

Lemma callMainPlugin_sameInfos s s' :
  callMainPlugin s = Done s' →
  sameInfos s s' ∧ loadOrderList s' = loadOrderList s.
Proof.
  unfold callMainPlugin. intros H. case_decide; [by simplify_eq|].
  destruct (find _ _) as [plugin|]; [|done].
  destruct (iplugin plugin); [|done]. by simplify_eq.
Qed.

(** The stages a successful [loadPlugins] went through. *)
Lemma loadPlugins_stages fuel tryToContinue cb s s' :
  loadPlugins fuel tryToContinue cb s = Done (SUCCESS, s') →
  ∃ nodeList s1 nodeList' order nodeList'' s3,
    checkAll fuel tryToContinue cb (keys (pluginsMap s)) [] s
      = Done (None, nodeList, s1) ∧
    fillParents (keys (pluginsMap s1)) nodeList (pluginsMap s1)
      = Done nodeList' ∧
    Graph.topologicalSort nodeList' = Done (false, order, nodeList'') ∧
    loadPluginsInOrder (with_loadOrderList order s1) = Done s3 ∧
    callMainPlugin s3 = Done s'.
Proof.
  unfold loadPlugins. intros H.
  destruct (checkAll _ _ _ _ _ _) as [[[[rc|] nodeList] s1]| |] eqn:H1;
    try done.
  { apply checkAll_early in H1. by simplify_eq. }
  destruct (fillParents _ _ _) as [nodeList'| |] eqn:H2; try done.
  destruct (Graph.topologicalSort _) as [[[[] order] nodeList'']| |] eqn:H3;
    try done.
  destruct (loadPluginsInOrder _) as [s3| |] eqn:H4; try done.
  destruct (callMainPlugin s3) as [s4| |] eqn:H5; try done.
  simplify_eq. by eexists _, _, _, _, _, _.
Qed.

(** The graph that [loadPlugins] sorts: one fresh node per record whose
    dependencies exist, named by its key, with the graph ids of the
    declared dependencies as parents. *)
Lemma loadPlugins_graph fuel tryToContinue cb s nodeList s1 nodeList' :
  NoDup (keys (pluginsMap s)) →
  Z.of_nat (length (pluginsMap s)) < 2 ^ 31 →
  checkAll fuel tryToContinue cb (keys (pluginsMap s)) [] s
    = Done (None, nodeList, s1) →
  fillParents (keys (pluginsMap s1)) nodeList (pluginsMap s1)
    = Done nodeList' →
  ∃ ns, numbered (keys (pluginsMap s1)) ns (pluginsMap s1) ∧
        filled (keys (pluginsMap s1)) ns (pluginsMap s1) nodeList' ∧
        sameInfos s s1 ∧ loadedCalls (trace s1) = loadedCalls (trace s).
Proof.
  intros Hnd Hsize H1 H2.
  assert (numbered [] [] (pluginsMap s)) as Hinit.
  { split_and!; [constructor|by intros ? ?%elem_of_nil|].
    by intros ? ? ?%elem_of_nil. }
  assert (Z.of_nat (length ([] ++ keys (pluginsMap s))) < 2 ^ 31) as Hsize'.
  { unfold keys. simpl. by rewrite length_fmap. }
  destruct (checkAll_numbered _ _ _ _ [] [] [] _ _ _ eq_refl Hnd Hsize' eq_refl
              Hinit H1) as (ns & -> & Hnum & Hinfo & _ & Htr).
  simpl in Hnum. rewrite <- (sameInfos_keys _ _ Hinfo) in Hnum.
  exists ns. split_and!; [done| |done..].
  eapply (fillParents_filled ns _ _ []); [done| |done| |done].
  - by rewrite (sameInfos_keys _ _ Hinfo).
  - split; [by rewrite length_fmap|]. intros g k Hk.
    split; [by intros ?%elem_of_nil|]. intros _.
    by rewrite list_lookup_fmap, Hk.
Qed.

(** What a successful [loadPlugins] sorted: the nodes [nl] named [ns], and
    the node indices [ids] behind the names of the load order. *)
Lemma loadPlugins_sorted fuel tryToContinue cb s s' :
  NoDup (keys (pluginsMap s)) →
  Z.of_nat (length (pluginsMap s)) < 2 ^ 31 →
  loadPlugins fuel tryToContinue cb s = Done (SUCCESS, s') →
  ∃ s1 (ns : list string) (nl : Graph.NodeList) (ids : list nat),
    sameInfos s1 s' ∧
    numbered (keys (pluginsMap s1)) ns (pluginsMap s1) ∧
    (∀ (g : nat) k, ns !! g = Some k →
       ∃ p pids, find k (pluginsMap s1) = Some p ∧
         parentIds (PluginInfoStd.dependencies (info p)) (pluginsMap s1)
           = Some pids ∧
         nl !! g = Some (Graph.mkNode k pids Graph.UNMARKED)) ∧
    NoDup ids ∧
    Forall2 (λ g P, ns !! g = Some P) ids (loadOrderList s') ∧
    (∀ (k i : nat) (node : Graph.Node) (p : Z),
       ids !! k = Some i → nl !! i = Some node → p ∈ Graph.parentNodes node →
       0 ≤ p ∧ ∃ k', (k' < k)%nat ∧ ids !! k' = Some (Z.to_nat p)).
Proof.
  intros Hnd Hsize H.
  destruct (loadPlugins_stages _ _ _ _ _ H)
    as (nodeList & s1 & nl & order & nl' & s3 & H1 & H2 & H3 & H4 & H5).
  destruct (loadPlugins_graph _ _ _ _ _ _ _ Hnd Hsize H1 H2)
    as (ns & Hnum & (Hlen & Hfill) & Hinfo1 & _).
  pose proof Hnum as (Hndns & Hsub & Hid).
  apply loadEach_sameInfos in H4 as [Hinfo3 Hord3].
  apply callMainPlugin_sameInfos in H5 as [Hinfo4 Hord4].
  assert (loadOrderList s' = order) as Horder by (by rewrite Hord4, Hord3).
  assert (sameInfos s1 s') as Hinfo.
  { eapply sameInfos_trans; [|done]. eapply sameInfos_trans; [|done]. done. }
  set (m1 := pluginsMap s1) in *.
  assert (∀ (g : nat) k, ns !! g = Some k →
            ∃ p ids, find k m1 = Some p ∧
              parentIds (PluginInfoStd.dependencies (info p)) m1 = Some ids ∧
              nl !! g = Some (Graph.mkNode k ids Graph.UNMARKED)) as Hnode.
  { intros g k Hk. apply (Hfill _ _ Hk), Hsub. by eapply list_elem_of_lookup_2. }
  assert (∀ (g : nat) node, nl !! g = Some node →
            ns !! g = Some (Graph.name node)) as Hname.
  { intros g node Hg.
    destruct (lookup_lt_is_Some_2 ns g) as [k Hk].
    { rewrite <- Hlen. by eapply lookup_lt_Some. }
    destruct (Hnode _ _ Hk) as (p & ids & _ & _ & Hg'). by simplify_eq. }
  assert (Graph.unmarked nl) as Hfresh.
  { apply Forall_forall. intros node [g Hg]%list_elem_of_lookup_1.
    pose proof (Hname _ _ Hg) as Hk.
    destruct (Hnode _ _ Hk) as (p & ids & _ & _ & Hg').
    rewrite Hg in Hg'. injection Hg' as Hnode'. by rewrite Hnode'. }
  destruct (GraphFacts.topologicalSort_sound _ _ _ Hfresh H3)
    as (ids & Hout & Hndids & _ & Hpp).
  exists s1, ns, nl, ids. rewrite Horder. split_and!; try done.
  eapply Forall2_impl; [done|]. intros g P HgP. cbv beta in HgP.
  destruct (nl !! g) as [node|] eqn:Hn; [|done]. simpl in HgP.
  apply Hname in Hn. congruence.
Qed.

(** The load order of a successful [loadPlugins] names registered
    plugins, each once. *)
Lemma loadPlugins_order_registered fuel tryToContinue cb s s' :
  NoDup (keys (pluginsMap s)) →
  Z.of_nat (length (pluginsMap s)) < 2 ^ 31 →
  loadPlugins fuel tryToContinue cb s = Done (SUCCESS, s') →
  NoDup (loadOrderList s') ∧
  (∀ P, P ∈ loadOrderList s' → P ∈ keys (pluginsMap s')).
Proof.
  intros Hnd Hsize H.
  destruct (loadPlugins_sorted _ _ _ _ _ Hnd Hsize H)
    as (s1 & ns & nl & ids & Hinfo & (Hndns & Hsub & _) & _ & Hndids & Hat & _).
  split.
  - apply NoDup_alt. intros a b P Ha Hb.
    destruct (Forall2_lookup_r _ _ _ _ _ Hat Ha) as (ga & Hga & Hna).
    destruct (Forall2_lookup_r _ _ _ _ _ Hat Hb) as (gb & Hgb & Hnb).
    pose proof (NoDup_lookup _ _ _ _ Hndns Hna Hnb) as ->.
    by eapply NoDup_lookup.
  - intros P [j Hj]%list_elem_of_lookup_1.
    destruct (Forall2_lookup_r _ _ _ _ _ Hat Hj) as (g & _ & Hg).
    rewrite (sameInfos_keys _ _ Hinfo). apply Hsub.
    by eapply list_elem_of_lookup_2.
Qed.

(** C1. After a call of [loadPlugins] that succeeds, so that its
    topological sort reported no error, the stored load order names
    registered plugins, each once, and for every plugin P at a position of
    the load order and every declared dependency D of P, D stands in the
    load order at a strictly smaller position. *)
Theorem loadPlugins_order_respects_dependencies fuel tryToContinue cb s s' :
  NoDup (keys (pluginsMap s)) →
  Z.of_nat (length (pluginsMap s)) < 2 ^ 31 →
  loadPlugins fuel tryToContinue cb s = Done (SUCCESS, s') →
  NoDup (loadOrderList s') ∧
  (∀ P, P ∈ loadOrderList s' → P ∈ keys (pluginsMap s')) ∧
  ∀ (j : nat) P plugin D,
    loadOrderList s' !! j = Some P →
    find P (pluginsMap s') = Some plugin →
    D ∈ dependencyNames plugin →
    ∃ i : nat, (i < j)%nat ∧ loadOrderList s' !! i = Some D.
Proof.
  intros Hnd Hsize H.
  destruct (loadPlugins_order_registered _ _ _ _ _ Hnd Hsize H) as [Hnd' Hreg].
  split_and!; [done..|].
  destruct (loadPlugins_sorted _ _ _ _ _ Hnd Hsize H)
    as (s1 & ns & nl & ids & Hinfo & (_ & _ & Hid) & Hnode & _ & Hat & Hpp).
  intros j P plugin D Hj HP HD.
  destruct (Forall2_lookup_r _ _ _ _ _ Hat Hj) as (g & Hg & HgP).
  destruct (Hnode _ _ HgP) as (p & pids & Hp & Hpids & Hnl).
  destruct (sameInfos_find _ _ _ _ Hinfo HP) as (p0 & Hp0 & Hinfop).
  rewrite Hp in Hp0. simplify_eq.
  unfold dependencyNames in HD. rewrite Hinfop in HD.
  apply list_elem_of_fmap in HD as (dep & -> & Hdep).
  apply list_elem_of_lookup_1 in Hdep as [a Ha].
  unfold parentIds in Hpids. apply mapM_Some_1 in Hpids.
  destruct (Forall2_lookup_l _ _ _ _ _ Hpids Ha) as (gD & HgD & HfindD).
  destruct (find (Dependency.name dep) (pluginsMap s1)) as [pD|] eqn:HpD;
    simplify_eq/=.
  destruct (Hpp _ _ _ (graphId pD) Hg Hnl) as (Hpos & i & Hlt & Hi).
  { simpl. by eapply list_elem_of_lookup_2. }
  exists i. split; [done|].
  assert (Dependency.name dep ∈ keys (pluginsMap s1)) as HDkey.
  { apply find_is_Some. by rewrite HpD. }
  destruct (Hid _ _ HDkey HpD) as [[Hneg _]|[_ HnsD]]; [lia|].
  destruct (Forall2_lookup_l _ _ _ _ _ Hat Hi) as (n & Hn & Hnn).
  congruence.
Qed.

End host.
End LoadFacts.

(** ** Bulk unload *)

Module TraceFacts.

Lemma trace_callback cb code data s :
  trace (callback cb code data s) =
  trace s ++ (if cb then [Callback code data] else []).
Proof. destruct cb; simpl; [done|by rewrite app_nil_r]. Qed.

End TraceFacts.

Module UnloadFacts.
Import ManagerSpec RegistryFacts.

Section host.
Context `{host : Host}.

Lemma filter_ext_elem {A} (P Q : A → Prop) `{!∀ x, Decision (P x)}
    `{!∀ x, Decision (Q x)} (l : list A) :
  (∀ x, x ∈ l → P x ↔ Q x) → filter P l = filter Q l.
Proof.
  induction l as [|a l IH]; intros Hext; [done|].
  rewrite !filter_cons.
  rewrite IH by (intros x Hx; apply Hext; by right).
  apply decide_ext, Hext. by left.
Qed.

Lemma erase_update key f (m : PluginsMap) :
  erase key (update key f m) = erase key m.
Proof.
  induction m as [|[k q] m IH]; simpl; [done|].
  case_decide; simpl.
  - by rewrite decide_True.
  - rewrite decide_False by done. f_equal. apply IH.
Qed.

(** The destructor of a record that [unloadPlugin] has emptied calls
    nothing: [aboutToBeUnloaded()] is not called twice. *)
Lemma Plugin_destructor_closed key l plugin :
  Plugin_destructor key (set_lib l (set_iplugin None plugin)) = [].
Proof. unfold Plugin_destructor. simpl. by destruct (isLoaded l). Qed.

Lemma unloadPlugin_Done key s plugin :
  find key (pluginsMap s) = Some plugin →
  ∃ ok s',
    PlugMgrPrivate_unloadPlugin key s = Done (ok, s') ∧
    erase key (pluginsMap s') = erase key (pluginsMap s) ∧
    trace s' = trace s ++
      (if holdsObject (pluginsMap s) key then [AboutToBeUnloaded key] else []) ∧
    locations s' = locations s ∧
    loadOrderList s' = loadOrderList s ∧
    mainPluginName s' = mainPluginName s.
Proof.
  intros Hfind. unfold PlugMgrPrivate_unloadPlugin, holdsObject.
  rewrite Hfind, Plugin_destructor_closed. simpl.
  eexists _, _. split; [done|].
  destruct (iplugin plugin); simpl;
    rewrite erase_update, ?app_nil_r; split_and!; try done.
Qed.

Lemma unloadPlugin_inv key s ok s' :
  PlugMgrPrivate_unloadPlugin key s = Done (ok, s') →
  erase key (pluginsMap s') = erase key (pluginsMap s) ∧
  locations s' = locations s ∧
  loadOrderList s' = loadOrderList s ∧
  mainPluginName s' = mainPluginName s.
Proof.
  intros H. destruct (find key (pluginsMap s)) as [plugin|] eqn:Hfind.
  - destruct (unloadPlugin_Done _ _ _ Hfind) as (ok' & s'' & H' & ? & _ & ?).
    rewrite H in H'. by simplify_eq.
  - unfold PlugMgrPrivate_unloadPlugin in H. by rewrite Hfind in H.
Qed.

(** The first loop of [unloadPluginsInOrder], run over names that are
    registered, each once. *)
Lemma unloadEach_Done : ∀ names allUnloaded s,
  NoDup names → (∀ n, n ∈ names → n ∈ keys (pluginsMap s)) →
  NoDup (keys (pluginsMap s)) →
  ∃ allUnloaded' s',
    unloadEach names allUnloaded s = Done (allUnloaded', s') ∧
    pluginsMap s' = filter (λ kp, kp.1 ∉ names) (pluginsMap s) ∧
    trace s' = trace s ++
      (AboutToBeUnloaded <$> filter (λ n, holdsObject (pluginsMap s) n) names) ∧
    locations s' = locations s ∧
    loadOrderList s' = loadOrderList s ∧
    mainPluginName s' = mainPluginName s.
Proof.
  induction names as [|n names IH]; intros allUnloaded s Hnd Hreg Hkeys; simpl.
  - eexists _, _. split; [done|]. rewrite app_nil_r. split_and!; try done.
    symmetry. apply filter_all, Forall_forall. intros ? _. apply not_elem_of_nil.
  - apply NoDup_cons in Hnd as [Hn Hnd].
    assert (is_Some (find n (pluginsMap s))) as [plugin Hfind].
    { apply find_is_Some, Hreg. by left. }
    destruct (unloadPlugin_Done _ _ _ Hfind)
      as (ok & s1 & -> & Hmap1 & Htr1 & Hl1 & Ho1 & Hm1).
    assert (∀ n', n' ∈ names →
              find n' (erase n (pluginsMap s)) = find n' (pluginsMap s))
      as Hsame.
    { intros n' Hn'. rewrite find_erase by done.
      rewrite decide_False; [done|]. by intros ->. }
    destruct (IH (if ok then allUnloaded else false) (erasePlugin n s1))
      as (all' & s' & -> & Hmap & Htr & Hl & Ho & Hm); [done| | |].
    { intros n' Hn'. simpl. rewrite Hmap1. apply find_is_Some.
      rewrite (Hsame _ Hn'). apply find_is_Some, Hreg. by right. }
    { simpl. rewrite Hmap1. by apply NoDup_keys_erase. }
    eexists _, _. split; [done|]. simpl in *.
    rewrite Hmap1 in Hmap, Htr. split_and!; [| |congruence..].
    + rewrite Hmap, erase_filter, list_filter_filter by done.
      apply list_filter_iff. intros [k q]. simpl.
      rewrite elem_of_cons. naive_solver.
    + rewrite Htr, Htr1, <- app_assoc. f_equal.
      rewrite filter_cons.
      rewrite (filter_ext_elem _ (λ n', holdsObject (pluginsMap s) n') names).
      * by destruct (holdsObject (pluginsMap s) n).
      * intros n' Hn'. unfold holdsObject. by rewrite (Hsame _ Hn').
Qed.

(** The second loop of [unloadPluginsInOrder] empties the registry. *)
Lemma unloadRemaining_Done : ∀ rounds allUnloaded s,
  (length (pluginsMap s) ≤ rounds)%nat → NoDup (keys (pluginsMap s)) →
  ∃ allUnloaded' s',
    unloadRemaining rounds allUnloaded s = Done (allUnloaded', s') ∧
    pluginsMap s' = [] ∧
    trace s' = trace s ++
      (AboutToBeUnloaded <$>
         filter (λ n, holdsObject (pluginsMap s) n) (keys (pluginsMap s))) ∧
    locations s' = locations s ∧
    loadOrderList s' = loadOrderList s ∧
    mainPluginName s' = mainPluginName s.
Proof.
  induction rounds as [|rounds IH]; intros allUnloaded s Hlen Hkeys.
  - destruct s as [[|] ? ? ? ?]; simpl in *; [|lia].
    eexists _, _. split; [done|]. simpl. by rewrite app_nil_r.
  - destruct (pluginsMap s) as [|[k q] m] eqn:Hmap.
    { simpl. rewrite Hmap. eexists _, _. split; [done|].
      rewrite Hmap. simpl. by rewrite app_nil_r. }
    simpl. rewrite Hmap.
    assert (find k (pluginsMap s) = Some q) as Hfind.
    { rewrite Hmap. simpl. by rewrite decide_True. }
    destruct (unloadPlugin_Done _ _ _ Hfind)
      as (ok & s1 & -> & Hmap1 & Htr1 & Hl1 & Ho1 & Hm1).
    rewrite Hmap, erase_head in Hmap1.
    unfold keys in Hkeys. rewrite fmap_cons in Hkeys.
    apply NoDup_cons in Hkeys as [Hk Hkeys]. simpl in Hk.
    destruct (IH (if ok then allUnloaded else false) (erasePlugin k s1))
      as (all' & s' & -> & Hempty & Htr & Hl & Ho & Hm).
    { simpl. rewrite Hmap1. simpl in Hlen. lia. }
    { simpl. by rewrite Hmap1. }
    eexists _, _. split; [done|]. simpl in *. rewrite Hmap1 in Htr.
    split_and!; [done| |congruence..].
    rewrite Htr, Htr1, Hmap, <- app_assoc. f_equal.
    rewrite filter_cons.
    rewrite (filter_ext_elem (λ n', holdsObject m n')
               (λ n', holdsObject ((k, q) :: m) n') (keys m)).
    + by destruct (holdsObject ((k, q) :: m) k).
    + intros n' Hn'. unfold holdsObject. simpl.
      rewrite decide_False; [done|]. by intros ->.
Qed.

Lemma keys_filter_notin (l : list string) (m : PluginsMap) :
  keys (filter (λ kp, kp.1 ∉ l) m) = filter (λ k, k ∉ l) (keys m).
Proof.
  unfold keys. induction m as [|[k q] m IH]; [done|].
  rewrite fmap_cons, !filter_cons. simpl fst.
  destruct (decide (k ∉ l)); [rewrite fmap_cons|]; by rewrite IH.
Qed.

Lemma find_filter_notin (l : list string) n (m : PluginsMap) :
  n ∉ l → find n (filter (λ kp, kp.1 ∉ l) m) = find n m.
Proof.
  intros Hn. induction m as [|[k q] m IH]; [done|].
  rewrite filter_cons. simpl fst.
  destruct (decide (k ∉ l)) as [Hk|Hk]; simpl; rewrite IH;
    destruct (decide (k = n)) as [->|Hne]; done.
Qed.

(** [unloadPluginsInOrder] in a state whose load order names registered
    plugins, each once. *)
Lemma unloadPluginsInOrder_Done s :
  NoDup (keys (pluginsMap s)) → NoDup (loadOrderList s) →
  (∀ n, n ∈ loadOrderList s → n ∈ keys (pluginsMap s)) →
  ∃ allUnloaded s',
    unloadPluginsInOrder s = Done (allUnloaded, s') ∧
    pluginsMap s' = [] ∧ locations s' = [] ∧
    loadOrderList s' = loadOrderList s ∧
    mainPluginName s' = mainPluginName s ∧
    trace s' = trace s ++
      (AboutToBeUnloaded <$>
         filter (λ n, holdsObject (pluginsMap s) n) (reverse (loadOrderList s))) ++
      (AboutToBeUnloaded <$>
         filter (λ n, holdsObject (pluginsMap s) n) (stragglers s)).
Proof.
  intros Hkeys Hnd Hreg. unfold unloadPluginsInOrder.
  destruct (unloadEach_Done (reverse (loadOrderList s)) true s)
    as (all1 & s1 & -> & Hmap1 & Htr1 & Hl1 & Ho1 & Hm1); [| |done|].
  { by rewrite reverse_Permutation. }
  { intros n Hn. apply Hreg. by apply elem_of_reverse. }
  destruct (unloadRemaining_Done (length (pluginsMap s1)) all1 s1)
    as (all2 & s2 & -> & Hmap2 & Htr2 & Hl2 & Ho2 & Hm2); [done| |].
  { rewrite Hmap1. by apply NoDup_keys_filter. }
  eexists _, _. split; [done|]. simpl.
  split_and!; [done|done|congruence|congruence|].
  rewrite Htr2, Htr1, <- app_assoc. do 2 f_equal.
  rewrite Hmap1. unfold stragglers. f_equal.
  set (order := loadOrderList s).
  assert (keys (filter (λ kp : string * Plugin, kp.1 ∉ reverse order)
                       (pluginsMap s))
          = filter (λ k, k ∉ order) (keys (pluginsMap s))) as ->.
  { rewrite keys_filter_notin.
    apply list_filter_iff. intros k. by rewrite elem_of_reverse. }
  apply filter_ext_elem. intros n [Hn _]%list_elem_of_filter.
  unfold holdsObject.
  assert (find n (filter (λ kp : string * Plugin, kp.1 ∉ reverse order)
                         (pluginsMap s))
          = find n (pluginsMap s)) as ->; [|done].
  apply find_filter_notin. by rewrite elem_of_reverse.
Qed.

Lemma unloadCalls_app tr names :
  unloadCalls (tr ++ (AboutToBeUnloaded <$> names)) = unloadCalls tr ++ names.
Proof.
  unfold unloadCalls. rewrite omap_app. f_equal.
  induction names as [|n names IH]; [done|]. simpl. f_equal. apply IH.
Qed.

Lemma unloadCalls_callback cb code data s :
  unloadCalls (trace (callback cb code data s)) = unloadCalls (trace s).
Proof.
  destruct cb; [|done]. simpl. unfold unloadCalls.
  rewrite omap_app. simpl. by rewrite app_nil_r.
Qed.


(** The calls of [aboutToBeUnloaded()] that [unloadPlugins] makes. *)
Lemma unloadPlugins_calls cb s :
  NoDup (keys (pluginsMap s)) → NoDup (loadOrderList s) →
  (∀ n, n ∈ loadOrderList s → n ∈ keys (pluginsMap s)) →
  ∃ retCode s',
    unloadPlugins cb s = Done (retCode, s') ∧
    trace s' = trace s ++
      (AboutToBeUnloaded <$>
         filter (λ n, holdsObject (pluginsMap s) n) (reverse (loadOrderList s)) ++
         filter (λ n, holdsObject (pluginsMap s) n) (stragglers s)) ++
      (if succeeded retCode then []
       else if cb then [Callback UNLOAD_NOT_ALL NoData] else []).
Proof.
  intros Hkeys Hnd Hreg. unfold unloadPlugins.
  destruct (unloadPluginsInOrder_Done s Hkeys Hnd Hreg)
    as (all & s' & -> & _ & _ & _ & _ & Htr).
  rewrite <- fmap_app in Htr.
  destruct all; eexists _, _; (split; [done|]); simpl.
  - by rewrite app_nil_r.
  - by rewrite TraceFacts.trace_callback, Htr, <- app_assoc.
Qed.

Lemma unloadEach_inv : ∀ names allUnloaded s allUnloaded' s',
  unloadEach names allUnloaded s = Done (allUnloaded', s') →
  locations s' = locations s ∧ loadOrderList s' = loadOrderList s ∧
  mainPluginName s' = mainPluginName s.
Proof.
  induction names as [|n names IH]; intros all s all' s' H; simpl in H.
  - by simplify_eq.
  - destruct (PlugMgrPrivate_unloadPlugin n s) as [[ok s1]| |] eqn:H1;
      try done.
    apply unloadPlugin_inv in H1 as (_ & ? & ? & ?).
    apply IH in H as (? & ? & ?). simpl in *. split_and!; congruence.
Qed.

Lemma unloadRemaining_inv : ∀ rounds allUnloaded s allUnloaded' s',
  unloadRemaining rounds allUnloaded s = Done (allUnloaded', s') →
  pluginsMap s' = [] ∧
  locations s' = locations s ∧ loadOrderList s' = loadOrderList s ∧
  mainPluginName s' = mainPluginName s.
Proof.
  induction rounds as [|rounds IH]; intros all s all' s' H; simpl in H.
  - destruct (pluginsMap s) as [|[k q] m] eqn:Hmap; [|done]. by simplify_eq.
  - destruct (pluginsMap s) as [|[k q] m] eqn:Hmap; [by simplify_eq|].
    destruct (PlugMgrPrivate_unloadPlugin k s) as [[ok s1]| |] eqn:H1;
      try done.
    apply unloadPlugin_inv in H1 as (_ & ? & ? & ?).
    apply IH in H as (? & ? & ? & ?). simpl in *. split_and!; congruence.
Qed.

Lemma unloadPlugins_inv cb s retCode s' :
  unloadPlugins cb s = Done (retCode, s') →
  pluginsMap s' = [] ∧ locations s' = [] ∧
  loadOrderList s' = loadOrderList s.
Proof.
  unfold unloadPlugins, unloadPluginsInOrder. intros H.
  destruct (unloadEach _ _ _) as [[all1 s1]| |] eqn:H1; try done.
  destruct (unloadRemaining _ _ _) as [[all2 s2]| |] eqn:H2; try done.
  apply unloadEach_inv in H1 as (_ & ? & _).
  apply unloadRemaining_inv in H2 as (? & _ & ? & _).
  destruct all2; simplify_eq; destruct cb; simpl; split_and!; congruence.
Qed.

End host.
End UnloadFacts.

(** ** Discovery *)

Module SearchFacts.
Import ManagerSpec RegistryFacts.

Section host.
Context `{host : Host}.

Lemma readString_holds key tree value :
  readString key tree = Some value ↔ holdsString key tree value.
Proof.
  unfold readString, holdsString, Json.at_, Json.get_string. split.
  - destruct tree as [| | | |elements|members]; try done. simpl.
    destruct (Json.member key members) as [[]|] eqn:Hm; try done.
    intros [= ->]. eauto.
  - intros (members & -> & Hm). simpl. by rewrite Hm.
Qed.

Lemma readDependency_entry jdep dep :
  readDependency jdep = Some dep → dependencyEntry jdep.
Proof.
  unfold readDependency, dependencyEntry. intros H.
  destruct (readString "name" jdep) as [name|] eqn:Hn; [|done].
  destruct (readString "version" jdep) as [version|] eqn:Hv; [|done].
  apply readString_holds in Hn, Hv. eauto.
Qed.

Lemma readDependencies_entries value deps :
  mapM readDependency (Json.items value) = Some deps → entriesOnly value.
Proof.
  intros H. apply mapM_Some_1 in H.
  assert (Forall dependencyEntry (Json.items value)) as Hall.
  { apply Forall_forall. intros jdep [i Hi]%list_elem_of_lookup_1.
    destruct (Forall2_lookup_l _ _ _ _ _ H Hi) as (dep & _ & Hdep).
    by eapply readDependency_entry. }
  destruct value as [|b|z|str|elements|members]; simpl in Hall.
  - constructor.
  - apply Forall_cons in Hall as [[[? (? & [=] & _)] _] _].
  - apply Forall_cons in Hall as [[[? (? & [=] & _)] _] _].
  - apply Forall_cons in Hall as [[[? (? & [=] & _)] _] _].
  - by constructor.
  - by constructor.
Qed.

(** Where the reads of [parseMetadata] all succeed, the value has the
    shape. *)
Lemma readInfo_wellShaped tree api info :
  readString "api" tree = Some api → readInfo tree = Some info →
  wellShaped tree.
Proof.
  unfold readInfo. intros Hapi H.
  destruct (readString "name" tree) as [name|] eqn:H1; [|done].
  destruct (readString "prettyName" tree) as [prettyName|] eqn:H2; [|done].
  destruct (readString "version" tree) as [version|] eqn:H3; [|done].
  destruct (readString "author" tree) as [author|] eqn:H4; [|done].
  destruct (readString "url" tree) as [url|] eqn:H5; [|done].
  destruct (readString "license" tree) as [license|] eqn:H6; [|done].
  destruct (readString "copyright" tree) as [copyright|] eqn:H7; [|done].
  simpl in H.
  destruct (Json.at_ "dependencies" tree) as [jsonDep|] eqn:H8; [|done].
  simpl in H.
  destruct (mapM readDependency (Json.items jsonDep)) as [deps|] eqn:H9;
    [|done].
  apply readDependencies_entries in H9.
  apply readString_holds in Hapi, H1, H2, H3, H4, H5, H6, H7.
  split.
  - repeat (apply Forall_cons; split; [by eexists|]). constructor.
  - destruct Hapi as (members & -> & _). simpl in H8. eauto.
Qed.

Lemma parseMetadata_defect metadata :
  metadataDefect metadata → PluginInfoStd.name (parseMetadata metadata) = "".
Proof.
  unfold parseMetadata.
  intros [->|(tree & -> & [Hshape|(api & Hapi & Hold)])]; [done| |].
  - destruct (readString "api" tree) as [api|] eqn:Hapi; [|done].
    destruct (Version_compatible _ _); [|done].
    destruct (readInfo tree) as [info|] eqn:Hinfo; [|done].
    destruct Hshape. by eapply readInfo_wellShaped.
  - apply readString_holds in Hapi. by rewrite Hapi, Hold.
Qed.

(** A value that conforms to the schema has the shape. *)
Lemma conformsToSchema_wellShaped tree :
  conformsToSchema tree → wellShaped tree.
Proof.
  intros (Hstrings & members & elements & -> & Hdeps & Hall).
  split; [done|]. eexists _, _. split_and!; [done..|]. by constructor.
Qed.

(** What one round of the search loop does, by the kind of candidate. *)
Lemma searchCandidate_not_plugin cb libPath acc :
  (∀ file name metadata, library_at libPath = Some file →
     ¬ candidate file name metadata) →
  searchCandidate cb libPath acc = acc.
Proof.
  intros Hnot. unfold searchCandidate. destruct acc as [found s].
  destruct (library_at libPath) as [file|] eqn:Hlib; [|done].
  destruct (jp_name file) as [name|] eqn:Hname; [|done].
  destruct (jp_metadata file) as [metadata|] eqn:Hmeta; [|done].
  destruct (jp_createPlugin file) eqn:Hcreate; [|done].
  by destruct (Hnot file name metadata eq_refl).
Qed.

Lemma searchCandidate_collision cb libPath found s file name metadata :
  library_at libPath = Some file → candidate file name metadata →
  name ∈ keys (pluginsMap s) →
  searchCandidate cb libPath (found, s) =
    (found, callback cb SEARCH_NAME_ALREADY_EXISTS (PathOf libPath) s).
Proof.
  intros Hlib (Hname & Hmeta & Hcreate) Hin%count_1. unfold searchCandidate.
  rewrite Hlib, Hname, Hmeta, Hcreate. by rewrite decide_True.
Qed.

Lemma searchCandidate_invalid cb libPath found s file name metadata :
  library_at libPath = Some file → candidate file name metadata →
  name ∉ keys (pluginsMap s) →
  PluginInfoStd.name (parseMetadata metadata) = "" →
  searchCandidate cb libPath (found, s) =
    (found, callback cb SEARCH_CANNOT_PARSE_METADATA (PathOf libPath) s).
Proof.
  intros Hlib (Hname & Hmeta & Hcreate) Hin Hinvalid. unfold searchCandidate.
  rewrite Hlib, Hname, Hmeta, Hcreate.
  rewrite decide_False by (by rewrite count_1). by rewrite decide_True.
Qed.

Lemma searchCandidate_admitted cb libPath found s file name metadata :
  library_at libPath = Some file → candidate file name metadata →
  name ∉ keys (pluginsMap s) →
  PluginInfoStd.name (parseMetadata metadata) ≠ "" →
  searchCandidate cb libPath (found, s) =
    (true,
     with_pluginsMap
       (assign name
          (mkPlugin libPath (Some file) (parseMetadata metadata) indeterminate
                    (-1) None false) (pluginsMap s)) s).
Proof.
  intros Hlib (Hname & Hmeta & Hcreate) Hin Hvalid. unfold searchCandidate.
  rewrite Hlib, Hname, Hmeta, Hcreate.
  rewrite decide_False by (by rewrite count_1). by rewrite decide_False.
Qed.

(** Every round leaves the registry as it is or adds one record under a
    new key, with an open library and no plugin object. *)
Lemma searchCandidate_step cb libPath found s :
  let r := searchCandidate cb libPath (found, s) in
  locations r.2 = locations s ∧ loadOrderList r.2 = loadOrderList s ∧
  mainPluginName r.2 = mainPluginName s ∧
  (pluginsMap r.2 = pluginsMap s ∨
   ∃ name plugin, name ∉ keys (pluginsMap s) ∧
     pluginsMap r.2 = assign name plugin (pluginsMap s) ∧
     path plugin = libPath ∧
     isLoaded (lib plugin) = true ∧ iplugin plugin = None).
Proof.
  simpl. unfold searchCandidate.
  destruct (library_at libPath) as [file|] eqn:Hlib; [|by auto].
  destruct (jp_name file) as [name|] eqn:Hname; [|by auto].
  destruct (jp_metadata file) as [metadata|] eqn:Hmeta; [|by auto].
  destruct (jp_createPlugin file) eqn:Hcreate; [|by auto].
  case_decide as Hcount.
  { destruct cb; simpl; auto. }
  case_decide as Hinvalid.
  { destruct cb; simpl; auto. }
  simpl. split_and!; try done. right. eexists _, _.
  split_and!; try done. by rewrite <- count_1.
Qed.

Lemma grownBySearch_refl s : uniqueKeys s → grownBySearch s s.
Proof. intros Hu. split_and!; auto. Qed.

Lemma grownBySearch_callback cb code data s :
  uniqueKeys s → grownBySearch s (callback cb code data s).
Proof. intros Hu. destruct cb; split_and!; auto. Qed.

Lemma grownBySearch_trans s1 s2 s3 :
  grownBySearch s1 s2 → grownBySearch s2 s3 → grownBySearch s1 s3.
Proof.
  intros (_ & Ho & Hm & Hkeep & Hnew) (Hu' & Ho' & Hm' & Hkeep' & Hnew').
  split_and!; [done|congruence|congruence|by auto|].
  intros k q Hq. destruct (Hnew' _ _ Hq) as [Hq2|(Hq2 & ? & ?)].
  - by apply Hnew.
  - right. split_and!; [|done..].
    destruct (find k (pluginsMap s1)) as [q1|] eqn:Hq1; [|done].
    apply Hkeep in Hq1. congruence.
Qed.

Lemma searchCandidate_grows cb libPath found s :
  uniqueKeys s → grownBySearch s (searchCandidate cb libPath (found, s)).2.
Proof.
  intros Hu.
  destruct (searchCandidate_step cb libPath found s)
    as (_ & Ho & Hm & [Hsame|(name & plugin & Hfresh & Hadd & _ & Hlib & Hobj)]).
  - split_and!; [|done|done|..].
    + unfold uniqueKeys. by rewrite Hsame.
    + rewrite Hsame. auto.
    + rewrite Hsame. auto.
  - split_and!; [|done|done|..].
    + unfold uniqueKeys. rewrite Hadd. by apply NoDup_keys_assign.
    + intros k q Hq. rewrite Hadd, find_assign, decide_False; [done|].
      intros ->. apply Hfresh, find_is_Some. by rewrite Hq.
    + intros k q. rewrite Hadd, find_assign. case_decide as Hk; [|by auto].
      intros [= <-]. subst k. right. split_and!; [|done..].
      by apply find_None.
Qed.

Lemma searchLoop_grows cb : ∀ libList found s,
  uniqueKeys s →
  grownBySearch s
    (fold_left (λ acc libPath, searchCandidate cb libPath acc) libList
               (found, s)).2.
Proof.
  induction libList as [|libPath libList IH]; intros found s Hu;
    cbn [fold_left].
  - by apply grownBySearch_refl.
  - pose proof (searchCandidate_grows cb libPath found s Hu) as Hstep.
    destruct (searchCandidate cb libPath (found, s)) as [found1 s1].
    simpl in Hstep.
    eapply grownBySearch_trans; [exact Hstep|]. apply IH. by destruct Hstep.
Qed.

(** A whole search keeps the records that were registered and the keys
    distinct, and every record it adds has an open library and no plugin
    object. *)
Lemma searchForPlugins_grows pluginDir recursive cb s :
  uniqueKeys s →
  grownBySearch s (searchForPlugins pluginDir recursive cb s).2.
Proof.
  intros Hu. unfold searchForPlugins.
  destruct (listLibrariesInDir pluginDir recursive) as [listed libList].
  set (s0 := if listed then s
             else callback cb SEARCH_LISTFILES_ERROR ErrnoMessage s).
  assert (grownBySearch s s0) as H0.
  { unfold s0. destruct listed;
      [by apply grownBySearch_refl | by apply grownBySearch_callback]. }
  destruct (negb listed && bool_decide (libList = [])); [done|].
  pose proof (searchLoop_grows cb libList false s0 (proj1 H0)) as Hloop.
  destruct (fold_left _ _ _) as [found s1]. simpl in Hloop.
  assert (grownBySearch s s1) as H1 by (by eapply grownBySearch_trans).
  destruct found; [|done]. simpl. by case_decide.
Qed.

(** C7, amended. For every metadata buffer that is not JSON, or whose
    JSON value is not an object that holds a string under each of [api],
    [name], [prettyName], [version], [author], [url], [license] and
    [copyright] and, under [dependencies], a value whose items are all
    objects that hold a string under [name] and under [version], or whose
    API version is not compatible with [JP_PLUGIN_API], [parseMetadata]
    yields a record with an empty name and the search does not admit the
    candidate; the callback, when one is passed, is called with
    [SEARCH_CANNOT_PARSE_METADATA] for the candidate if its [jp_name] is
    not registered yet, and with [SEARCH_NAME_ALREADY_EXISTS] if it is. *)
Theorem searchForPlugins_rejects_bad_metadata
    cb libPath found s file name metadata :
  library_at libPath = Some file → candidate file name metadata →
  metadataDefect metadata →
  PluginInfoStd.name (parseMetadata metadata) = "" ∧
  (searchCandidate cb libPath (found, s)).1 = found ∧
  pluginsMap (searchCandidate cb libPath (found, s)).2 = pluginsMap s ∧
  (name ∉ keys (pluginsMap s) →
     trace (searchCandidate cb libPath (found, s)).2 =
     trace s ++
     (if cb then [Callback SEARCH_CANNOT_PARSE_METADATA (PathOf libPath)]
      else [])) ∧
  (name ∈ keys (pluginsMap s) →
     trace (searchCandidate cb libPath (found, s)).2 =
     trace s ++
     (if cb then [Callback SEARCH_NAME_ALREADY_EXISTS (PathOf libPath)]
      else [])).
Proof.
  intros Hlib Hcand Hdefect.
  pose proof (parseMetadata_defect _ Hdefect) as Hinvalid.
  split; [done|].
  destruct (decide (name ∈ keys (pluginsMap s))) as [Hin|Hout].
  - rewrite (searchCandidate_collision _ _ _ _ _ _ _ Hlib Hcand Hin). simpl.
    split_and!; [done|by destruct cb|done|]. intros _.
    apply TraceFacts.trace_callback.
  - rewrite (searchCandidate_invalid _ _ _ _ _ _ _ Hlib Hcand Hout Hinvalid).
    simpl. split_and!; [done|by destruct cb| |done].
    intros _. apply TraceFacts.trace_callback.
Qed.

(** C9. Every record that a search adds to the registry has its library
    open and holds no plugin object: a plugin that was only discovered
    reports its library as loaded, and is not LIVE. *)
Theorem searchForPlugins_admits_open_library
    pluginDir recursive cb s name plugin :
  uniqueKeys s →
  find name (pluginsMap s) = None →
  find name (pluginsMap (searchForPlugins pluginDir recursive cb s).2)
    = Some plugin →
  isLoaded (lib plugin) = true ∧ iplugin plugin = None ∧
  isPluginLoaded name (searchForPlugins pluginDir recursive cb s).2 = false.
Proof.
  intros Hu Hnew Hfound.
  destruct (searchForPlugins_grows pluginDir recursive cb s Hu)
    as (_ & _ & _ & _ & Hadded).
  destruct (Hadded _ _ Hfound) as [Hold|(_ & Hlib & Hobj)]; [congruence|].
  split_and!; [done..|].
  unfold isPluginLoaded. rewrite Hfound, Hobj.
  by rewrite andb_false_r, andb_false_r.
Qed.

End host.
End SearchFacts.

(** ** Invariants of the operations *)

Module InvariantFacts.
Import ManagerSpec RegistryFacts CheckFacts LoadFacts UnloadFacts SearchFacts.

Section host.
Context `{host : Host}.

Lemma checkAll_sameInfos fuel tryToContinue cb :
  ∀ todo nodeList s early nodeList' s',
  checkAll fuel tryToContinue cb todo nodeList s = Done (early, nodeList', s') →
  sameInfos s s'.
Proof.
  induction todo as [|k todo IH]; intros nodeList s early nodeList' s' H;
    simpl in H.
  - by simplify_eq.
  - destruct (checkDependencies _ _ _ _) as [[rc s1]| |] eqn:Hc; try done.
    apply checkDependencies_frame, flagsOnly_sameInfos in Hc.
    assert (sameInfos s s1) as H1.
    { eapply sameInfos_trans; [|done]. by apply sameInfos_modify. }
    destruct (negb tryToContinue && negb (succeeded rc)); [by simplify_eq|].
    destruct (find k (pluginsMap s1)) as [p1|]; [|done].
    destruct (dependenciesExists p1);
      (eapply sameInfos_trans; [exact H1|]).
    + by eapply IH.
    + eapply sameInfos_trans; [|by eapply IH]. by apply sameInfos_modify.
    + by eapply IH.
Qed.

(** [loadPlugins] keeps the keys and the metadata of the registry. *)
Lemma loadPlugins_sameInfos fuel tryToContinue cb s retCode s' :
  loadPlugins fuel tryToContinue cb s = Done (retCode, s') → sameInfos s s'.
Proof.
  unfold loadPlugins. intros H.
  destruct (checkAll _ _ _ _ _ _) as [[[early nodeList] s1]| |] eqn:H1;
    try done.
  apply checkAll_sameInfos in H1.
  destruct early as [rc|]; [by simplify_eq|].
  destruct (fillParents _ _ _) as [nodeList'| |]; try done.
  destruct (Graph.topologicalSort _) as [[[error order] nodeList'']| |];
    try done.
  destruct error.
  { simplify_eq. eapply sameInfos_trans; [done|]. by destruct cb. }
  destruct (loadPluginsInOrder _) as [s3| |] eqn:H4; try done.
  destruct (callMainPlugin s3) as [s4| |] eqn:H5; try done.
  simplify_eq.
  apply loadEach_sameInfos in H4 as [H4 _].
  apply callMainPlugin_sameInfos in H5 as [H5 _].
  eapply sameInfos_trans; [done|]. eapply sameInfos_trans; [|done]. done.
Qed.

(** The targeted [loadPlugin] returns only where it builds no plugin
    object: the record is missing, its library is open, or its dependency
    check fails. With a closed library it has no factory to call. *)
Lemma loadPlugin_builds_nothing fuel pluginName s ok s' :
  loadPlugin fuel pluginName s = Done (ok, s') →
  flagsOnly s s' ∧
  (∀ k, iplugin <$> find k (pluginsMap s') = iplugin <$> find k (pluginsMap s)).
Proof.
  unfold loadPlugin. intros H.
  destruct (find pluginName (pluginsMap s)) as [plugin|] eqn:Hfind.
  2:{ simplify_eq. split; [apply flagsOnly_refl|done]. }
  destruct (isLoaded (lib plugin)) eqn:Hlib.
  { simplify_eq. split; [apply flagsOnly_refl|done]. }
  destruct (checkDependencies _ _ _ _) as [[rc s1]| |] eqn:Hc; try done.
  apply checkDependencies_frame in Hc.
  destruct (negb (succeeded rc)).
  - simplify_eq. split; [done|]. intros k.
    destruct Hc as (Hm & _). pose proof (find_sameButFlags k _ _ Hm) as Hk.
    destruct (find k (pluginsMap s')) as [p'|],
             (find k (pluginsMap s)) as [p|]; simpl in *; try done.
    apply (f_equal (fmap iplugin)) in Hk. by simpl in Hk.
  - exfalso. unfold PlugMgrPrivate_loadPlugin in H.
    destruct (find pluginName (pluginsMap s1)) as [plugin1|] eqn:Hfind1;
      [|done].
    destruct (flagsOnly_find _ _ _ _ Hc Hfind1) as (p & Hp & _ & _ & _ & Hl & _).
    rewrite Hfind in Hp. simplify_eq. rewrite Hl in H.
    by destruct (lib p).
Qed.

Lemma operations_keep_uniqueKeys : keepsUniqueKeys.
Proof.
  unfold keepsUniqueKeys, uniqueKeys. split_and!.
  - intros pluginDir recursive cb s Hu.
    by destruct (searchForPlugins_grows pluginDir recursive cb s Hu).
  - intros pluginName s Hu. unfold registerMainPlugin.
    destruct (_ && _); [|done]. simpl. by rewrite keys_update.
  - intros fuel tryToContinue cb s retCode s' Hu H.
    apply loadPlugins_sameInfos, sameInfos_keys in H. by rewrite H.
  - intros fuel pluginName s ok s' Hu H.
    apply loadPlugin_builds_nothing in H as [H _].
    apply flagsOnly_keys in H. by rewrite H.
  - intros cb s retCode s' H. apply unloadPlugins_inv in H as (-> & _).
    constructor.
Qed.


End host.
End InvariantFacts.

(** ** Load, unload and the broker *)

Module LifecycleFacts.
Import ManagerSpec RegistryFacts CheckFacts LoadFacts UnloadFacts SearchFacts
       InvariantFacts.

Section host.
Context `{host : Host}.

Lemma loadedCalls_emit e s :
  loadedCalls (trace (emit e s)) =
  loadedCalls (trace s) ++
  match e with Loaded key => [key] | _ => [] end.
Proof.
  simpl. unfold loadedCalls. rewrite omap_app.
  destruct e; simpl; by rewrite ?app_nil_r.
Qed.

Lemma loadPlugin_calls key s s' :
  PlugMgrPrivate_loadPlugin key s = Done s' →
  loadedCalls (trace s') = loadedCalls (trace s) ++ [key] ∧
  holdsObject (pluginsMap s') key = true ∧
  (∀ n, holdsObject (pluginsMap s) n = true →
        holdsObject (pluginsMap s') n = true).
Proof.
  unfold PlugMgrPrivate_loadPlugin. intros H.
  destruct (find key (pluginsMap s)) as [plugin|] eqn:Hfind; [|done].
  destruct (lib plugin) as [file|]; [|done].
  destruct (jp_createPlugin file); [|done].
  destruct (dependencyObjects _ _) as [objects|]; [|done]. simplify_eq.
  split_and!.
  - rewrite loadedCalls_emit.
    change (trace (modify key ?f ?s)) with (trace s).
    by rewrite loadedCalls_emit, app_nil_r.
  - unfold holdsObject. simpl. by rewrite find_update_eq, Hfind.
  - intros n. unfold holdsObject. simpl. rewrite find_update.
    case_decide; [|done]. by destruct (find n (pluginsMap s)).
Qed.

Lemma loadEach_calls : ∀ names s s',
  loadEach names s = Done s' →
  loadedCalls (trace s') = loadedCalls (trace s) ++ names ∧
  (∀ n, n ∈ names → holdsObject (pluginsMap s') n = true) ∧
  (∀ n, holdsObject (pluginsMap s) n = true →
        holdsObject (pluginsMap s') n = true).
Proof.
  induction names as [|name names IH]; intros s s' H; simpl in H.
  - simplify_eq. rewrite app_nil_r. split_and!; [done| |done].
    by intros n ?%elem_of_nil.
  - destruct (PlugMgrPrivate_loadPlugin name s) as [s1| |] eqn:H1; try done.
    apply loadPlugin_calls in H1 as (Htr1 & Hname & Hkeep1).
    apply IH in H as (Htr & Hall & Hkeep).
    split_and!.
    + rewrite Htr, Htr1, <- app_assoc. done.
    + intros n [->|Hn]%elem_of_cons; auto.
    + auto.
Qed.

(** After a successful [loadPlugins], the calls of [loaded()] it made are
    those of the load order, in this order, and every record of the load
    order holds a plugin object. *)
Lemma loadPlugins_loaded_calls fuel tryToContinue cb s s' :
  NoDup (keys (pluginsMap s)) →
  Z.of_nat (length (pluginsMap s)) < 2 ^ 31 →
  loadPlugins fuel tryToContinue cb s = Done (SUCCESS, s') →
  loadedCalls (trace s') = loadedCalls (trace s) ++ loadOrderList s' ∧
  (∀ n, n ∈ loadOrderList s' → holdsObject (pluginsMap s') n = true).
Proof.
  intros Hnd Hsize H.
  destruct (loadPlugins_stages _ _ _ _ _ H)
    as (nodeList & s1 & nl & order & nl' & s3 & H1 & H2 & H3 & H4 & H5).
  destruct (loadPlugins_graph _ _ _ _ _ _ _ Hnd Hsize H1 H2)
    as (ns & _ & _ & _ & Htr1).
  pose proof (loadEach_sameInfos _ _ _ H4) as [_ Hord3].
  apply loadEach_calls in H4 as (Htr3 & Hall & _). simpl in Htr3, Hord3.
  unfold callMainPlugin in H5.
  assert (pluginsMap s' = pluginsMap s3 ∧
          loadOrderList s' = loadOrderList s3 ∧
          loadedCalls (trace s') = loadedCalls (trace s3)) as (Hm & Ho & Ht).
  { case_decide; [by simplify_eq|].
    destruct (find _ _) as [plugin|]; [|done].
    destruct (iplugin plugin); [|done]. simplify_eq.
    split_and!; [done..|]. by rewrite loadedCalls_emit, app_nil_r. }
  rewrite Hm, Ho, Ht, Hord3, Htr3, Htr1. done.
Qed.

(** The reverse unload of C2, where it holds: for every call of
    [unloadPlugins] in a state whose load order names registered plugins,
    each once, the call returns and [aboutToBeUnloaded()] is called on the
    plugin objects of the records of the load order in exactly the reverse
    of the load order, and only after them on the plugin objects of the
    records that are not in the load order. When the state is the one a
    successful [loadPlugins] left, the load order is the order in which
    this [loadPlugins] called [loaded()], and each of its records holds a
    plugin object. *)
Theorem unloadPlugins_reverse_order cb s :
  NoDup (keys (pluginsMap s)) → NoDup (loadOrderList s) →
  (∀ n, n ∈ loadOrderList s → n ∈ keys (pluginsMap s)) →
  ∃ retCode s',
    unloadPlugins cb s = Done (retCode, s') ∧
    unloadCalls (trace s') =
      unloadCalls (trace s) ++
      filter (λ n, holdsObject (pluginsMap s) n) (reverse (loadOrderList s)) ++
      filter (λ n, holdsObject (pluginsMap s) n) (stragglers s) ∧
    ∀ fuel tryToContinue cb0 s0,
      NoDup (keys (pluginsMap s0)) →
      Z.of_nat (length (pluginsMap s0)) < 2 ^ 31 →
      loadPlugins fuel tryToContinue cb0 s0 = Done (SUCCESS, s) →
      loadedCalls (trace s) = loadedCalls (trace s0) ++ loadOrderList s ∧
      filter (λ n, holdsObject (pluginsMap s) n) (reverse (loadOrderList s))
        = reverse (loadOrderList s).
Proof.
  intros Hkeys Hnd Hreg.
  destruct (unloadPlugins_calls cb s Hkeys Hnd Hreg) as (retCode & s' & H & Htr).
  exists retCode, s'. split_and!; [done| |].
  - rewrite Htr, app_assoc. unfold unloadCalls at 1. rewrite omap_app.
    fold (unloadCalls (trace s ++ (AboutToBeUnloaded <$>
            filter (λ n, holdsObject (pluginsMap s) n)
                   (reverse (loadOrderList s)) ++
            filter (λ n, holdsObject (pluginsMap s) n) (stragglers s)))).
    rewrite unloadCalls_app.
    destruct (succeeded retCode); [by rewrite app_nil_r|].
    destruct cb; simpl; by rewrite app_nil_r.
  - intros fuel tryToContinue cb0 s0 Hnd0 Hsize0 Hload.
    destruct (loadPlugins_loaded_calls _ _ _ _ _ Hnd0 Hsize0 Hload)
      as [Hcalls Hall].
    split; [done|]. apply filter_all, Forall_forall.
    intros n Hn. rewrite elem_of_reverse in Hn. by rewrite (Hall _ Hn).
Qed.

Lemma no_record_without_key name (m : PluginsMap) :
  name ∉ keys m → filter (λ kp, kp.1 = name) m = [].
Proof.
  unfold keys. induction m as [|[k q] m IH]; [done|].
  rewrite fmap_cons. simpl fst. intros Hout.
  rewrite filter_cons_False.
  - apply IH. intros Hin. apply Hout. by right.
  - simpl. intros ->. apply Hout. by left.
Qed.

Lemma one_record_per_key name (m : PluginsMap) :
  NoDup (keys m) → name ∈ keys m →
  length (filter (λ kp, kp.1 = name) m) = 1%nat.
Proof.
  unfold keys. induction m as [|[k q] m IH]; [by intros _ ?%elem_of_nil|].
  rewrite fmap_cons. simpl fst. intros [Hk Hnd]%NoDup_cons Hin.
  rewrite filter_cons. simpl fst. destruct (decide (k = name)) as [->|Hne].
  - simpl. by rewrite no_record_without_key.
  - apply IH; [done|]. by apply elem_of_cons in Hin as [?|?].
Qed.

(** C8. When, during a search, a candidate library exports a [jp_name] that
    is the key of a record of the registry, the callback (when one is
    passed) is called with [SEARCH_NAME_ALREADY_EXISTS], the candidate is
    dropped, and to the end of the search the registry holds exactly one
    record under that name, the one it held before; every operation keeps
    the keys of the registry distinct. *)
Theorem searchForPlugins_name_collision
    cb libPath found s file name metadata :
  uniqueKeys s →
  library_at libPath = Some file → candidate file name metadata →
  name ∈ keys (pluginsMap s) →
  (searchCandidate cb libPath (found, s)).1 = found ∧
  trace (searchCandidate cb libPath (found, s)).2 =
    trace s ++
    (if cb then [Callback SEARCH_NAME_ALREADY_EXISTS (PathOf libPath)] else []) ∧
  pluginsMap (searchCandidate cb libPath (found, s)).2 = pluginsMap s ∧
  (∀ libList,
     let s' := (fold_left (λ acc p, searchCandidate cb p acc) libList
                          (searchCandidate cb libPath (found, s))).2 in
     length (filter (λ kp, kp.1 = name) (pluginsMap s')) = 1%nat ∧
     find name (pluginsMap s') = find name (pluginsMap s)) ∧
  keepsUniqueKeys.
Proof.
  intros Hu Hlib Hcand Hin.
  rewrite (searchCandidate_collision _ _ _ _ _ _ _ Hlib Hcand Hin). simpl.
  split_and!; [done|apply TraceFacts.trace_callback|by destruct cb| |].
  - intros libList.
    destruct (searchLoop_grows cb libList found
                (callback cb SEARCH_NAME_ALREADY_EXISTS (PathOf libPath) s))
      as (Hu' & _ & _ & Hkeep & _).
    { unfold uniqueKeys. by destruct cb. }
    apply find_is_Some in Hin as [q Hq].
    assert (find name (pluginsMap
              (callback cb SEARCH_NAME_ALREADY_EXISTS (PathOf libPath) s))
            = Some q) as Hq' by (by destruct cb).
    apply Hkeep in Hq'. split; [|congruence].
    apply one_record_per_key; [done|]. apply find_is_Some. by rewrite Hq'.
  - apply operations_keep_uniqueKeys.
Qed.

Lemma isPluginLoaded_LIVE name s :
  isPluginLoaded name s = true ↔ LIVE name s.
Proof.
  unfold isPluginLoaded, hasPlugin, LIVE, count. split.
  - intros H. destruct (find name (pluginsMap s)) as [plugin|]; [|done].
    simpl in H. apply andb_true_iff in H as [Hlib Hobj].
    apply bool_decide_eq_true in Hobj. eauto.
  - intros (plugin & -> & Hlib & Hobj). simpl. rewrite Hlib. simpl.
    by apply bool_decide_eq_true.
Qed.

(** C6. For every call [getNonDepPlugin(sender, pluginName)] whose sender
    names a record of the registry, the result is a non-null pointer if and
    only if the record of the sender has [isMainPlugin] set and the target
    plugin is LIVE, and a non-null result is the plugin object that the
    record of the target holds. *)
Theorem getNonDepPlugin_main_privilege sender pluginName s senderPlugin :
  find sender (pluginsMap s) = Some senderPlugin →
  ∃ result,
    getNonDepPlugin sender pluginName s = Done result ∧
    (is_Some result ↔ isMainPlugin senderPlugin = true ∧ LIVE pluginName s) ∧
    (∀ object, result = Some object →
       ∃ plugin, find pluginName (pluginsMap s) = Some plugin ∧
                 iplugin plugin = Some object).
Proof.
  intros Hsender. unfold getNonDepPlugin. rewrite Hsender.
  destruct (isMainPlugin senderPlugin).
  2:{ exists None. split_and!; [done| |done].
      split; [by intros [? ?]|by intros [? _]]. }
  destruct (isPluginLoaded pluginName s) eqn:Hloaded.
  - pose proof (proj1 (isPluginLoaded_LIVE _ _) Hloaded)
      as (plugin & Hfind & Hlib & Hobj).
    rewrite Hfind. exists (iplugin plugin). split_and!; [done| |by eauto].
    split; [|done]. intros _. split; [done|]. by exists plugin.
  - exists None. split_and!; [done| |done].
    split; [by intros [? ?]|]. intros [_ Hlive].
    apply isPluginLoaded_LIVE in Hlive. congruence.
Qed.

(** What [checkDependencies] answers for a record whose flag is
    determined: [SUCCESS] for yes, and for no a code that tells whether the
    name of the record itself is registered, whatever the first check
    answered; the state is left as it is. *)
Lemma checkDependencies_cached fuel cb key s plugin :
  find key (pluginsMap s) = Some plugin →
  dependenciesExists plugin ≠ indeterminate →
  checkDependencies (S fuel) cb key s =
    Done (match dependenciesExists plugin with
          | tri_false =>
              if decide (PluginInfoStd.name (info plugin) ∈ keys (pluginsMap s))
              then LOAD_DEPENDENCY_BAD_VERSION
              else LOAD_DEPENDENCY_NOT_FOUND
          | _ => SUCCESS
          end, s).
Proof.
  intros Hfind Hflag. simpl. rewrite Hfind.
  destruct (dependenciesExists plugin); [done|done|].
  do 2 f_equal. case_decide as Hcount.
  - apply count_0 in Hcount. by rewrite decide_False.
  - rewrite decide_True; [done|].
    destruct (decide (PluginInfoStd.name (info plugin) ∈ keys (pluginsMap s)));
      [done|]. by apply count_0 in n.
Qed.

End host.
End LifecycleFacts.

(** ** The properties on the example host *)

Module Examples.
Import ManagerSpec.

Ltac decided :=
  match goal with
  | |- ?P => apply (bool_decide_unpack P); vm_compute; exact I
  end.

Ltac computed :=
  repeat match goal with |- _ ∧ _ => split end; vm_compute; reflexivity.

Example sort_chain :
  Graph.topologicalSort
    [Graph.mkNode "B" [1] Graph.UNMARKED; Graph.mkNode "A" [] Graph.UNMARKED]
  = Done (false, ["A"; "B"],
          [Graph.mkNode "B" [1] Graph.MARK_PERMANENT;
           Graph.mkNode "A" [] Graph.MARK_PERMANENT]).
Proof. reflexivity. Qed.

Example sort_twoCycle :
  Graph.topologicalSort Demo.twoCycle
  = Done (true, [],
          [Graph.mkNode "A" [1] Graph.MARK_TEMP;
           Graph.mkNode "B" [0] Graph.MARK_TEMP]).
Proof. reflexivity. Qed.

Example version_compatible :
  Version.compatible "1.2.3" "1.2.3" = true ∧
  Version.compatible "1.2.3" "1.2.4" = false ∧
  Version.compatible "1.2.3" "1.1.9" = true ∧
  Version.compatible "1.2.3" "2.0.0" = false.
Proof. computed. Qed.

Example search_more :
  keys (pluginsMap Demo.discoveredMore) = ["B"; "A"; "C"] ∧
  trace Demo.discoveredMore =
    [Callback SEARCH_NAME_ALREADY_EXISTS (PathOf "more/libA.so");
     Callback SEARCH_CANNOT_PARSE_METADATA (PathOf "more/libOld.so");
     Callback SEARCH_CANNOT_PARSE_METADATA (PathOf "more/libBroken.so")].
Proof. computed. Qed.

Example load_then_unload :
  loadOrderList Demo.loaded = ["A"; "B"] ∧
  unloadPlugins true Demo.loaded = Done (SUCCESS, Demo.unloaded) ∧
  trace Demo.unloaded =
    [Created "A" [] false; Loaded "A";
     Created "B" [Some (InstanceOf "plugins/libA.so")] false;
     Loaded "B"; AboutToBeUnloaded "B"; AboutToBeUnloaded "A"].
Proof. computed. Qed.

(** The witness of C5: the search of two nodes that are the parent of
    each other. *)
Lemma topologicalSort_cycle_witness :
  Graph.unmarked Demo.twoCycle ∧ Graph.parentsInRange Demo.twoCycle ∧
  Graph.hasCycle Demo.twoCycle ∧
  ∃ nl', Graph.topologicalSort Demo.twoCycle = Done (true, [], nl').
Proof.
  assert (Graph.unmarked Demo.twoCycle) as H1.
  { repeat constructor. }
  assert (Graph.parentsInRange Demo.twoCycle) as H2.
  { repeat constructor; simpl; lia. }
  assert (Graph.hasCycle Demo.twoCycle) as H3.
  { exists 0%nat. apply (tc_l _ 0%nat 1%nat 0%nat); [|apply tc_once].
    - eexists. split; [reflexivity|]. simpl. left.
    - eexists. split; [reflexivity|]. simpl. left. }
  do 3 (split; [done|]).
  exact (GraphFacts.topologicalSort_cycle Demo.twoCycle H1 H2 H3).
Defined.

(** The witness of C1: the load of the plugins found in [plugins], where
    [B] depends on [A] and stands before it in the registry. *)
Lemma loadPlugins_order_witness :
  NoDup (keys (pluginsMap Demo.discovered)) ∧
  Z.of_nat (length (pluginsMap Demo.discovered)) < 2 ^ 31 ∧
  loadPlugins (host := Demo.host) 4 true true Demo.discovered
    = Done (SUCCESS, Demo.loaded) ∧
  loadOrderList Demo.loaded = ["A"; "B"] ∧
  (NoDup (loadOrderList Demo.loaded) ∧
   (∀ P, P ∈ loadOrderList Demo.loaded → P ∈ keys (pluginsMap Demo.loaded)) ∧
   ∀ (j : nat) P plugin D,
     loadOrderList Demo.loaded !! j = Some P →
     find P (pluginsMap Demo.loaded) = Some plugin →
     D ∈ dependencyNames plugin →
     ∃ i : nat, (i < j)%nat ∧ loadOrderList Demo.loaded !! i = Some D).
Proof.
  assert (NoDup (keys (pluginsMap Demo.discovered))) as H1 by decided.
  assert (Z.of_nat (length (pluginsMap Demo.discovered)) < 2 ^ 31) as H2
    by (vm_compute; reflexivity).
  assert (loadPlugins (host := Demo.host) 4 true true Demo.discovered
          = Done (SUCCESS, Demo.loaded)) as H3 by (vm_compute; reflexivity).
  do 3 (split; [done|]). split; [vm_compute; reflexivity|].
  exact (LoadFacts.loadPlugins_order_respects_dependencies
           4 true true Demo.discovered Demo.loaded H1 H2 H3).
Defined.

(** The witness of C2: the unload of the plugins of [plugins] after their
    load. *)
Lemma unloadPlugins_reverse_order_witness :
  NoDup (keys (pluginsMap Demo.loaded)) ∧
  NoDup (loadOrderList Demo.loaded) ∧
  (∀ n, n ∈ loadOrderList Demo.loaded → n ∈ keys (pluginsMap Demo.loaded)) ∧
  ∃ retCode s',
    unloadPlugins true Demo.loaded = Done (retCode, s') ∧
    unloadCalls (trace s') =
      unloadCalls (trace Demo.loaded) ++
      filter (λ n, holdsObject (pluginsMap Demo.loaded) n)
             (reverse (loadOrderList Demo.loaded)) ++
      filter (λ n, holdsObject (pluginsMap Demo.loaded) n)
             (stragglers Demo.loaded) ∧
    ∀ fuel tryToContinue cb0 s0,
      NoDup (keys (pluginsMap s0)) →
      Z.of_nat (length (pluginsMap s0)) < 2 ^ 31 →
      loadPlugins (host := Demo.host) fuel tryToContinue cb0 s0
        = Done (SUCCESS, Demo.loaded) →
      loadedCalls (trace Demo.loaded)
        = loadedCalls (trace s0) ++ loadOrderList Demo.loaded ∧
      filter (λ n, holdsObject (pluginsMap Demo.loaded) n)
             (reverse (loadOrderList Demo.loaded))
        = reverse (loadOrderList Demo.loaded).
Proof.
  assert (NoDup (keys (pluginsMap Demo.loaded))) as H1 by decided.
  assert (NoDup (loadOrderList Demo.loaded)) as H2 by decided.
  assert (∀ n, n ∈ loadOrderList Demo.loaded →
               n ∈ keys (pluginsMap Demo.loaded)) as H3.
  { apply Forall_forall. decided. }
  do 3 (split; [done|]).
  exact (LifecycleFacts.unloadPlugins_reverse_order (host := Demo.host)
           true Demo.loaded H1 H2 H3).
Defined.

(** The witness of C6: [B], the main plugin, asks for [A], which is LIVE. *)
Lemma getNonDepPlugin_main_privilege_witness :
  find "B" (pluginsMap Demo.loadedWithMain)
    = Some (Demo.recordOf "B" Demo.loadedWithMain) ∧
  ∃ result,
    getNonDepPlugin "B" "A" Demo.loadedWithMain = Done result ∧
    (is_Some result ↔
     isMainPlugin (Demo.recordOf "B" Demo.loadedWithMain) = true ∧
     LIVE "A" Demo.loadedWithMain) ∧
    (∀ object, result = Some object →
       ∃ plugin, find "A" (pluginsMap Demo.loadedWithMain) = Some plugin ∧
                 iplugin plugin = Some object).
Proof.
  assert (find "B" (pluginsMap Demo.loadedWithMain)
          = Some (Demo.recordOf "B" Demo.loadedWithMain)) as H
    by (vm_compute; reflexivity).
  split; [exact H|].
  exact (LifecycleFacts.getNonDepPlugin_main_privilege
           "B" "A" Demo.loadedWithMain _ H).
Defined.

Example main_plugin_reaches_A :
  getNonDepPlugin "B" "A" Demo.loadedWithMain
    = Done (Some (InstanceOf "plugins/libA.so")) ∧
  getNonDepPlugin "A" "B" Demo.loadedWithMain = Done None ∧
  getNonDepPlugin "B" "C" Demo.loadedWithMain = Done None.
Proof. computed. Qed.

(** The witness of C7 as amended: the library [more/libBroken.so], whose
    metadata is not JSON and whose name is not registered. *)
Lemma searchForPlugins_rejects_bad_metadata_witness :
  Demo.library "more/libBroken.so" = Some (Demo.pluginFile "Broken" "not JSON") ∧
  candidate (Demo.pluginFile "Broken" "not JSON") "Broken" "not JSON" ∧
  metadataDefect (host := Demo.host) "not JSON" ∧
  PluginInfoStd.name (parseMetadata (host := Demo.host) "not JSON") = "" ∧
  (searchCandidate (host := Demo.host) true "more/libBroken.so"
     (false, Demo.discovered)).1 = false ∧
  pluginsMap (searchCandidate (host := Demo.host) true "more/libBroken.so"
                (false, Demo.discovered)).2 = pluginsMap Demo.discovered ∧
  ("Broken" ∉ keys (pluginsMap Demo.discovered) →
     trace (searchCandidate (host := Demo.host) true "more/libBroken.so"
              (false, Demo.discovered)).2 =
     trace Demo.discovered ++
     [Callback SEARCH_CANNOT_PARSE_METADATA (PathOf "more/libBroken.so")]) ∧
  ("Broken" ∈ keys (pluginsMap Demo.discovered) →
     trace (searchCandidate (host := Demo.host) true "more/libBroken.so"
              (false, Demo.discovered)).2 =
     trace Demo.discovered ++
     [Callback SEARCH_NAME_ALREADY_EXISTS (PathOf "more/libBroken.so")]).
Proof.
  assert (Demo.library "more/libBroken.so"
          = Some (Demo.pluginFile "Broken" "not JSON")) as H1 by (vm_compute; reflexivity).
  assert (candidate (Demo.pluginFile "Broken" "not JSON") "Broken" "not JSON")
    as H2 by (unfold candidate; computed).
  assert (metadataDefect (host := Demo.host) "not JSON") as H3
    by (left; vm_compute; reflexivity).
  do 3 (split; [done|]).
  exact (SearchFacts.searchForPlugins_rejects_bad_metadata
           (host := Demo.host) true "more/libBroken.so" false Demo.discovered
           _ "Broken" "not JSON" H1 H2 H3).
Defined.

(** The counterexample of C7 as stated: the library [more/libA.so] has
    metadata that is not JSON, and the search that meets it calls the
    callback with [SEARCH_NAME_ALREADY_EXISTS] and never with
    [SEARCH_CANNOT_PARSE_METADATA] for it, because its name is registered. *)
Lemma name_collision_hides_bad_metadata :
  "more/libA.so" ∈ (Demo.listing "more" false).2 ∧
  Demo.library "more/libA.so" = Some (Demo.pluginFile "A" "not JSON") ∧
  candidate (Demo.pluginFile "A" "not JSON") "A" "not JSON" ∧
  metadataDefect (host := Demo.host) "not JSON" ∧
  Callback SEARCH_CANNOT_PARSE_METADATA (PathOf "more/libA.so")
    ∉ trace (searchForPlugins (host := Demo.host) "more" false true
               Demo.discovered).2 ∧
  Callback SEARCH_NAME_ALREADY_EXISTS (PathOf "more/libA.so")
    ∈ trace (searchForPlugins (host := Demo.host) "more" false true
               Demo.discovered).2.
Proof.
  split_and!.
  - decided.
  - vm_compute; reflexivity.
  - unfold candidate; computed.
  - left. vm_compute; reflexivity.
  - decided.
  - decided.
Qed.

(** The witness of C8: the library [more/libA.so] exports the name [A],
    which is registered. *)
Lemma searchForPlugins_name_collision_witness :
  uniqueKeys Demo.discovered ∧
  Demo.library "more/libA.so" = Some (Demo.pluginFile "A" "not JSON") ∧
  candidate (Demo.pluginFile "A" "not JSON") "A" "not JSON" ∧
  "A" ∈ keys (pluginsMap Demo.discovered) ∧
  (searchCandidate (host := Demo.host) true "more/libA.so"
     (false, Demo.discovered)).1 = false ∧
  trace (searchCandidate (host := Demo.host) true "more/libA.so"
           (false, Demo.discovered)).2 =
    trace Demo.discovered ++
    [Callback SEARCH_NAME_ALREADY_EXISTS (PathOf "more/libA.so")] ∧
  pluginsMap (searchCandidate (host := Demo.host) true "more/libA.so"
                (false, Demo.discovered)).2 = pluginsMap Demo.discovered ∧
  (∀ libList,
     let s' := (fold_left
                  (λ acc p, searchCandidate (host := Demo.host) true p acc)
                  libList
                  (searchCandidate (host := Demo.host) true "more/libA.so"
                     (false, Demo.discovered))).2 in
     length (filter (λ kp, kp.1 = "A") (pluginsMap s')) = 1%nat ∧
     find "A" (pluginsMap s') = find "A" (pluginsMap Demo.discovered)) ∧
  keepsUniqueKeys (host := Demo.host).
Proof.
  assert (uniqueKeys Demo.discovered) as H1 by (unfold uniqueKeys; decided).
  assert (Demo.library "more/libA.so"
          = Some (Demo.pluginFile "A" "not JSON")) as H2 by (vm_compute; reflexivity).
  assert (candidate (Demo.pluginFile "A" "not JSON") "A" "not JSON") as H3
    by (unfold candidate; computed).
  assert ("A" ∈ keys (pluginsMap Demo.discovered)) as H4 by decided.
  do 4 (split; [done|]).
  exact (LifecycleFacts.searchForPlugins_name_collision (host := Demo.host)
           true "more/libA.so" false Demo.discovered _ "A" "not JSON"
           H1 H2 H3 H4).
Defined.

(** The witness of C9: the record of [A] after the search of [plugins]. *)
Lemma searchForPlugins_admits_open_library_witness :
  uniqueKeys emptyManager ∧
  find "A" (pluginsMap emptyManager) = None ∧
  find "A" (pluginsMap (searchForPlugins (host := Demo.host) "plugins" false
                          true emptyManager).2)
    = Some (Demo.recordOf "A" Demo.discovered) ∧
  isLoaded (lib (Demo.recordOf "A" Demo.discovered)) = true ∧
  iplugin (Demo.recordOf "A" Demo.discovered) = None ∧
  isPluginLoaded "A" (searchForPlugins (host := Demo.host) "plugins" false
                        true emptyManager).2 = false.
Proof.
  assert (uniqueKeys emptyManager) as H1 by constructor.
  assert (find "A" (pluginsMap emptyManager) = None) as H2 by reflexivity.
  assert (find "A" (pluginsMap (searchForPlugins (host := Demo.host) "plugins"
                                  false true emptyManager).2)
          = Some (Demo.recordOf "A" Demo.discovered)) as H3
    by (vm_compute; reflexivity).
  do 3 (split; [done|]).
  exact (SearchFacts.searchForPlugins_admits_open_library (host := Demo.host)
           "plugins" false true emptyManager "A" _ H1 H2 H3).
Defined.

(** C3 on the plugin [C], whose dependency [Z] is not registered: the
    first check answers [LOAD_DEPENDENCY_NOT_FOUND] and sets the flag to no,
    and the check of the record with this flag answers
    [LOAD_DEPENDENCY_BAD_VERSION]; so do two calls of [loadPlugins] that
    stop at the first failure. *)
Lemma checkDependencies_cached_code_differs :
  checkDependencies (host := Demo.host) 4 true "C" Demo.discoveredMore
    = Done (LOAD_DEPENDENCY_NOT_FOUND, Demo.checkedC) ∧
  dependenciesExists (Demo.recordOf "C" Demo.checkedC) = tri_false ∧
  checkDependencies (host := Demo.host) 4 true "C" Demo.checkedC
    = Done (LOAD_DEPENDENCY_BAD_VERSION, Demo.checkedC) ∧
  loadPlugins (host := Demo.host) 4 false true Demo.discoveredMore
    = Done (LOAD_DEPENDENCY_NOT_FOUND, Demo.stoppedOnce) ∧
  loadPlugins (host := Demo.host) 4 false true Demo.stoppedOnce
    = Done (LOAD_DEPENDENCY_BAD_VERSION, Demo.stoppedTwice).
Proof. computed. Qed.

(** C4 on the plugin [A], which was discovered and is not LIVE, and whose
    dependency check succeeds: [loadPlugin] returns true and leaves the
    manager as it is, so that [A] is still not LIVE; and on the plugin
    [C], whose dependency check fails: [loadPlugin] returns true. *)
Lemma loadPlugin_skips_discovered_plugin :
  isPluginLoaded "A" Demo.discovered = false ∧
  checkDependencies (host := Demo.host) 4 false "A" Demo.discovered
    = Done (SUCCESS, Demo.checkedA) ∧
  loadPlugin (host := Demo.host) 4 "A" Demo.discovered
    = Done (true, Demo.discovered) ∧
  trace Demo.discovered = [] ∧
  checkDependencies (host := Demo.host) 4 true "C" Demo.discoveredMore
    = Done (LOAD_DEPENDENCY_NOT_FOUND, Demo.checkedC) ∧
  loadPlugin (host := Demo.host) 4 "C" Demo.discoveredMore
    = Done (true, Demo.discoveredMore).
Proof. computed. Qed.

End Examples.

(** * Further properties *)

(** ** The sort of a graph without a cycle *)

Module SortFacts.
Import Graph GraphSpec GraphFacts.

Lemma edge_advances nl nl' x y : advances nl nl' → edge nl' x y ↔ edge nl x y.
Proof.
  intros Hadv. unfold edge. split.
  - intros (n' & Hn' & Hy).
    destruct (advances_lookup_r _ _ _ _ Hadv Hn') as (n & Hn & _ & Hpar & _).
    exists n. by rewrite <- Hpar.
  - intros (n & Hn & Hy).
    destruct (advances_lookup _ _ _ _ Hadv Hn) as (n' & Hn' & _ & Hpar & _).
    exists n'. by rewrite Hpar.
Qed.

Lemma edge_setFlag f (i : nat) (nl : NodeList) x y :
  edge (alter (setFlag f) i nl) x y ↔ edge nl x y.
Proof.
  unfold edge. destruct (decide (i = x)) as [<-|Hne].
  - rewrite list_lookup_alter_eq. destruct (nl !! i) as [n|]; simpl.
    + split; intros (n' & ? & ?); simplify_eq/=; eauto.
    + split; by intros (? & ? & ?).
  - by rewrite list_lookup_alter_ne.
Qed.

Lemma tc_edge_iff (nl nl' : NodeList) :
  (∀ x y, edge nl' x y ↔ edge nl x y) →
  ∀ x y, tc (edge nl') x y → tc (edge nl) x y.
Proof.
  intros Hiff x y H. induction H as [x y H|x y z H _ IH].
  - apply tc_once. by apply Hiff.
  - eapply tc_l; [|done]. by apply Hiff.
Qed.

Lemma hasCycle_iff (nl nl' : NodeList) :
  (∀ x y, edge nl' x y ↔ edge nl x y) → hasCycle nl' → hasCycle nl.
Proof. intros Hiff [v Hv]. exists v. by eapply tc_edge_iff. Qed.

(** A visit is refused only at a node marked for the time of its visit;
    when every node so marked reaches the node visited, a refusal shows a
    cycle. *)
Lemma visitNode_refused fuel : ∀ i nl out nl' out',
  visitNode fuel i nl out = Done (false, nl', out') →
  (∀ (t : nat) node, nl !! t = Some node → flag node = MARK_TEMP →
     tc (edge nl) t i) →
  hasCycle nl.
Proof.
  induction fuel as [|fuel IH]; intros i nl out nl' out' H Htemp; [done|].
  simpl in H. destruct (nl !! i) as [node|] eqn:Hi; [|done].
  destruct (flag node) eqn:Hflag; [|by exists i; eapply Htemp|done].
  set (nlT := alter (setFlag MARK_TEMP) i nl) in *.
  assert (∀ ps nl1 out1,
            (∀ p, p ∈ ps → p ∈ parentNodes node) →
            advances nlT nl1 →
            visitParents (visitNode fuel) ps nl1 out1 = Done (false, nl', out') →
            hasCycle nl) as Hloop.
  { induction ps as [|p ps IHps]; intros nl1 out1 Hps Hadv Hv; [done|].
    simpl in Hv. unfold nodeIndex in Hv. case_decide as Hp; [|done].
    assert (∀ x y, edge nl1 x y ↔ edge nl x y) as Hedge.
    { intros x y. rewrite (edge_advances _ _ _ _ Hadv). apply edge_setFlag. }
    destruct (visitNode fuel (Z.to_nat p) nl1 out1)
      as [[[[] nl2] out2]| |] eqn:Hvisit; try done.
    - eapply (IHps nl2 out2); [|by eapply advances_trans,
                                  visitNode_advances|done].
      intros q Hq. apply Hps. by right.
    - simplify_eq. apply (hasCycle_iff _ _ Hedge).
      eapply IH; [done|]. intros t n1 Ht Hf.
      destruct (advances_lookup_r _ _ _ _ Hadv Ht) as (nT & HnT & _ & _ & Hfl).
      assert (flag nT = MARK_TEMP) as HfT by (destruct Hfl as [?|[? ?]]; congruence).
      assert (edge nl i (Z.to_nat p)) as Hip.
      { exists node. split; [done|]. rewrite Z2Nat.id by lia.
        apply Hps. by left. }
      eapply tc_edge_iff; [intros x y; symmetry; apply Hedge|].
      unfold nlT in HnT. destruct (decide (i = t)) as [<-|Hne].
      + by apply tc_once.
      + rewrite list_lookup_alter_ne in HnT by done.
        eapply tc_r; [by eapply Htemp|done]. }
  destruct (visitParents _ _ _ _) as [[[[] nl2] out2]| |] eqn:Hps; try done.
  simplify_eq. eapply Hloop; [|apply advances_refl|done]. done.
Qed.

(** The loop of [topologicalSort] reports an error only for a cycle. *)
Lemma sortLoop_error fuel : ∀ todo nl out names nl',
  sortLoop fuel todo nl out = Done (true, names, nl') →
  (∀ (t : nat) node, nl !! t = Some node → flag node ≠ MARK_TEMP) →
  hasCycle nl.
Proof.
  induction todo as [|i todo IH]; intros nl out names nl' H Hno; [done|].
  simpl in H. destruct (nl !! i) as [node|] eqn:Hi; [|done].
  destruct (flag node) eqn:Hflag; [|eapply IH; eauto..].
  destruct (visitNode fuel i nl out) as [[[[] nl1] out1]| |] eqn:Hv; try done.
  - pose proof (visitNode_advances _ _ _ _ _ _ Hv) as Hadv.
    apply (hasCycle_iff nl nl1); [intros x y; by apply edge_advances|].
    eapply IH; [done|]. intros t n1 Ht Hf.
    destruct (advances_lookup_r _ _ _ _ Hadv Ht) as (n0 & Hn0 & _ & _ & Hfl).
    apply (Hno _ _ Hn0). destruct Hfl as [?|[? ?]]; congruence.
  - eapply visitNode_refused; [done|]. intros t n0 Ht Hf.
    by destruct (Hno _ _ Ht).
Qed.

(** X1. [topologicalSort] on fresh nodes whose parents are nodes of the
    list: it returns; an error shows a cycle; and without an error the list
    names every node once, each after all its parents. *)
Theorem topologicalSort_complete nl :
  unmarked nl → parentsInRange nl →
  ∃ error names nl',
    topologicalSort nl = Done (error, names, nl') ∧
    if error then hasCycle nl
    else ∃ ids : list nat,
      ids ≡ₚ seq 0 (length nl) ∧
      Forall2 (λ i n, name <$> nl !! i = Some n) ids names ∧
      ∀ (k i : nat) (node : Node) (p : Z),
        ids !! k = Some i → nl !! i = Some node → p ∈ parentNodes node →
        ∃ k', (k' < k)%nat ∧ ids !! k' = Some (Z.to_nat p).
Proof.
  intros Hfresh Hr.
  destruct (topologicalSort_returns nl Hr) as (error & names & nl' & H & _).
  exists error, names, nl'. split; [done|]. destruct error.
  - eapply sortLoop_error; [done|]. intros t node Ht Hf.
    unfold unmarked in Hfresh. rewrite Forall_forall in Hfresh.
    apply list_elem_of_lookup_2, Hfresh in Ht. congruence.
  - destruct (topologicalSort_sound _ _ _ Hfresh H) as (ids & Hat & Hnd & Hall & Hpp).
    exists ids. split_and!; [|done|].
    + apply NoDup_Permutation; [done|apply NoDup_seq|].
      intros i. rewrite elem_of_seq. split.
      * intros [k Hk]%list_elem_of_lookup_1.
        destruct (Forall2_lookup_l _ _ _ _ _ Hat Hk) as (n & _ & Hn).
        destruct (nl !! i) eqn:Hi; [|done].
        apply lookup_lt_Some in Hi. lia.
      * intros [_ Hi]. apply Hall. lia.
    + intros k i node p Hk Hi Hp. by destruct (Hpp _ _ _ _ Hk Hi Hp).
Qed.

End SortFacts.

(** ** Return codes, C strings and metadata texts *)

Module TextFacts.
Import CStringUtil NameSpec.

(** X2. [ReturnCode::message] gives every return code a text of its own, and
    none the empty text of the fall-through. *)
Theorem message_distinct code1 code2 :
  message code1 ≠ "" ∧ (message code1 = message code2 → code1 = code2).
Proof.
  split; [by destruct code1|].
  destruct code1, code2; simpl; intros H; first [reflexivity|discriminate H].
Qed.

Lemma contains_text str c : contains str c = true ↔ c ∈ text str.
Proof.
  induction str as [|x rest IH]; simpl.
  - split; [done|by intros ?%elem_of_nil].
  - destruct (decide (x = NUL)) as [->|Hx].
    + split; [done|by intros ?%elem_of_nil].
    + destruct (decide (x = c)) as [->|Hc].
      * split; [by left|done].
      * rewrite IH. split; [by right|].
        by intros [?|?]%elem_of_cons.
Qed.

Lemma text_no_NUL str : NUL ∉ text str.
Proof.
  induction str as [|x rest IH]; simpl; [by intros ?%elem_of_nil|].
  case_decide; [by intros ?%elem_of_nil|].
  intros [?|?]%elem_of_cons; by simplify_eq.
Qed.

Lemma containsOnly_text str allowed :
  containsOnly str allowed = true ↔ Forall (λ c, c ∈ text allowed) (text str).
Proof.
  induction str as [|x rest IH]; simpl; [done|].
  destruct (decide (x = NUL)) as [->|Hx]; [done|].
  rewrite Forall_cons, <- contains_text, <- IH.
  destruct (contains allowed x); naive_solver.
Qed.

(** X3. [contains] finds exactly the characters of the C string, so never
    the terminator, and [containsOnly] tells whether every character of the
    first C string is one of the second. *)
Theorem contains_characters str allowed c :
  (contains str c = true ↔ c ∈ text str) ∧
  contains str NUL = false ∧
  (containsOnly str allowed = true ↔
     ∀ x, x ∈ text str → x ∈ text allowed).
Proof.
  split_and!.
  - apply contains_text.
  - apply not_true_iff_false. rewrite contains_text. apply text_no_NUL.
  - rewrite containsOnly_text. apply Forall_forall.
Qed.

Lemma alphabet_characters c :
  contains "ABCDEFGHIJKLMNOPQRSTUVWXYZabcdefghijklmnopqrstuvwxyz0123456789_" c
  = isLetter c || isDigit c || isUnderscore c.
Proof. by destruct c as [[] [] [] [] [] [] [] []]. Qed.

Lemma digit_characters c : contains "0123456789" c = isDigit c.
Proof. by destruct c as [[] [] [] [] [] [] [] []]. Qed.

Lemma first_text str :
  match text str with
  | [] => first str = NUL
  | c :: _ => first str = c ∧ c ≠ NUL
  end.
Proof. destruct str as [|x rest]; simpl; [done|]. by case_decide. Qed.

(** X4. The name checks of [JP_DECLARE_PLUGIN] accept a name exactly when it
    is an identifier of C. *)
Theorem pluginNameAccepted_identifier pluginName :
  pluginNameAccepted pluginName = true ↔ identifier (text pluginName).
Proof.
  unfold pluginNameAccepted. rewrite !andb_true_iff, !negb_true_iff.
  rewrite containsOnly_text, digit_characters, bool_decide_eq_false.
  pose proof (first_text pluginName) as Hfirst.
  destruct (text pluginName) as [|c rest] eqn:Htext.
  - simpl. naive_solver.
  - destruct Hfirst as [-> Hc]. rewrite Forall_cons.
    rewrite <- contains_text, alphabet_characters.
    assert (Forall (λ x, x ∈ text
              "ABCDEFGHIJKLMNOPQRSTUVWXYZabcdefghijklmnopqrstuvwxyz0123456789_")
              rest ↔
            Forall (λ x, isLetter x || isDigit x || isUnderscore x = true) rest)
      as ->.
    { apply Forall_proper; [|done]. intros x.
      by rewrite <- contains_text, alphabet_characters. }
    simpl. generalize (Forall (λ x, isLetter x || isDigit x || isUnderscore x = true) rest).
    intros F.
    assert (isDigit c = true → isLetter c = false ∧ isUnderscore c = false)
      as Hdigit.
    { unfold isDigit, isLetter, isUnderscore.
      rewrite bool_decide_eq_true, orb_false_iff, !bool_decide_eq_false. lia. }
    destruct (isDigit c).
    + destruct Hdigit as [-> ->]; [done|]. simpl. intuition congruence.
    + rewrite orb_false_r. intuition.
Qed.

Lemma append_empty (str : string) : str +:+ "" = str.
Proof.
  induction str as [|x rest IH]; [done|].
  change (String x (rest +:+ "") = String x rest). by rewrite IH.
Qed.

Lemma append_assoc (str1 str2 str3 : string) :
  (str1 +:+ str2) +:+ str3 = str1 +:+ (str2 +:+ str3).
Proof.
  induction str1 as [|x rest IH]; [done|].
  change (String x ((rest +:+ str2) +:+ str3) = String x (rest +:+ (str2 +:+ str3))).
  by rewrite IH.
Qed.

Lemma append_fold_left (f : Dependency.t → string) deps : ∀ str,
  fold_left (λ acc dep, acc +:+ f dep) deps str =
  str +:+ fold_left (λ acc dep, acc +:+ f dep) deps "".
Proof.
  induction deps as [|dep deps IH]; intros str; simpl.
  - by rewrite append_empty.
  - rewrite IH, (IH ("" +:+ f dep)). rewrite append_assoc. reflexivity.
Qed.

(** X5. [toString] answers [Invalid PluginInfo] exactly for a record without
    a name; the text of any other record starts with the line [Plugin
    info:]. *)
Theorem toString_invalid info :
  (toString info = "Invalid PluginInfo" ↔ PluginInfoStd.name info = "") ∧
  (PluginInfoStd.name info ≠ "" →
   ∃ rest, toString info = "Plugin info:" +:+ newline +:+ rest).
Proof.
  assert (PluginInfoStd.name info ≠ "" →
          ∃ rest, toString info = "Plugin info:" +:+ newline +:+ rest) as Hvalid.
  { intros Hname. unfold toString. rewrite decide_False by done. cbv zeta.
    rewrite append_fold_left. rewrite !append_assoc. eauto. }
  split; [|done]. split.
  - intros H. destruct (decide (PluginInfoStd.name info = "")) as [|Hname]; [done|].
    destruct (Hvalid Hname) as [rest Hrest]. rewrite Hrest in H. done.
  - intros Hname. unfold toString. by rewrite decide_True.
Qed.
End TextFacts.

(** ** Targeted unload *)

Module TargetedUnloadFacts.
Import ManagerSpec FacadeSpec RegistryFacts UnloadFacts.

Lemma find_unique (m : PluginsMap) k p :
  NoDup (keys m) → (k, p) ∈ m → find k m = Some p.
Proof.
  unfold keys. induction m as [|[k' q] m IH]; [by intros _ ?%elem_of_nil|].
  rewrite fmap_cons. simpl. intros [Hk Hnd]%NoDup_cons [Heq|Hin]%elem_of_cons.
  - simplify_eq. by rewrite decide_True.
  - case_decide as Hkk; [|by apply IH]. subst k'. exfalso. apply Hk.
    by apply (list_elem_of_fmap_2 fst) in Hin.
Qed.

Lemma dependentPlugins_declares n (m : PluginsMap) k :
  NoDup (keys m) → k ∈ dependentPlugins n m ↔ declares m k n.
Proof.
  intros Hnd. unfold dependentPlugins, declares, dependencyNames. split.
  - intros ([k' p] & (dep & Hk & Hdep)%list_elem_of_bind & Hin)%list_elem_of_bind.
    simpl in *. destruct (bool_decide _) eqn:Hname; [|by apply elem_of_nil in Hk].
    destruct (isLoaded (lib p)) eqn:Hlib; [|by apply elem_of_nil in Hk].
    simpl in Hk. apply list_elem_of_singleton in Hk as ->.
    apply bool_decide_eq_true in Hname as <-.
    exists p. split_and!; [by apply find_unique|done|].
    by apply list_elem_of_fmap_2.
  - intros (p & Hfind & Hlib & (dep & -> & Hdep)%list_elem_of_fmap).
    apply list_elem_of_bind. exists (k, p). split; [|by apply find_Some_elem].
    apply list_elem_of_bind. exists dep. split; [|done]. simpl.
    rewrite bool_decide_eq_true_2, Hlib by done. by left.
Qed.

Lemma declares_sub (m m' : PluginsMap) a b :
  (∀ k q, find k m' = Some q → find k m = Some q) →
  declares m' a b → declares m a b.
Proof. intros Hsub (p & Hp & ?). exists p. eauto. Qed.

Lemma unloadedTo_find s s' removed k q :
  unloadedTo s s' removed →
  find k (pluginsMap s') = Some q → find k (pluginsMap s) = Some q.
Proof. intros (_ & _ & _ & _ & Hreg & _) Hq. by apply Hreg in Hq as [? _]. Qed.

Lemma unloadedTo_keys s s' removed k :
  unloadedTo s s' removed →
  k ∈ keys (pluginsMap s') ↔ k ∈ keys (pluginsMap s) ∧ k ∉ removed.
Proof.
  intros (_ & _ & _ & _ & Hreg & _). rewrite <- !find_is_Some. split.
  - intros [q Hq]. apply Hreg in Hq as [? ?]. eauto.
  - intros [[q Hq] Hout]. exists q. by apply Hreg.
Qed.

Lemma unloadedTo_refl s : uniqueKeys s → unloadedTo s s [].
Proof.
  intros Hu. split_and!; try done.
  - intros k q. split; [|by intros [? _]]. intros ?. split; [done|].
    by intros ?%elem_of_nil.
  - constructor.
  - by intros k ?%elem_of_nil.
  - by intros k ?%elem_of_nil.
  - by rewrite app_nil_r.
Qed.

Lemma holdsObject_find (m m' : PluginsMap) k :
  find k m' = find k m → holdsObject m' k = holdsObject m k.
Proof. unfold holdsObject. by intros ->. Qed.

Lemma unloadedTo_trans s s1 s2 removed1 removed2 :
  unloadedTo s s1 removed1 → unloadedTo s1 s2 removed2 →
  unloadedTo s s2 (removed1 ++ removed2).
Proof.
  intros H1 H2.
  pose proof H1 as (Hu1 & Hl1 & Ho1 & Hn1 & Hreg1 & Hnd1 & Hin1 & Hdecl1 & Hord1 & Htr1).
  pose proof H2 as (Hu2 & Hl2 & Ho2 & Hn2 & Hreg2 & Hnd2 & Hin2 & Hdecl2 & Hord2 & Htr2).
  assert (∀ k, k ∈ removed2 →
            find k (pluginsMap s1) = find k (pluginsMap s) ∧ k ∉ removed1)
    as Hsame.
  { intros k Hk. apply Hin2, find_is_Some in Hk as [q Hq].
    rewrite Hq. apply Hreg1 in Hq as [? ?]. done. }
  split_and!; try congruence.
  - intros k q. rewrite Hreg2, Hreg1, not_elem_of_app. naive_solver.
  - apply NoDup_app. split_and!; [done| |done].
    intros k Hk1 Hk2. by destruct (Hsame _ Hk2).
  - intros k [Hk|Hk]%elem_of_app; [by apply Hin1|].
    apply Hin2 in Hk. by apply (unloadedTo_keys _ _ _ _ H1) in Hk as [? _].
  - intros k [Hk|Hk]%elem_of_app k1 Hd; [|by eapply Hdecl2].
    eapply Hdecl1; [done|]. eapply declares_sub; [|done].
    intros. by eapply unloadedTo_find.
  - intros i j k1 k2 Hi Hj Hd.
    apply lookup_app_Some in Hi as [Hi|[Hlen Hi]];
      apply lookup_app_Some in Hj as [Hj|[Hlen' Hj]].
    + by eapply Hord1.
    + apply lookup_lt_Some in Hi. lia.
    + exfalso. apply list_elem_of_lookup_2 in Hi, Hj.
      destruct (Hsame _ Hi) as [Hfind _].
      eapply Hdecl1; [done|]. destruct Hd as (p & Hp & ?).
      exists p. by rewrite Hfind.
    + assert ((i - length removed1 < j - length removed1)%nat); [|lia].
      eapply Hord2; [done..|]. destruct Hd as (p & Hp & ?).
      apply list_elem_of_lookup_2 in Hi. destruct (Hsame _ Hi) as [Hfind _].
      exists p. by rewrite Hfind.
  - rewrite Htr2, Htr1, <- app_assoc, filter_app, fmap_app. do 3 f_equal.
    apply filter_ext_elem. intros k Hk.
    destruct (Hsame _ Hk) as [Hfind _].
    by rewrite (holdsObject_find _ _ _ Hfind).
Qed.

(** The unload of a record that no record declares, and its removal. *)
Lemma unloadedTo_own n s ok s2 :
  uniqueKeys s → (∀ k1, ¬ declares (pluginsMap s) k1 n) →
  PlugMgrPrivate_unloadPlugin n s = Done (ok, s2) →
  n ∈ keys (pluginsMap s) ∧ unloadedTo s (erasePlugin n s2) [n].
Proof.
  intros Hu Hno H.
  destruct (find n (pluginsMap s)) as [plugin|] eqn:Hfind.
  2:{ unfold PlugMgrPrivate_unloadPlugin in H. by rewrite Hfind in H. }
  destruct (unloadPlugin_Done _ _ _ Hfind)
    as (ok' & s2' & H' & Hm & Htr & Hl & Ho & Hn).
  rewrite H in H'. simplify_eq.
  assert (n ∈ keys (pluginsMap s)) as Hin by (apply find_is_Some; eauto).
  split; [done|].
  assert (∀ k, find k (pluginsMap (erasePlugin n s2')) =
               if decide (n = k) then None else find k (pluginsMap s))
    as Hfind'.
  { intros k. simpl. rewrite Hm. by apply find_erase. }
  split_and!; try done.
  - unfold uniqueKeys. simpl. rewrite Hm. by apply NoDup_keys_erase.
  - intros k q. rewrite Hfind', list_elem_of_singleton.
    case_decide; naive_solver.
  - apply NoDup_singleton.
  - by intros k ->%list_elem_of_singleton.
  - intros k ->%list_elem_of_singleton k1 Hd. apply (Hno k1).
    eapply declares_sub; [|done]. intros k q. rewrite Hfind'.
    by case_decide.
  - intros i j k1 k2 Hi Hj Hd. exfalso.
    apply list_elem_of_lookup_2, list_elem_of_singleton in Hi, Hj. subst.
    by eapply Hno.
  - simpl. rewrite Htr. f_equal. rewrite filter_cons, filter_nil.
    by destruct (holdsObject (pluginsMap s) n).
Qed.

Section dependents.
Variable unload : string → PlugMgrPrivate → outcome Unloaded.
Hypothesis unload_removes : ∀ d s r,
  uniqueKeys s → unload d s = Done r →
  ∃ removed,
    unloadedTo s (managerOf r) removed ∧
    (∀ k, k ∈ removed → rtc (declares (pluginsMap s)) k d) ∧
    (∀ s', r = Answer true s' → last removed = Some d).

Lemma unloadDependents_removes : ∀ names s r,
  uniqueKeys s → unloadDependents unload names s = Done r →
  ∃ removed,
    unloadedTo s (managerOf r) removed ∧
    (∀ k, k ∈ removed → ∃ d, d ∈ names ∧ rtc (declares (pluginsMap s)) k d) ∧
    (∀ s', r = Answer true s' → ∀ d, d ∈ names → d ∈ removed).
Proof using unload_removes.
  induction names as [|d names IH]; intros s r Hu H; simpl in H.
  - simplify_eq. exists []. split_and!; [by apply unloadedTo_refl| |].
    + by intros k ?%elem_of_nil.
    + by intros s' _ d ?%elem_of_nil.
  - destruct (unload d s) as [r1| |] eqn:Hd; try done.
    destruct (unload_removes _ _ _ Hu Hd) as (removed1 & H1 & Hreach1 & Hlast1).
    destruct r1 as [[] s1|k1 s1]; simplify_eq.
    + pose proof H1 as (Hu1 & _). simpl in Hu1, H1.
      destruct (IH _ _ Hu1 H) as (removed2 & H2 & Hreach2 & Hall2).
      exists (removed1 ++ removed2). split_and!.
      * by eapply unloadedTo_trans.
      * intros k [Hk|Hk]%elem_of_app.
        -- exists d. split; [by left|auto].
        -- destruct (Hreach2 _ Hk) as (d' & Hd' & Hrtc).
           exists d'. split; [by right|].
           eapply rtc_subrel; [|done]. intros a b. apply declares_sub.
           intros. by eapply unloadedTo_find.
      * intros s' -> d' [->|Hd']%elem_of_cons; apply elem_of_app.
        -- left. specialize (Hlast1 _ eq_refl).
           apply last_Some in Hlast1 as [l' ->]. apply elem_of_app. right.
           by left.
        -- right. by eapply Hall2.
    + exists removed1. split_and!; [done| |done].
      intros k Hk. exists d. split; [by left|auto].
    + exists removed1. split_and!; [done| |done].
      intros k Hk. exists d. split; [by left|auto].
Qed.
End dependents.

(** What a targeted unload does, whatever it answers. *)
Lemma unloadPlugin_removes fuel : ∀ n s r,
  uniqueKeys s → unloadPlugin fuel n s = Done r →
  ∃ removed,
    unloadedTo s (managerOf r) removed ∧
    (∀ k, k ∈ removed → rtc (declares (pluginsMap s)) k n) ∧
    (∀ s', r = Answer true s' → last removed = Some n).
Proof.
  induction fuel as [|fuel IH]; intros n s r Hu H; [done|]. simpl in H.
  assert (∃ removed, unloadedTo s s removed ∧
            (∀ k, k ∈ removed → rtc (declares (pluginsMap s)) k n))
    as Hnothing.
  { exists []. split; [by apply unloadedTo_refl|]. by intros k ?%elem_of_nil. }
  destruct (find n (pluginsMap s)) as [plugin|] eqn:Hfind.
  2:{ simplify_eq. destruct Hnothing as (removed & ? & ?). by exists removed. }
  destruct (isLoaded (lib plugin)) eqn:Hlib; simpl in H.
  2:{ simplify_eq. destruct Hnothing as (removed & ? & ?). by exists removed. }
  destruct (unloadDependents _ _ _) as [r1| |] eqn:Hloop; try done.
  destruct (unloadDependents_removes _ IH _ _ _ Hu Hloop)
    as (removed1 & H1 & Hreach1 & Hall1).
  assert (∀ k, k ∈ removed1 → rtc (declares (pluginsMap s)) k n) as Hreach.
  { intros k Hk. destruct (Hreach1 _ Hk) as (d & Hd & Hrtc).
    eapply rtc_r; [done|]. by apply dependentPlugins_declares. }
  destruct r1 as [[] s1|k1 s1]; simplify_eq.
  2:{ by exists removed1. }
  2:{ by exists removed1. }
  simpl in H1. pose proof H1 as (Hu1 & _).
  assert (∀ k1, ¬ declares (pluginsMap s1) k1 n) as Hno.
  { intros k1 Hd.
    assert (declares (pluginsMap s) k1 n) as Hd0.
    { eapply declares_sub; [|done]. intros. by eapply unloadedTo_find. }
    apply dependentPlugins_declares in Hd0; [|done].
    apply (Hall1 _ eq_refl) in Hd0. destruct Hd as (p & Hp & _).
    assert (k1 ∈ keys (pluginsMap s1)) as Hk1 by (apply find_is_Some; eauto).
    apply (unloadedTo_keys _ _ _ _ H1) in Hk1 as [_ ?]. done. }
  destruct (PlugMgrPrivate_unloadPlugin n s1) as [[ok s2]| |] eqn:Hown;
    try done.
  destruct (unloadedTo_own _ _ _ _ Hu1 Hno Hown) as [Hin H2].
  assert (managerOf r = erasePlugin n s2) as -> by (destruct ok; by simplify_eq).
  exists (removed1 ++ [n]). split_and!.
  - by eapply unloadedTo_trans.
  - intros k [Hk|Hk]%elem_of_app; [auto|].
    apply list_elem_of_singleton in Hk as ->. done.
  - intros s' _. by rewrite last_snoc.
Qed.

(** X6. A targeted unload that answers [true] has removed the plugin and the
    records that declared it, directly or through other records, and only
    these; no record that stays has changed, none of them declares a removed
    record, and the locations, the load order and the main plugin stay as
    they were. *)
Theorem unloadPlugin_removes_dependents fuel n s s' :
  uniqueKeys s → unloadPlugin fuel n s = Done (Answer true s') →
  n ∈ keys (pluginsMap s) ∧ n ∉ keys (pluginsMap s') ∧
  uniqueKeys s' ∧
  (∀ k q, find k (pluginsMap s') = Some q → find k (pluginsMap s) = Some q) ∧
  (∀ k, k ∈ keys (pluginsMap s) → k ∉ keys (pluginsMap s') →
        rtc (declares (pluginsMap s)) k n ∧
        ∀ k1, ¬ declares (pluginsMap s') k1 k) ∧
  locations s' = locations s ∧
  loadOrderList s' = loadOrderList s ∧
  mainPluginName s' = mainPluginName s.
Proof.
  intros Hu H.
  destruct (unloadPlugin_removes _ _ _ _ Hu H) as (removed & H1 & Hreach & Hlast).
  specialize (Hlast _ eq_refl). apply last_Some in Hlast as [l' ->].
  simpl in H1.
  pose proof H1 as (Hu' & Hl & Ho & Hn & Hreg & Hnd & Hin & Hdecl & Hord & Htr).
  assert (∀ k, k ∈ keys (pluginsMap s) → k ∉ keys (pluginsMap s') →
            k ∈ l' ++ [n]) as Hgone.
  { intros k Hk Hout. destruct (decide (k ∈ l' ++ [n])); [done|].
    exfalso. apply Hout. by apply (unloadedTo_keys _ _ _ _ H1). }
  split_and!; try done.
  - apply Hin, elem_of_app. right. by left.
  - intros Hk. apply (unloadedTo_keys _ _ _ _ H1) in Hk as [_ Hout].
    apply Hout, elem_of_app. right. by left.
  - intros. by eapply unloadedTo_find.
  - intros k Hk Hout. split; [by apply Hreach, Hgone|].
    by apply Hdecl, Hgone.
Qed.

(** X7. A targeted unload, whatever it answers, calls [aboutToBeUnloaded()]
    on the plugin objects of the records it removes, in the order of their
    removal, in which a record comes before every record it declares; when
    the answer is [true], the plugin asked for is the last one. *)
Theorem unloadPlugin_dependents_first fuel n s r :
  uniqueKeys s → unloadPlugin fuel n s = Done r →
  ∃ removed,
    unloadCalls (trace (managerOf r)) =
      unloadCalls (trace s) ++
      filter (λ k, holdsObject (pluginsMap s) k) removed ∧
    NoDup removed ∧
    (∀ k, k ∈ keys (pluginsMap (managerOf r)) ↔
          k ∈ keys (pluginsMap s) ∧ k ∉ removed) ∧
    (∀ (i j : nat) k1 k2, removed !! i = Some k1 → removed !! j = Some k2 →
          declares (pluginsMap s) k1 k2 → (i < j)%nat) ∧
    (∀ s', r = Answer true s' → last removed = Some n).
Proof.
  intros Hu H.
  destruct (unloadPlugin_removes _ _ _ _ Hu H) as (removed & H1 & Hreach & Hlast).
  pose proof H1 as (Hu' & Hl & Ho & Hn & Hreg & Hnd & Hin & Hdecl & Hord & Htr).
  exists removed. split_and!; try done.
  - by rewrite Htr, unloadCalls_app.
  - intros k. by eapply unloadedTo_keys.
Qed.

Lemma tc_last {A} (R : relation A) x y :
  tc R x y → ∃ z, rtc R x z ∧ R z y.
Proof.
  induction 1 as [x y H|x x' y H _ (z & Hrtc & Hz)].
  - exists x. split; [apply rtc_refl|done].
  - exists z. split; [by eapply rtc_l|done].
Qed.

(** A record that declares a removed record was removed before it. *)
Lemma unloadedTo_before s s' removed (j : nat) x y :
  unloadedTo s s' removed → declares (pluginsMap s) x y →
  removed !! j = Some y → ∃ i : nat, (i < j)%nat ∧ removed !! i = Some x.
Proof.
  intros (_ & _ & _ & _ & Hreg & _ & _ & Hdecl & Hord & _) Hd Hj.
  destruct (decide (x ∈ removed)) as [[i Hi]%list_elem_of_lookup_1|Hout].
  - exists i. split; [by eapply Hord|done].
  - exfalso. eapply Hdecl; [by eapply list_elem_of_lookup_2|].
    destruct Hd as (p & Hp & ?). exists p. split; [|done]. by apply Hreg.
Qed.

Lemma unloadedTo_before_rtc s s' removed x y :
  unloadedTo s s' removed → rtc (declares (pluginsMap s)) x y →
  ∀ j : nat, removed !! j = Some y →
  ∃ i : nat, (i ≤ j)%nat ∧ removed !! i = Some x.
Proof.
  intros H1. induction 1 as [x|x x' y Hd _ IH]; intros j Hj; [by eauto|].
  destruct (IH _ Hj) as (i' & Hle & Hi').
  destruct (unloadedTo_before _ _ _ _ _ _ H1 Hd Hi') as (i & Hlt & Hi).
  exists i. split; [lia|done].
Qed.

(** X8. No targeted unload removes a record that lies on a cycle of declared
    dependencies between records with open libraries; so a targeted unload
    of such a record never answers [true]. *)
Theorem unloadPlugin_cycle fuel n s r :
  uniqueKeys s → unloadPlugin fuel n s = Done r →
  (∀ k, tc (declares (pluginsMap s)) k k →
        find k (pluginsMap (managerOf r)) = find k (pluginsMap s)) ∧
  (tc (declares (pluginsMap s)) n n → ∀ s', r ≠ Answer true s').
Proof.
  intros Hu H.
  destruct (unloadPlugin_removes _ _ _ _ Hu H) as (removed & H1 & _ & Hlast).
  pose proof H1 as (_ & _ & _ & _ & Hreg & Hnd & _).
  assert (∀ k, tc (declares (pluginsMap s)) k k → k ∉ removed) as Hstay.
  { intros k (z & Hrtc & Hz)%tc_last [j Hj]%list_elem_of_lookup_1.
    destruct (unloadedTo_before _ _ _ _ _ _ H1 Hz Hj) as (i & Hlt & Hi).
    destruct (unloadedTo_before_rtc _ _ _ _ _ H1 Hrtc _ Hi) as (i' & Hle & Hi').
    pose proof (NoDup_lookup _ _ _ _ Hnd Hj Hi'). lia. }
  split.
  - intros k Hk. specialize (Hstay _ Hk).
    destruct (find k (pluginsMap s)) as [q|] eqn:Hq.
    + by apply Hreg.
    + destruct (find k (pluginsMap (managerOf r))) as [q|] eqn:Hq'; [|done].
      apply Hreg in Hq' as [? _]. congruence.
  - intros Hn s' ->. specialize (Hlast _ eq_refl).
    apply (Hstay _ Hn). apply last_Some in Hlast as [l' ->].
    apply elem_of_app. right. by left.
Qed.

Lemma keys_erase_subseteq key (m : PluginsMap) k :
  k ∈ keys (erase key m) → k ∈ keys m.
Proof.
  unfold keys. induction m as [|[k' q] m IH]; simpl; [done|].
  case_decide.
  - intros ?. by right.
  - rewrite !fmap_cons. intros [->|?]%elem_of_cons; [by left|right; auto].
Qed.

(** The first loop of [unloadPluginsInOrder] dereferences a null pointer
    when a name of the load order is not registered. *)
Lemma unloadEach_missing : ∀ names allUnloaded s n,
  n ∈ names → n ∉ keys (pluginsMap s) →
  unloadEach names allUnloaded s = Undefined.
Proof.
  induction names as [|name names IH]; intros allUnloaded s n Hin Hout;
    [by apply elem_of_nil in Hin|].
  simpl. destruct (find name (pluginsMap s)) as [plugin|] eqn:Hfind.
  - destruct (unloadPlugin_Done _ _ _ Hfind) as (ok & s' & -> & Hm & _).
    apply elem_of_cons in Hin as [->|Hin].
    { exfalso. apply Hout. apply find_is_Some. eauto. }
    eapply IH; [done|]. simpl. rewrite Hm. intros Hk. apply Hout.
    by eapply keys_erase_subseteq.
  - unfold PlugMgrPrivate_unloadPlugin. by rewrite Hfind.
Qed.

(** X9. After a targeted unload has removed a plugin of the stored load
    order, [unloadPlugins] dereferences a null pointer, and with it the
    destructor of a manager that still has a record. *)
Theorem unloadPlugin_then_unloadPlugins fuel n s s' cb :
  uniqueKeys s → unloadPlugin fuel n s = Done (Answer true s') →
  n ∈ loadOrderList s →
  unloadPlugins cb s' = Undefined ∧
  (pluginsMap s' ≠ [] → PluginManager_destructor s' = Undefined).
Proof.
  intros Hu H Hin.
  destruct (unloadPlugin_removes _ _ _ _ Hu H) as (removed & H1 & _ & Hlast).
  specialize (Hlast _ eq_refl). apply last_Some in Hlast as [l' ->].
  simpl in H1. pose proof H1 as (_ & _ & Ho & _).
  assert (∀ cb', unloadPlugins cb' s' = Undefined) as Hcrash.
  { intros cb'. unfold unloadPlugins, unloadPluginsInOrder.
    rewrite (unloadEach_missing _ _ _ n); [done| |].
    - rewrite elem_of_reverse, Ho. done.
    - intros Hk. apply (unloadedTo_keys _ _ _ _ H1) in Hk as [_ Hout].
      apply Hout, elem_of_app. right. by left. }
  split; [done|]. intros Hne. unfold PluginManager_destructor.
  destruct (pluginsMap s') eqn:Hm; [done|]. by rewrite Hcrash.
Qed.

End TargetedUnloadFacts.

(** ** What the operations leave as it is *)

Module FrameFacts.
Import ManagerSpec FacadeSpec RegistryFacts CheckFacts LoadFacts.

Lemma fields_update {A} (f : Plugin → A) key g (m : PluginsMap) :
  (∀ p, f (g p) = f p) → fields f (update key g m) = fields f m.
Proof.
  intros Hg. unfold fields. induction m as [|[k q] m IH]; simpl; [done|].
  case_decide; simpl; unfold prod_map; simpl; [by rewrite Hg|].
  f_equal. apply IH.
Qed.

Lemma fields_keys {A} (f : Plugin → A) (m m' : PluginsMap) :
  fields f m' = fields f m → keys m' = keys m.
Proof.
  unfold fields, keys. intros H. apply (f_equal (fmap fst)) in H.
  rewrite <- !list_fmap_compose in H.
  etrans; [|etrans; [exact H|]]; by apply list_fmap_ext.
Qed.

Lemma fields_find {A} (f : Plugin → A) key (m m' : PluginsMap) :
  fields f m' = fields f m → f <$> find key m' = f <$> find key m.
Proof.
  unfold fields. revert m'.
  induction m as [|[k q] m IH]; intros [|[k' q'] m'] H; try done.
  rewrite !fmap_cons in H. injection H as Hk Hq Hm. simpl in Hk. subst k'.
  simpl. case_decide; [simpl; congruence|]. by apply IH.
Qed.

Lemma fields_find_Some {A} (f : Plugin → A) key (m m' : PluginsMap) p' :
  fields f m' = fields f m → find key m' = Some p' →
  ∃ p, find key m = Some p ∧ f p' = f p.
Proof.
  intros H Hp'. pose proof (fields_find f key _ _ H) as Hk.
  rewrite Hp' in Hk. destruct (find key m) as [p|]; simplify_eq/=. eauto.
Qed.

Lemma fields_flags {A} (f : Plugin → A) (m m' : PluginsMap) :
  (∀ v p, f (set_dependenciesExists v p) = f p) →
  sameButFlags m m' → fields f m' = fields f m.
Proof.
  intros Hf H. unfold sameButFlags in H. unfold fields. revert m' H.
  induction m as [|[k q] m IH]; intros [|[k' q'] m'] H; simplify_eq/=; [done|].
  f_equal; [|by apply IH]. unfold prod_map. simpl. f_equal.
  rewrite <- (Hf indeterminate q'), <- (Hf indeterminate q).
  unfold set_dependenciesExists. congruence.
Qed.

Section fields.
Context `{host : Host} {A : Type} (f : Plugin → A).
Hypothesis f_flag : ∀ v p, f (set_dependenciesExists v p) = f p.
Hypothesis f_graphId : ∀ g p, f (set_graphId g p) = f p.
Hypothesis f_iplugin : ∀ i p, f (set_iplugin i p) = f p.

Lemma checkDependencies_fields fuel cb key s retCode s' :
  checkDependencies fuel cb key s = Done (retCode, s') →
  fields f (pluginsMap s') = fields f (pluginsMap s).
Proof using f_flag.
  intros [H _]%checkDependencies_frame. by apply fields_flags.
Qed.

Lemma checkAll_fields fuel tryToContinue cb :
  ∀ todo nodeList s early nodeList' s',
  checkAll fuel tryToContinue cb todo nodeList s = Done (early, nodeList', s') →
  fields f (pluginsMap s') = fields f (pluginsMap s).
Proof using f_flag f_graphId.
  induction todo as [|k todo IH]; intros nodeList s early nodeList' s' H;
    simpl in H.
  - by simplify_eq.
  - destruct (checkDependencies _ _ _ _) as [[rc s1]| |] eqn:Hc; try done.
    apply checkDependencies_fields in Hc. simpl in Hc.
    rewrite fields_update in Hc by done.
    destruct (negb tryToContinue && negb (succeeded rc)); [by simplify_eq|].
    destruct (find k (pluginsMap s1)) as [p1|]; [|done].
    destruct (dependenciesExists p1); apply IH in H; simpl in H;
      rewrite ?fields_update in H by done; congruence.
Qed.

Lemma loadPlugin_fields key s s' :
  PlugMgrPrivate_loadPlugin key s = Done s' →
  fields f (pluginsMap s') = fields f (pluginsMap s).
Proof using f_iplugin.
  unfold PlugMgrPrivate_loadPlugin. intros H.
  destruct (find key (pluginsMap s)) as [plugin|]; [|done].
  destruct (lib plugin) as [file|]; [|done].
  destruct (jp_createPlugin file); [|done].
  destruct (dependencyObjects _ _); [|done]. simplify_eq. simpl.
  by apply fields_update.
Qed.

Lemma loadEach_fields : ∀ names s s',
  loadEach names s = Done s' →
  fields f (pluginsMap s') = fields f (pluginsMap s).
Proof using f_iplugin.
  induction names as [|name names IH]; intros s s' H; simpl in H.
  - by simplify_eq.
  - destruct (PlugMgrPrivate_loadPlugin name s) as [s1| |] eqn:H1; try done.
    apply loadPlugin_fields in H1. apply IH in H. congruence.
Qed.

Lemma callMainPlugin_registry s s' :
  callMainPlugin s = Done s' → pluginsMap s' = pluginsMap s.
Proof.
  unfold callMainPlugin. case_decide; [by intros; simplify_eq|].
  destruct (find _ _) as [plugin|]; [|done].
  destruct (iplugin plugin); [|done]. by intros; simplify_eq.
Qed.

(** [loadPlugins] changes dependency flags, graph ids and plugin objects
    only. *)
Lemma loadPlugins_fields fuel tryToContinue cb s retCode s' :
  loadPlugins fuel tryToContinue cb s = Done (retCode, s') →
  fields f (pluginsMap s') = fields f (pluginsMap s).
Proof using f_flag f_graphId f_iplugin.
  unfold loadPlugins. intros H.
  destruct (checkAll _ _ _ _ _ _) as [[[early nodeList] s1]| |] eqn:H1;
    try done.
  apply checkAll_fields in H1.
  destruct early as [rc|]; [by simplify_eq|].
  destruct (fillParents _ _ _) as [nodeList'| |]; try done.
  destruct (Graph.topologicalSort _) as [[[error order] nodeList'']| |];
    try done.
  destruct error.
  { simplify_eq. by destruct cb. }
  destruct (loadPluginsInOrder _) as [s3| |] eqn:H4; try done.
  destruct (callMainPlugin s3) as [s4| |] eqn:H5; try done.
  simplify_eq. apply loadEach_fields in H4. simpl in H4.
  apply callMainPlugin_registry in H5. congruence.
Qed.

End fields.

End FrameFacts.

(** ** Discovery: what a search returns and adds *)

Module DiscoveryFacts.
Import ManagerSpec FacadeSpec RegistryFacts SearchFacts.

Section host.
Context `{host : Host}.

(** One round of the search loop: the candidate is admitted under its new
    name and the flag is set, or the flag and the registry stay. *)
Lemma searchCandidate_cases cb libPath found s :
  let r := searchCandidate cb libPath (found, s) in
  locations r.2 = locations s ∧
  ((r.1 = found ∧ pluginsMap r.2 = pluginsMap s ∧
    ∀ file name metadata, library_at libPath = Some file →
      candidate file name metadata → name ∉ keys (pluginsMap s) →
      PluginInfoStd.name (parseMetadata metadata) = "") ∨
   (r.1 = true ∧
    ∃ file name metadata, library_at libPath = Some file ∧
      candidate file name metadata ∧ name ∉ keys (pluginsMap s) ∧
      PluginInfoStd.name (parseMetadata metadata) ≠ "" ∧
      pluginsMap r.2 =
        assign name (discoveredRecord libPath file metadata) (pluginsMap s))).
Proof.
  simpl. unfold searchCandidate.
  destruct (library_at libPath) as [file|] eqn:Hlib;
    [|split; [done|left; by split_and!]].
  destruct (jp_name file) as [name|] eqn:Hname.
  2:{ split; [done|left; split_and!; try done].
      intros ? ? ? [= <-] (? & _). congruence. }
  destruct (jp_metadata file) as [metadata|] eqn:Hmeta.
  2:{ split; [done|left; split_and!; try done].
      intros ? ? ? [= <-] (? & ? & _). congruence. }
  destruct (jp_createPlugin file) eqn:Hcreate.
  2:{ split; [done|left; split_and!; try done].
      intros ? ? ? [= <-] (? & ? & ?). congruence. }
  case_decide as Hcount.
  { split; [by destruct cb|left; split_and!; [done|by destruct cb|]].
    intros ? ? ? [= <-] (? & ? & ?) Hout. simplify_eq.
    by apply count_1 in Hcount. }
  case_decide as Hinvalid.
  { split; [by destruct cb|left; split_and!; [done|by destruct cb|]].
    intros ? ? ? [= <-] (? & ? & ?) Hout. by simplify_eq. }
  split; [done|]. right. split; [done|].
  exists file, name, metadata. split_and!; try done.
  by rewrite <- count_1.
Qed.

Lemma searchLoop_keys cb : ∀ libList found s k,
  uniqueKeys s → k ∈ keys (pluginsMap s) →
  k ∈ keys (pluginsMap
    (fold_left (λ acc libPath, searchCandidate cb libPath acc) libList
               (found, s)).2).
Proof.
  intros libList found s k Hu Hk.
  destruct (searchLoop_grows cb libList found s Hu) as (_ & _ & _ & Hkeep & _).
  apply find_is_Some in Hk as [q Hq]. apply find_is_Some. eauto.
Qed.

(** The loop of a search: the flag it returns tells whether a record was
    added, the records added are those of candidates of the list, and the
    locations are not touched. *)
Lemma searchLoop_result cb : ∀ libList found s,
  uniqueKeys s →
  let r := fold_left (λ acc libPath, searchCandidate cb libPath acc) libList
                     (found, s) in
  locations r.2 = locations s ∧
  (r.1 = true ↔
     found = true ∨ ∃ k, k ∈ keys (pluginsMap r.2) ∧ k ∉ keys (pluginsMap s)) ∧
  (r.1 = false → pluginsMap r.2 = pluginsMap s) ∧
  (∀ k q, find k (pluginsMap r.2) = Some q → find k (pluginsMap s) = None →
     ∃ libPath file metadata,
       libPath ∈ libList ∧ library_at libPath = Some file ∧
       candidate file k metadata ∧
       PluginInfoStd.name (parseMetadata metadata) ≠ "" ∧
       q = discoveredRecord libPath file metadata).
Proof.
  induction libList as [|libPath libList IH]; intros found s Hu;
    cbn [fold_left].
  - simpl. split_and!; [done| |done|].
    + split; [by left|]. intros [?|(k & ? & ?)]; done.
    + intros k q Hq Hnone. congruence.
  - pose proof (searchCandidate_cases cb libPath found s) as Hstep.
    pose proof (searchCandidate_grows cb libPath found s Hu) as Hgrow.
    destruct (searchCandidate cb libPath (found, s)) as [found1 s1].
    simpl in Hstep, Hgrow. pose proof Hgrow as (Hu1 & _ & _ & Hkeep1 & _).
    pose proof (IH found1 s1 Hu1) as IH1. simpl in IH1.
    pose proof (searchLoop_grows cb libList found1 s1 Hu1)
      as (_ & _ & _ & Hkeep & _).
    destruct (fold_left _ libList (found1, s1)) as [found2 s2]. simpl in *.
    destruct IH1 as (Hloc & Hflag & Hsame & Hnew).
    destruct Hstep as
      [Hl1 [(-> & Hm1 & _)|(-> & file & name & metadata & Hlib & Hcand & Hfresh
                             & Hvalid & Hm1)]].
    + split_and!; [congruence|by rewrite Hflag, Hm1|by rewrite <- Hm1|].
      intros k q Hq Hnone. rewrite <- Hm1 in Hnone.
      destruct (Hnew _ _ Hq Hnone) as (p & f' & md & ? & ?).
      exists p, f', md. split; [by right|done].
    + assert (found2 = true) as -> by (apply Hflag; by left).
      assert (find name (pluginsMap s1)
                = Some (discoveredRecord libPath file metadata)) as Hrec.
      { by rewrite Hm1, find_assign, decide_True. }
      split_and!; [congruence| |done|].
      * split; [|done]. intros _. right. exists name. split; [|done].
        apply find_is_Some. apply Hkeep in Hrec. eauto.
      * intros k q Hq Hnone.
        destruct (find k (pluginsMap s1)) as [q1|] eqn:Hq1.
        -- pose proof (Hkeep _ _ Hq1) as Hq2.
           rewrite Hm1, find_assign in Hq1. case_decide as Hk; [|congruence].
           subst k. exists libPath, file, metadata.
           split_and!; [by left|done..|congruence].
        -- destruct (Hnew _ _ Hq Hq1) as (p & f' & md & ? & ?).
           exists p, f', md. split; [by right|done].
Qed.

(** What a search answers and what it adds. *)
Lemma searchForPlugins_cases pluginDir recursive cb s :
  uniqueKeys s →
  let code := (searchForPlugins pluginDir recursive cb s).1 in
  let s' := (searchForPlugins pluginDir recursive cb s).2 in
  (code = SUCCESS ∨ code = SEARCH_NOTHING_FOUND ∨ code = SEARCH_LISTFILES_ERROR) ∧
  (code = SUCCESS ↔
     ∃ k, k ∈ keys (pluginsMap s') ∧ k ∉ keys (pluginsMap s)) ∧
  (code ≠ SUCCESS → pluginsMap s' = pluginsMap s) ∧
  locations s' =
    (if decide (code = SUCCESS ∧ pluginDir ∉ locations s)
     then locations s ++ [pluginDir] else locations s) ∧
  (∀ k q, find k (pluginsMap s') = Some q → find k (pluginsMap s) = None →
     ∃ libPath file metadata,
       libPath ∈ (listLibrariesInDir pluginDir recursive).2 ∧
       library_at libPath = Some file ∧ candidate file k metadata ∧
       PluginInfoStd.name (parseMetadata metadata) ≠ "" ∧
       q = discoveredRecord libPath file metadata).
Proof.
  intros Hu. unfold searchForPlugins.
  destruct (listLibrariesInDir pluginDir recursive) as [listed libList].
  set (s0 := if listed then s
             else callback cb SEARCH_LISTFILES_ERROR ErrnoMessage s).
  assert (pluginsMap s0 = pluginsMap s ∧ locations s0 = locations s)
    as [Hm0 Hl0] by (unfold s0; by destruct listed, cb).
  assert (uniqueKeys s0) as Hu0 by (unfold uniqueKeys; by rewrite Hm0).
  destruct (negb listed && bool_decide (libList = [])).
  { simpl. split_and!; [by auto| |done| |].
    - split; [done|]. rewrite Hm0. by intros (k & ? & ?).
    - done.
    - rewrite Hm0. intros k q Hq Hnone. congruence. }
  pose proof (searchLoop_result cb libList false s0 Hu0) as Hloop.
  destruct (fold_left _ _ _) as [found s1]. simpl in Hloop.
  destruct Hloop as (Hl1 & Hflag & Hsame & Hnew).
  rewrite Hm0 in Hflag, Hsame, Hnew. rewrite Hl0 in Hl1.
  destruct found; simpl.
  - assert (∃ k, k ∈ keys (pluginsMap s1) ∧ k ∉ keys (pluginsMap s)) as Hk.
    { destruct Hflag as [Hflag _]. by destruct (Hflag eq_refl). }
    split_and!; [by auto| | | |].
    + split; [|done]. intros _. by case_decide.
    + done.
    + rewrite <- Hl1. case_decide as Hin; simpl.
      * by rewrite decide_False by (by intros [_ ?]).
      * by rewrite decide_True.
    + by case_decide.
  - split_and!; [by auto| |by auto| |done].
    + split; [done|]. intros Hk. destruct Hflag as [_ Hflag].
      specialize (Hflag (or_intror Hk)). done.
    + done.
Qed.

(** X10. A search answers [SUCCESS] exactly when it has added a record, and
    otherwise leaves the registry and the locations as they are; it adds the
    directory to the locations, once, only with [SUCCESS]; and every record
    it adds is the record of a library file of the directory: its key is the
    [jp_name] of the file, its metadata the parsed [jp_metadata], with a
    name, and its dependency check is still to be made. *)
Theorem searchForPlugins_result pluginDir recursive cb s :
  uniqueKeys s →
  let code := (searchForPlugins pluginDir recursive cb s).1 in
  let s' := (searchForPlugins pluginDir recursive cb s).2 in
  (code = SUCCESS ∨ code = SEARCH_NOTHING_FOUND ∨ code = SEARCH_LISTFILES_ERROR) ∧
  (code = SUCCESS ↔
     ∃ k, k ∈ keys (pluginsMap s') ∧ k ∉ keys (pluginsMap s)) ∧
  (code ≠ SUCCESS → pluginsMap s' = pluginsMap s) ∧
  locations s' =
    (if decide (code = SUCCESS ∧ pluginDir ∉ locations s)
     then locations s ++ [pluginDir] else locations s) ∧
  (∀ k q, find k (pluginsMap s') = Some q → find k (pluginsMap s) = None →
     ∃ libPath file metadata,
       libPath ∈ (listLibrariesInDir pluginDir recursive).2 ∧
       library_at libPath = Some file ∧ candidate file k metadata ∧
       PluginInfoStd.name (parseMetadata metadata) ≠ "" ∧
       q = discoveredRecord libPath file metadata).
Proof. apply searchForPlugins_cases. Qed.

(** After the loop of a search, the name of every candidate of the list
    with valid metadata is registered. *)
Lemma searchLoop_known cb libPath file name metadata :
  library_at libPath = Some file → candidate file name metadata →
  PluginInfoStd.name (parseMetadata metadata) ≠ "" →
  ∀ libList found s, uniqueKeys s → libPath ∈ libList →
  name ∈ keys (pluginsMap
    (fold_left (λ acc p, searchCandidate cb p acc) libList (found, s)).2).
Proof.
  intros Hlib Hcand Hvalid.
  induction libList as [|p libList IH]; intros found s0 Hu0 Hin;
    [by apply elem_of_nil in Hin|].
  cbn [fold_left].
  pose proof (searchCandidate_cases cb p found s0) as Hstep.
  pose proof (searchCandidate_grows cb p found s0 Hu0) as (Hu1 & _).
  destruct (searchCandidate cb p (found, s0)) as [found1 s1].
  simpl in Hstep, Hu1.
  apply elem_of_cons in Hin as [->|Hin]; [|by apply IH].
  apply searchLoop_keys; [done|].
  destruct Hstep as [_ [(_ & Hm & Hnot)|(_ & f' & n' & md' & Hlib' & Hc'
                                         & _ & _ & Hm)]].
  - rewrite Hm. destruct (decide (name ∈ keys (pluginsMap s0))); [done|].
    by destruct Hvalid, (Hnot _ _ _ Hlib Hcand).
  - rewrite Hlib in Hlib'. simplify_eq.
    destruct Hcand as (Hn & _), Hc' as (Hn' & _).
    rewrite Hn in Hn'. simplify_eq.
    apply find_is_Some. rewrite Hm, find_assign, decide_True by done.
    eauto.
Qed.

(** X11. A second search of a directory adds nothing: it answers
    [SEARCH_NOTHING_FOUND], or [SEARCH_LISTFILES_ERROR], and leaves the
    registry and the locations as the first search left them. *)
Theorem searchForPlugins_again pluginDir recursive cb cb' s :
  uniqueKeys s →
  let s1 := (searchForPlugins pluginDir recursive cb s).2 in
  let code := (searchForPlugins pluginDir recursive cb' s1).1 in
  let s2 := (searchForPlugins pluginDir recursive cb' s1).2 in
  code ≠ SUCCESS ∧ pluginsMap s2 = pluginsMap s1 ∧ locations s2 = locations s1.
Proof.
  intros Hu. cbv zeta.
  set (s1 := (searchForPlugins pluginDir recursive cb s).2).
  assert (uniqueKeys s1) as Hu1.
  { by destruct (searchForPlugins_grows pluginDir recursive cb s Hu). }
  assert (∀ libPath file name metadata,
            libPath ∈ (listLibrariesInDir pluginDir recursive).2 →
            library_at libPath = Some file → candidate file name metadata →
            PluginInfoStd.name (parseMetadata metadata) ≠ "" →
            name ∈ keys (pluginsMap s1)) as Hknown.
  { unfold s1, searchForPlugins.
    destruct (listLibrariesInDir pluginDir recursive) as [listed libList].
    simpl. intros libPath file name metadata Hin Hlib Hcand Hvalid.
    set (s0 := if listed then s
               else callback cb SEARCH_LISTFILES_ERROR ErrnoMessage s).
    assert (uniqueKeys s0) as Hu0.
    { unfold uniqueKeys, s0. by destruct listed, cb. }
    destruct (negb listed && bool_decide (libList = [])) eqn:Hempty.
    { apply andb_true_iff in Hempty as [_ ->%bool_decide_eq_true].
      by apply elem_of_nil in Hin. }
    pose proof (searchLoop_known cb libPath file name metadata Hlib Hcand
                  Hvalid libList false s0 Hu0 Hin) as Hloop.
    destruct (fold_left _ _ _) as [[] s2]; simpl in *; [|done].
    by case_decide. }
  destruct (searchForPlugins_cases pluginDir recursive cb' s1 Hu1)
    as (_ & Hcode & Hsame & Hloc & Hnew).
  assert ((searchForPlugins pluginDir recursive cb' s1).1 ≠ SUCCESS) as Hno.
  { intros (k & [q Hq]%find_is_Some & Hout%find_None)%Hcode.
    destruct (Hnew _ _ Hq Hout) as (p & file & md & Hin & Hlib & Hcand & Hv & _).
    apply find_None in Hout. apply Hout. by eapply Hknown. }
  split_and!; [done|by apply Hsame|].
  rewrite Hloc. by rewrite decide_False by (by intros [? _]).
Qed.


End host.
End DiscoveryFacts.

(** ** The managers an application can get to *)

Module FacadeFacts.
Import ManagerSpec FacadeSpec RegistryFacts CheckFacts LoadFacts UnloadFacts
       SearchFacts InvariantFacts FrameFacts DiscoveryFacts
       TargetedUnloadFacts.

Section host.
Context `{host : Host}.

(** What [loadPluginFromPath] does when every registered library is
    open: nothing for a path that loads no library and for a name that is
    registered; for a new name, it registers a record without path and
    metadata, whose dependency check succeeds at once, and builds its
    plugin object. *)
Lemma loadPluginFromPath_Done fuel pluginPath s ok s' :
  allOpen s → loadPluginFromPath fuel pluginPath s = Done (ok, s') →
  (ok = false ∧ s' = s ∧ library_at pluginPath = None) ∨
  ∃ file n, library_at pluginPath = Some file ∧ jp_name file = Some n ∧
    ok = true ∧
    ((n ∈ keys (pluginsMap s) ∧ s' = s) ∨
     (n ∉ keys (pluginsMap s) ∧ jp_createPlugin file = true ∧
      s' = emit (Loaded n)
             (modify n (set_iplugin (Some (InstanceOf "")))
               (emit (Created n [] false)
                 (modify n (set_dependenciesExists tri_true)
                   (with_pluginsMap
                      (assign n (set_lib (Some file) newPlugin) (pluginsMap s))
                      s)))))).
Proof.
  intros Hopen. unfold loadPluginFromPath.
  destruct (library_at pluginPath) as [file|] eqn:Hlib.
  2:{ intros [= <- <-]. by left. }
  destruct (jp_name file) as [n|] eqn:Hname; [|done].
  intros H. right. exists file, n.
  destruct (find n (pluginsMap s)) as [existing|] eqn:Hfind.
  { rewrite (Hopen _ _ Hfind) in H. simplify_eq. split_and!; try done.
    left. split; [|done]. apply find_is_Some. eauto. }
  apply find_None in Hfind.
  destruct fuel as [|fuel]; [done|]. simpl in H.
  rewrite find_assign, decide_True in H by done. simpl in H.
  unfold PlugMgrPrivate_loadPlugin in H. simpl in H.
  rewrite find_update_eq, find_assign, decide_True in H by done. simpl in H.
  destruct (jp_createPlugin file) eqn:Hcreate; [|done].
  simplify_eq. split_and!; try done. right. by split_and!.
Qed.

Lemma allOpen_fields s s' :
  fields lib (pluginsMap s') = fields lib (pluginsMap s) →
  allOpen s → allOpen s'.
Proof.
  intros H Hopen k p' Hp'.
  destruct (fields_find_Some lib k _ _ _ H Hp') as (p & Hp & ->). eauto.
Qed.

(** Every call keeps the keys of the registry distinct, the libraries of
    its records open and the locations distinct. *)
Lemma perform_wellFormed fuel call s s' :
  wellFormed s → perform fuel call s = Some s' → wellFormed s'.
Proof.
  intros (Hu & Hopen & Hloc) H. destruct call; simpl in H.
  - simplify_eq.
    destruct (searchForPlugins_grows pluginDir recursive cb s Hu)
      as (Hu' & _ & _ & _ & Hnew).
    destruct (searchForPlugins_cases pluginDir recursive cb s Hu)
      as (_ & _ & _ & Hl & _).
    split_and!; [done| |].
    + intros k q Hq. destruct (Hnew _ _ Hq) as [?|(_ & ? & _)]; eauto.
    + rewrite Hl. case_decide as Hd; [|done].
      apply NoDup_app. split_and!; [done| |apply NoDup_singleton].
      intros x Hx ->%list_elem_of_singleton. by destruct Hd.
  - simplify_eq. unfold registerMainPlugin.
    destruct (_ && _); [|done]. simpl. split_and!; [|
      |done].
    + unfold uniqueKeys. simpl. by rewrite keys_update.
    + intros k q. simpl. rewrite find_update. case_decide; [|by eauto].
      destruct (find k (pluginsMap s)) as [p|] eqn:Hp; [|done].
      intros [= <-]. simpl. eauto.
  - destruct (loadPlugins _ _ _ _) as [[rc s1]| |] eqn:Hload; simplify_eq.
    pose proof (loadPlugins_sameInfos _ _ _ _ _ _ Hload) as Hinfo.
    split_and!.
    + unfold uniqueKeys. by rewrite (sameInfos_keys _ _ Hinfo).
    + eapply allOpen_fields; [|done].
      by eapply (loadPlugins_fields lib).
    + by destruct Hinfo as (_ & -> & _).
  - destruct (unloadPlugins _ _) as [[rc s1]| |] eqn:Hunload; simplify_eq.
    apply unloadPlugins_inv in Hunload as (Hm & Hl & _).
    split_and!.
    + unfold uniqueKeys. rewrite Hm. constructor.
    + intros k q. by rewrite Hm.
    + rewrite Hl. constructor.
  - destruct (loadPlugin _ _ _) as [[ok s1]| |] eqn:Hload; simplify_eq.
    apply loadPlugin_builds_nothing in Hload as [Hframe _].
    split_and!.
    + unfold uniqueKeys. by rewrite (flagsOnly_keys _ _ Hframe).
    + intros k q Hq.
      destruct (flagsOnly_find _ _ _ _ Hframe Hq) as (p & Hp & _ & _ & _ & -> & _).
      eauto.
    + by destruct Hframe as (_ & -> & _).
  - destruct (loadPluginFromPath _ _ _) as [[ok s1]| |] eqn:Hload;
      simplify_eq.
    destruct (loadPluginFromPath_Done _ _ _ _ _ Hopen Hload)
      as [(_ & -> & _)|(file & n & _ & _ & _ & [[_ ->]|(Hfresh & _ & ->)])];
      [done..|].
    split_and!; [| |done].
    + unfold uniqueKeys. simpl. rewrite !keys_update.
      by apply NoDup_keys_assign.
    + intros k q. simpl. rewrite !find_update, find_assign.
      case_decide; [intros [= <-]; done|]. eauto.
  - destruct (unloadPlugin _ _ _) as [[ok s1|]| |] eqn:Hunload; simplify_eq.
    destruct (unloadPlugin_removes _ _ _ _ Hu Hunload) as (removed & H1 & _).
    simpl in H1. pose proof H1 as (Hu' & Hl & _).
    split_and!; [done| |congruence].
    intros k q Hq. eapply Hopen. by eapply unloadedTo_find.
Qed.

Lemma follows_wellFormed s s' :
  wellFormed s → follows s s' → wellFormed s'.
Proof.
  intros Hs. induction 1 as [|fuel call s1 s2 _ IH Hcall]; [done|].
  by eapply perform_wellFormed.
Qed.

Lemma wellFormed_new : wellFormed emptyManager.
Proof. split_and!; [constructor|done|constructor]. Qed.

(** X12. In every manager an application can get to from a new one by
    calls that return and leave no null entry in the map (a targeted
    unload whose library does not close leaves one, and is not followed
    further), the targeted load of a plugin builds nothing and changes
    nothing: it answers whether the name is registered. And a plugin is
    loaded, as [isPluginLoaded] has it, exactly when [pluginObject] is
    not null. *)
Theorem loadPlugin_reachable fuel name s :
  reachable s →
  loadPlugin fuel name s = Done (hasPlugin name s, s) ∧
  isPluginLoaded name s = bool_decide (is_Some (pluginObject name s)).
Proof.
  intros Hreach.
  destruct (follows_wellFormed _ _ wellFormed_new Hreach) as (_ & Hopen & _).
  unfold loadPlugin, isPluginLoaded, pluginObject, hasPlugin, count.
  destruct (find name (pluginsMap s)) as [plugin|] eqn:Hfind; simpl.
  - by rewrite (Hopen _ _ Hfind).
  - done.
Qed.

Lemma perform_mainPluginName fuel call s s' :
  wellFormed s → mainPluginName s ≠ "" → perform fuel call s = Some s' →
  mainPluginName s' = mainPluginName s.
Proof.
  intros (Hu & Hopen & _) Hmain H. destruct call; simpl in H.
  - simplify_eq.
    by destruct (searchForPlugins_grows pluginDir recursive cb s Hu)
      as (_ & _ & ? & _).
  - simplify_eq. unfold registerMainPlugin.
    by rewrite bool_decide_eq_false_2.
  - destruct (loadPlugins _ _ _ _) as [[rc s1]| |] eqn:Hload; simplify_eq.
    by apply loadPlugins_sameInfos in Hload as (_ & _ & ?).
  - destruct (unloadPlugins _ _) as [[rc s1]| |] eqn:Hunload; simplify_eq.
    unfold unloadPlugins, unloadPluginsInOrder in Hunload.
    destruct (unloadEach _ _ _) as [[all1 s2]| |] eqn:H1; try done.
    destruct (unloadRemaining _ _ _) as [[all2 s3]| |] eqn:H2; try done.
    apply unloadEach_inv in H1 as (_ & _ & Hn1).
    apply unloadRemaining_inv in H2 as (_ & _ & _ & Hn2).
    destruct all2; simplify_eq; destruct cb; simpl; congruence.
  - destruct (loadPlugin _ _ _) as [[ok s1]| |] eqn:Hload; simplify_eq.
    by apply loadPlugin_builds_nothing in Hload as [(_ & _ & _ & ? & _) _].
  - destruct (loadPluginFromPath _ _ _) as [[ok s1]| |] eqn:Hload;
      simplify_eq.
    by destruct (loadPluginFromPath_Done _ _ _ _ _ Hopen Hload)
      as [(_ & -> & _)|(file & n & _ & _ & _ & [[_ ->]|(Hfresh & _ & ->)])].
  - destruct (unloadPlugin _ _ _) as [[ok s1|]| |] eqn:Hunload; simplify_eq.
    destruct (unloadPlugin_removes _ _ _ _ Hu Hunload) as (removed & H1 & _).
    by destruct H1 as (_ & _ & _ & ? & _).
Qed.

Lemma loadPlugins_needs_main fuel tryToContinue cb s s' :
  mainPluginName s ≠ "" → mainPluginName s ∉ keys (pluginsMap s) →
  loadPlugins fuel tryToContinue cb s ≠ Done (SUCCESS, s').
Proof.
  intros Hmain Hout H.
  destruct (loadPlugins_stages _ _ _ _ _ H)
    as (nodeList & s1 & nl & order & nl' & s3 & H1 & _ & _ & H4 & H5).
  apply checkAll_sameInfos in H1.
  apply loadEach_sameInfos in H4 as [H4 _].
  assert (sameInfos s s3) as Hinfo.
  { eapply sameInfos_trans; [done|]. done. }
  pose proof (sameInfos_keys _ _ Hinfo) as Hkeys.
  destruct Hinfo as (_ & _ & Hn).
  unfold callMainPlugin in H5. rewrite Hn in H5.
  rewrite decide_False in H5 by done.
  rewrite <- Hkeys in Hout. apply find_None in Hout. by rewrite Hout in H5.
Qed.

(** X13. Once a main plugin is named, it stays named through every call,
    also through [unloadPlugins]: no later [registerMainPlugin] succeeds,
    and as long as no record is registered under the name, [loadPlugins]
    does not return [SUCCESS] ([at] throws when the main plugin is to be
    run). *)
Theorem registerMainPlugin_once s s' :
  wellFormed s → mainPluginName s ≠ "" → follows s s' →
  mainPluginName s' = mainPluginName s ∧
  (∀ name, registerMainPlugin name s' = (UNKNOWN_ERROR, s')) ∧
  (mainPluginName s' ∉ keys (pluginsMap s') →
   ∀ fuel tryToContinue cb s'',
     loadPlugins fuel tryToContinue cb s' ≠ Done (SUCCESS, s'')).
Proof.
  intros Hs Hmain Hfollows.
  assert (mainPluginName s' = mainPluginName s) as Hsame.
  { induction Hfollows as [|fuel call s1 s2 Hf IH Hcall]; [done|].
    rewrite <- IH. eapply perform_mainPluginName; [|congruence|done].
    by eapply follows_wellFormed. }
  split_and!; [done| |].
  - intros name. unfold registerMainPlugin.
    rewrite bool_decide_eq_false_2; [done|congruence].
  - intros Hout fuel tryToContinue cb s''.
    apply loadPlugins_needs_main; [congruence|done].
Qed.

(** X14. [loadPluginFromPath] on a library file that exports a name and a
    factory, when every registered library is open: it answers [true]; for a
    registered name it does nothing, whether the plugin is loaded or not;
    for a new name it registers a record with an empty path and empty
    metadata (the metadata of the file is not read), builds its plugin
    object without any dependency and calls [loaded()], and the plugin is
    loaded. *)
Theorem loadPluginFromPath_builds fuel pluginPath file name s :
  allOpen s →
  library_at pluginPath = Some file → jp_name file = Some name →
  jp_createPlugin file = true →
  ∃ s',
    loadPluginFromPath (S fuel) pluginPath s = Done (true, s') ∧
    (name ∈ keys (pluginsMap s) → s' = s) ∧
    (name ∉ keys (pluginsMap s) →
       find name (pluginsMap s') =
         Some (mkPlugin "" (Some file) PluginInfoStd.empty tri_true (-1)
                        (Some (InstanceOf "")) false) ∧
       (∀ k, k ≠ name → find k (pluginsMap s') = find k (pluginsMap s)) ∧
       trace s' = trace s ++ [Created name [] false; Loaded name] ∧
       isPluginLoaded name s' = true).
Proof.
  intros Hopen Hlib Hname Hcreate. unfold loadPluginFromPath.
  rewrite Hlib, Hname.
  destruct (find name (pluginsMap s)) as [existing|] eqn:Hfind.
  { rewrite (Hopen _ _ Hfind). exists s. split_and!; [done..|].
    intros Hout. apply find_None in Hout. congruence. }
  apply find_None in Hfind. simpl.
  rewrite find_assign, decide_True by done. simpl.
  unfold PlugMgrPrivate_loadPlugin. simpl.
  rewrite find_update_eq, find_assign, decide_True by done. simpl.
  rewrite Hcreate. eexists. split_and!; [done|done|]. intros _.
  assert (find name
            (update name (set_iplugin (Some (InstanceOf "")))
               (update name (set_dependenciesExists tri_true)
                  (assign name (set_lib (Some file) newPlugin) (pluginsMap s))))
          = Some (mkPlugin "" (Some file) PluginInfoStd.empty tri_true (-1)
                           (Some (InstanceOf "")) false)) as Hrec.
  { by rewrite !find_update_eq, find_assign, decide_True. }
  split_and!; simpl.
  - done.
  - intros k Hk. by rewrite !find_update_ne, find_assign, decide_False.
  - by rewrite <- app_assoc.
  - unfold isPluginLoaded, hasPlugin, count. simpl. by rewrite Hrec.
Qed.

End host.
End FacadeFacts.

(** ** The stored load order *)

Module LoadOrderFacts.
Import ManagerSpec FacadeSpec RegistryFacts CheckFacts LoadFacts UnloadFacts.
Import InvariantFacts TargetedUnloadFacts.

Section host.
Context `{host : Host}.

(** A load order that names a plugin twice, or a plugin that is not
    registered, stops the first loop of [unloadPluginsInOrder] at a null
    pointer. *)
Lemma unloadEach_stale : ∀ names allUnloaded s,
  NoDup (keys (pluginsMap s)) →
  ¬ (NoDup names ∧ ∀ n, n ∈ names → n ∈ keys (pluginsMap s)) →
  unloadEach names allUnloaded s = Undefined.
Proof.
  induction names as [|name names IH]; intros allUnloaded s Hu Hstale.
  { destruct Hstale. split; [constructor|by intros n ?%elem_of_nil]. }
  simpl. destruct (find name (pluginsMap s)) as [plugin|] eqn:Hfind.
  2:{ unfold PlugMgrPrivate_unloadPlugin. by rewrite Hfind. }
  destruct (unloadPlugin_Done _ _ _ Hfind) as (ok & s' & -> & Hm & _).
  assert (∀ n, n ∈ keys (erase name (pluginsMap s)) ↔
               n ∈ keys (pluginsMap s) ∧ n ≠ name) as Hkeys.
  { intros n. rewrite <- !find_is_Some, find_erase by done.
    case_decide; subst; split;
      [by intros [? ?]|by intros [_ ?]|by auto|by intros [? _]]. }
  destruct (decide (name ∈ names)) as [Hin|Hout].
  - apply (unloadEach_missing _ _ _ name Hin). simpl. rewrite Hm, Hkeys.
    by intros [_ ?].
  - apply IH.
    + simpl. rewrite Hm. by apply NoDup_keys_erase.
    + intros [Hnd Hreg]. apply Hstale. split.
      * by apply NoDup_cons.
      * intros n [->|Hn]%elem_of_cons.
        -- apply find_is_Some. eauto.
        -- specialize (Hreg n Hn). simpl in Hreg. rewrite Hm, Hkeys in Hreg.
           by destruct Hreg.
Qed.

(** [unloadPlugins] with a load order that does not name registered
    plugins, each once. *)
Lemma unloadPlugins_stale_order cb s :
  NoDup (keys (pluginsMap s)) →
  ¬ (NoDup (loadOrderList s) ∧
     ∀ n, n ∈ loadOrderList s → n ∈ keys (pluginsMap s)) →
  unloadPlugins cb s = Undefined.
Proof.
  intros Hu Hstale. unfold unloadPlugins, unloadPluginsInOrder.
  rewrite unloadEach_stale; [done..|].
  intros [Hnd Hreg]. apply Hstale. split.
  - by rewrite reverse_Permutation in Hnd.
  - intros n Hn. apply Hreg. by apply elem_of_reverse.
Qed.




End host.
End LoadOrderFacts.

(** ** Dependency flags and the load of all plugins *)

Module DependencyFacts.
Import ManagerSpec FacadeSpec RegistryFacts CheckFacts LoadFacts FrameFacts.

Section host.
Context `{host : Host}.

Lemma groundedBy_infos l (m m' : PluginsMap) :
  infos m' = infos m → groundedBy l m → groundedBy l m'.
Proof.
  intros Hinfo. induction l as [|k older IH]; [done|].
  intros [Hhead Htail]. split; [|by apply IH].
  intros p' dep Hp' Hdep.
  pose proof (find_infos k _ _ Hinfo) as Hk. rewrite Hp' in Hk.
  destruct (find k m) as [p|] eqn:Hp; [|done]. simpl in Hk.
  injection Hk as Hk. rewrite Hk in Hdep.
  destruct (Hhead _ _ eq_refl Hdep) as (Hin & pd & Hpd & Hcompat).
  split; [done|].
  pose proof (find_infos (Dependency.name dep) _ _ Hinfo) as Hd.
  rewrite Hpd in Hd.
  destruct (find (Dependency.name dep) m') as [pd'|]; [|done].
  simpl in Hd. injection Hd as Hd. exists pd'. by rewrite Hd.
Qed.

Lemma groundedBy_closed l (m : PluginsMap) x y :
  groundedBy l m → x ∈ l → dependsOn m x y → y ∈ l.
Proof.
  intros Hg Hx (p & Hp & (dep & -> & Hdep)%list_elem_of_fmap).
  induction l as [|k older IH]; [by apply elem_of_nil in Hx|].
  destruct Hg as [Hhead Htail].
  apply elem_of_cons in Hx as [->|Hx]; right; [|by apply IH].
  by destruct (Hhead _ _ Hp Hdep).
Qed.

(** No listed record lies on a cycle of declared dependencies. *)
Lemma groundedBy_acyclic l (m : PluginsMap) k :
  groundedBy l m → k ∈ l → ¬ tc (dependsOn m) k k.
Proof.
  induction l as [|k0 older IH]; [by intros _ ?%elem_of_nil|].
  intros [Hhead Htail] Hk Hcycle.
  destruct (decide (k ∈ older)) as [Hin|Hout]; [by apply IH|].
  apply elem_of_cons in Hk as [->|?]; [|done].
  assert (∀ x y, rtc (dependsOn m) x y → x ∈ older → y ∈ older) as Hclosed.
  { induction 1 as [|x y z Hxy _ IHrtc]; [done|]. intros Hx.
    apply IHrtc. by eapply groundedBy_closed. }
  apply Hout.
  inversion Hcycle as [? ? Hstep|? d ? Hstep Hrest]; subst.
  - destruct Hstep as (p & Hp & (dep & Hname & Hdep)%list_elem_of_fmap).
    destruct (Hhead _ _ Hp Hdep) as [? _]. congruence.
  - apply (Hclosed d); [by apply tc_rtc|].
    destruct Hstep as (p & Hp & (dep & Hname & Hdep)%list_elem_of_fmap).
    destruct (Hhead _ _ Hp Hdep) as [? _]. congruence.
Qed.

Lemma groundedWith_same l s s' :
  infos (pluginsMap s') = infos (pluginsMap s) →
  (∀ k p', find k (pluginsMap s') = Some p' →
     dependenciesExists p' = tri_true → k ∈ l) →
  groundedWith l s → groundedWith l s'.
Proof.
  intros Hinfo Hflags (_ & Hkeys & Hg). split_and!; [done| |].
  - intros k Hk. rewrite (keys_infos _ _ Hinfo). auto.
  - by eapply groundedBy_infos.
Qed.

Lemma groundedWith_callback l cb code data s :
  groundedWith l s → groundedWith l (callback cb code data s).
Proof. by destruct cb. Qed.

(** The flag of a record is set to no. *)
Lemma groundedWith_no l key s :
  groundedWith l s →
  groundedWith l (modify key (set_dependenciesExists tri_false) s).
Proof.
  intros Hg. eapply groundedWith_same; [| |done].
  - simpl. by apply infos_update.
  - intros k p'. simpl. rewrite find_update. destruct Hg as (Hflags & _).
    case_decide; [|by eauto]. subst k.
    destruct (find key (pluginsMap s)); [|done]. by intros [= <-].
Qed.

(** The flag of a record is set to yes after each of its dependencies
    was found registered, compatible and listed. *)
Lemma groundedWith_yes l key s p :
  groundedWith l s → find key (pluginsMap s) = Some p →
  (∀ dep, dep ∈ PluginInfoStd.dependencies (info p) →
     Dependency.name dep ∈ l ∧
     ∃ pd, find (Dependency.name dep) (pluginsMap s) = Some pd ∧
           Version_compatible (PluginInfoStd.version (info pd))
                              (Dependency.version dep) = true) →
  groundedWith (key :: l) (modify key (set_dependenciesExists tri_true) s).
Proof.
  intros (Hflags & Hkeys & Hg) Hp Hdeps.
  assert (infos (pluginsMap (modify key (set_dependenciesExists tri_true) s))
          = infos (pluginsMap s)) as Hinfo by (simpl; by apply infos_update).
  split_and!.
  - intros k p'. simpl. rewrite find_update.
    case_decide; [subst k; intros; by left|]. intros ? ?. right. eauto.
  - intros k [->|Hk]%elem_of_cons; simpl; rewrite keys_update.
    + apply find_is_Some. eauto.
    + auto.
  - apply (groundedBy_infos _ (pluginsMap s)); [done|]. split; [|done].
    intros p0 dep Hp0 Hdep. rewrite Hp in Hp0. injection Hp0 as <-. auto.
Qed.

Lemma succeeded_SUCCESS code : succeeded code = true ↔ code = SUCCESS.
Proof. by destruct code. Qed.

Section each.
Variable check : string → PlugMgrPrivate → CheckResult.
Variable cb : bool.
Hypothesis check_frame : ∀ key s rc s',
  check key s = Done (rc, s') → flagsOnly s s'.
Hypothesis check_grounded : ∀ key s rc s' l,
  check key s = Done (rc, s') → groundedWith l s →
  ∃ l', groundedWith (l' ++ l) s' ∧ (rc = SUCCESS → key ∈ l' ++ l).

Lemma checkEach_grounded key pluginPath : ∀ deps s rc s' l p,
  checkEach check cb key pluginPath deps s = Done (rc, s') →
  groundedWith l s → find key (pluginsMap s) = Some p →
  (∀ dep, dep ∈ PluginInfoStd.dependencies (info p) →
     dep ∈ deps ∨
     (Dependency.name dep ∈ l ∧
      ∃ pd, find (Dependency.name dep) (pluginsMap s) = Some pd ∧
            Version_compatible (PluginInfoStd.version (info pd))
                               (Dependency.version dep) = true)) →
  ∃ l', groundedWith (l' ++ l) s' ∧ (rc = SUCCESS → key ∈ l' ++ l).
Proof using check_frame check_grounded.
  induction deps as [|dep deps IH]; intros s rc s' l p H Hg Hp Hdone;
    simpl in H.
  - simplify_eq. exists [key]. split; [|intros _; by left].
    eapply groundedWith_yes; [done..|].
    intros dep Hdep. by destruct (Hdone _ Hdep) as [?%elem_of_nil|?].
  - destruct (find (Dependency.name dep) (pluginsMap s)) as [depPlugin|]
      eqn:Hfind.
    2:{ simplify_eq. exists []. split; [|done].
        by apply groundedWith_callback, groundedWith_no. }
    destruct (Version_compatible _ _) eqn:Hcompat; simpl in H.
    2:{ simplify_eq. exists []. split; [|done].
        by apply groundedWith_callback, groundedWith_no. }
    destruct (check (Dependency.name dep) s) as [[rc1 s1]| |] eqn:Hcheck;
      try done.
    pose proof (check_frame _ _ _ _ Hcheck) as Hframe.
    destruct (check_grounded _ _ _ _ _ Hcheck Hg) as (l1 & Hg1 & Hin1).
    destruct (succeeded rc1) eqn:Hrc1.
    2:{ simplify_eq. exists l1. split; [done|].
        intros ->. done. }
    apply succeeded_SUCCESS in Hrc1 as ->. specialize (Hin1 eq_refl).
    assert (∀ k q, find k (pluginsMap s) = Some q →
              ∃ q', find k (pluginsMap s1) = Some q' ∧ info q' = info q)
      as Hkeep.
    { intros k q Hq. pose proof (flagsOnly_sameInfos _ _ Hframe) as (Hi & _).
      pose proof (find_infos k _ _ Hi) as Hk. rewrite Hq in Hk.
      destruct (find k (pluginsMap s1)) as [q'|]; [|done].
      simpl in Hk. injection Hk as Hk. eauto. }
    destruct (Hkeep _ _ Hp) as (p1 & Hp1 & Hinfo1).
    destruct (IH _ _ _ _ _ H Hg1 Hp1) as (l2 & Hg2 & Hin2).
    { rewrite Hinfo1. intros dep' Hdep'.
      destruct (Hdone _ Hdep') as [[->|?]%elem_of_cons|(Hl & pd & Hpd & Hc)].
      - right. split; [done|].
        destruct (Hkeep _ _ Hfind) as (pd' & Hpd' & Hi').
        exists pd'. by rewrite Hi'.
      - by left.
      - right. split; [apply elem_of_app; by right|].
        destruct (Hkeep _ _ Hpd) as (pd' & Hpd' & Hi').
        exists pd'. by rewrite Hi'. }
    exists (l2 ++ l1). by rewrite <- app_assoc.
Qed.
End each.

(** A dependency check keeps the flags grounded, and lists the record it
    answers [SUCCESS] for. *)
Lemma checkDependencies_grounded fuel cb : ∀ key s rc s' l,
  checkDependencies fuel cb key s = Done (rc, s') → groundedWith l s →
  ∃ l', groundedWith (l' ++ l) s' ∧ (rc = SUCCESS → key ∈ l' ++ l).
Proof.
  induction fuel as [|fuel IH]; intros key s rc s' l H Hg; [done|].
  simpl in H. destruct (find key (pluginsMap s)) as [plugin|] eqn:Hfind;
    [|done].
  destruct (dependenciesExists plugin) eqn:Hflag.
  - eapply checkEach_grounded; [apply checkDependencies_frame|apply IH|
      done..|]. by left.
  - simplify_eq. exists []. split; [done|]. intros _. simpl.
    destruct Hg as (Hflags & _). eauto.
  - simplify_eq. exists []. split; [done|]. by case_decide.
Qed.

(** A dependency check answers one of three codes, and leaves the flags
    that were set before it as they are. *)
Lemma checkDependencies_answer fuel cb : ∀ key s rc s',
  checkDependencies fuel cb key s = Done (rc, s') →
  (rc = SUCCESS ∨ rc = LOAD_DEPENDENCY_NOT_FOUND ∨
   rc = LOAD_DEPENDENCY_BAD_VERSION) ∧
  ∀ k p, find k (pluginsMap s) = Some p →
    dependenciesExists p ≠ indeterminate →
    find k (pluginsMap s') = Some p.
Proof.
  induction fuel as [|fuel IH]; intros key s rc s' H; [done|].
  simpl in H. destruct (find key (pluginsMap s)) as [plugin|] eqn:Hfind;
    [|done].
  destruct (dependenciesExists plugin) eqn:Hflag.
  2:{ simplify_eq. by auto. }
  2:{ simplify_eq. split; [case_decide; auto|done]. }
  assert (∀ deps s0 rc0 s0',
            checkEach (checkDependencies fuel cb) cb key (path plugin) deps s0
              = Done (rc0, s0') →
            (rc0 = SUCCESS ∨ rc0 = LOAD_DEPENDENCY_NOT_FOUND ∨
             rc0 = LOAD_DEPENDENCY_BAD_VERSION) ∧
            ∀ k p, k ≠ key → find k (pluginsMap s0) = Some p →
              dependenciesExists p ≠ indeterminate →
              find k (pluginsMap s0') = Some p) as Hloop.
  { induction deps as [|dep deps IHdeps]; intros s0 rc0 s0' H0; simpl in H0.
    - simplify_eq. split; [by auto|]. intros k p Hk Hp _. simpl.
      by rewrite find_update_ne.
    - destruct (find (Dependency.name dep) (pluginsMap s0)) as [depPlugin|].
      2:{ simplify_eq. split; [by auto|]. intros k p Hk Hp _.
          destruct cb; simpl; by rewrite find_update_ne. }
      destruct (Version_compatible _ _); simpl in H0.
      2:{ simplify_eq. split; [by auto|]. intros k p Hk Hp _.
          destruct cb; simpl; by rewrite find_update_ne. }
      destruct (checkDependencies fuel cb (Dependency.name dep) s0)
        as [[rc1 s1]| |] eqn:Hcheck; try done.
      destruct (IH _ _ _ _ Hcheck) as [Hrc1 Hkeep1].
      destruct (succeeded rc1).
      + destruct (IHdeps _ _ _ H0) as [Hrc0 Hkeep0]. split; [done|].
        intros k p Hk Hp Hdet. apply Hkeep0; auto.
      + simplify_eq. split; [done|]. auto. }
  destruct (Hloop _ _ _ _ H) as [Hrc Hkeep]. split; [done|].
  intros k p Hp Hdet. apply Hkeep; [|done..]. intros ->. congruence.
Qed.

Lemma flagOf_graphId key g s k :
  flagOf (modify key (set_graphId g) s) k = flagOf s k.
Proof.
  unfold flagOf. simpl. rewrite find_update. case_decide; [|done].
  by destruct (find k (pluginsMap s)).
Qed.

Lemma groundedWith_graphId l key g s :
  groundedWith l s → groundedWith l (modify key (set_graphId g) s).
Proof.
  intros Hg. eapply groundedWith_same; [| |done].
  - simpl. by apply infos_update.
  - intros k p' Hp' Hflag. destruct Hg as (Hflags & _).
    pose proof (flagOf_graphId key g s k) as Hk. unfold flagOf in Hk.
    rewrite Hp' in Hk. simpl in Hk. rewrite Hflag in Hk.
    destruct (find k (pluginsMap s)) as [p|] eqn:Hp; [|done].
    simpl in Hk. injection Hk as Hk. eauto.
Qed.

(** The first loop of [loadPlugins]: it keeps the flags grounded and the
    flags that were set; a node is made for records whose flag is yes
    only; and it stops early only when asked to, with the code of a failed
    check. *)
Lemma checkAll_grounded fuel tryToContinue cb : ∀ todo ns s early nl' s' l,
  checkAll fuel tryToContinue cb todo (Graph.newNode <$> ns) s
    = Done (early, nl', s') →
  groundedWith l s →
  (∀ k, k ∈ ns → k ∈ l ∧ flagOf s k = Some tri_true) →
  ∃ l' ns',
    nl' = Graph.newNode <$> ns' ∧
    groundedWith (l' ++ l) s' ∧
    (∀ k, k ∈ ns' → k ∈ l' ++ l ∧ flagOf s' k = Some tri_true) ∧
    (∀ k v, flagOf s k = Some v → v ≠ indeterminate → flagOf s' k = Some v) ∧
    (∀ rc, early = Some rc →
       tryToContinue = false ∧
       (rc = LOAD_DEPENDENCY_NOT_FOUND ∨ rc = LOAD_DEPENDENCY_BAD_VERSION)).
Proof.
  induction todo as [|key todo IH]; intros ns s early nl' s' l H Hg Hns;
    simpl in H.
  - simplify_eq. exists [], ns. by split_and!.
  - destruct (checkDependencies _ _ _ _) as [[rc s1]| |] eqn:Hcheck;
      try done.
    destruct (checkDependencies_grounded _ _ _ _ _ _ _ Hcheck
                (groundedWith_graphId _ key (-1) _ Hg)) as (l1 & Hg1 & Hin1).
    destruct (checkDependencies_answer _ _ _ _ _ _ Hcheck) as [Hrc Hkeep].
    assert (∀ k v, flagOf s k = Some v → v ≠ indeterminate →
              flagOf s1 k = Some v) as Hfrozen1.
    { intros k v Hk Hv. rewrite <- (flagOf_graphId key (-1)) in Hk.
      unfold flagOf in *.
      destruct (find k (pluginsMap (modify key (set_graphId (-1)) s)))
        as [p|] eqn:Hp; [|done].
      simpl in Hk. injection Hk as Hk.
      rewrite (Hkeep _ _ Hp) by congruence. simpl. by f_equal. }
    assert (∀ k, k ∈ ns → k ∈ l1 ++ l ∧ flagOf s1 k = Some tri_true) as Hns1.
    { intros k Hk. destruct (Hns _ Hk) as [? ?]. split.
      - apply elem_of_app. by right.
      - by apply Hfrozen1. }
    destruct (negb tryToContinue && negb (succeeded rc)) eqn:Hstop.
    { simplify_eq. exists l1, ns. split_and!; try done.
      intros rc0 [= <-]. apply andb_true_iff in Hstop as [Htry Hfail].
      split; [by destruct tryToContinue|].
      destruct Hrc as [->|[->| ->]]; [done|by left|by right]. }
    destruct (find key (pluginsMap s1)) as [plugin|] eqn:Hfind; [|done].
    assert (∀ todo' ns0 s0,
              checkAll fuel tryToContinue cb todo' (Graph.newNode <$> ns0) s0
                = Done (early, nl', s') →
              groundedWith (l1 ++ l) s0 →
              (∀ k, k ∈ ns0 → k ∈ l1 ++ l ∧ flagOf s0 k = Some tri_true) →
              (∀ k v, flagOf s k = Some v → v ≠ indeterminate →
                      flagOf s0 k = Some v) →
              todo' = todo →
              ∃ l' ns', nl' = Graph.newNode <$> ns' ∧
                groundedWith (l' ++ l) s' ∧
                (∀ k, k ∈ ns' → k ∈ l' ++ l ∧ flagOf s' k = Some tri_true) ∧
                (∀ k v, flagOf s k = Some v → v ≠ indeterminate →
                        flagOf s' k = Some v) ∧
                (∀ rc, early = Some rc →
                   tryToContinue = false ∧
                   (rc = LOAD_DEPENDENCY_NOT_FOUND ∨
                    rc = LOAD_DEPENDENCY_BAD_VERSION))) as Hrest.
    { intros todo' ns0 s0 H0 Hg0 Hns0 Hfr0 ->.
      destruct (IH _ _ _ _ _ _ H0 Hg0 Hns0)
        as (l2 & ns' & -> & Hg2 & Hns2 & Hfr2 & Hearly).
      exists (l2 ++ l1), ns'. rewrite <- app_assoc. split_and!; try done.
      intros k v Hk Hv. apply Hfr2; [|done]. by apply Hfr0. }
    destruct (dependenciesExists plugin) eqn:Hflag.
    + by eapply Hrest.
    + eapply (Hrest todo (ns ++ [key]));
        [rewrite fmap_app; exact H|by apply groundedWith_graphId| | |done].
      * intros k Hk. rewrite flagOf_graphId.
        apply elem_of_app in Hk as [Hk|Hk]; [by auto|].
        apply list_elem_of_singleton in Hk as ->. split.
        -- destruct Hg1 as (Hflags1 & _). eauto.
        -- unfold flagOf. by rewrite Hfind; simpl; f_equal.
      * intros k v Hk Hv. rewrite flagOf_graphId. by apply Hfrozen1.
    + by eapply Hrest.
Qed.

(** The nodes and the edges of the graph that [loadPlugins] sorts. *)
Lemma graph_node ns (m : PluginsMap) nl (g : nat) node :
  numbered (keys m) ns m → filled (keys m) ns m nl → nl !! g = Some node →
  ∃ p ids,
    ns !! g = Some (Graph.name node) ∧ find (Graph.name node) m = Some p ∧
    parentIds (PluginInfoStd.dependencies (info p)) m = Some ids ∧
    node = Graph.mkNode (Graph.name node) ids Graph.UNMARKED.
Proof.
  intros (Hnd & Hsub & Hid) (Hlen & Hfill) Hg.
  destruct (lookup_lt_is_Some_2 ns g) as [k Hk].
  { rewrite <- Hlen. by eapply lookup_lt_Some. }
  destruct (Hfill _ _ Hk) as [Hvis _].
  destruct Hvis as (p & ids & Hp & Hids & Hnode).
  { apply Hsub. by eapply list_elem_of_lookup_2. }
  rewrite Hg in Hnode. injection Hnode as ->. simpl. by exists p, ids.
Qed.

Lemma graph_edge ns (m : PluginsMap) nl (g p' : nat) :
  numbered (keys m) ns m → filled (keys m) ns m nl → Graph.edge nl g p' →
  ∃ k d, ns !! g = Some k ∧ ns !! p' = Some d ∧ dependsOn m k d.
Proof.
  intros Hnum Hfill (node & Hg & Hin).
  destruct (graph_node _ _ _ _ _ Hnum Hfill Hg) as (p & ids & Hk & Hp & Hids & Hnode).
  rewrite Hnode in Hin. simpl in Hin.
  unfold parentIds in Hids. apply mapM_Some_1 in Hids.
  apply list_elem_of_lookup_1 in Hin as [a Ha].
  destruct (Forall2_lookup_r _ _ _ _ _ Hids Ha) as (dep & Hdep & Hfind).
  destruct (find (Dependency.name dep) m) as [pd|] eqn:Hpd; simplify_eq/=.
  destruct Hnum as (_ & _ & Hid).
  assert (Dependency.name dep ∈ keys m) as Hkey by (apply find_is_Some; eauto).
  destruct (Hid _ _ Hkey Hpd) as [[Hneg _]|[_ Hns]]; [lia|].
  rewrite Hfind, Nat2Z.id in Hns.
  exists (Graph.name node), (Dependency.name dep). split_and!; [done..|].
  exists p. split; [done|]. unfold dependencyNames.
  apply list_elem_of_fmap_2. by eapply list_elem_of_lookup_2.
Qed.

(** The graph has no cycle when the records of its nodes are listed by a
    grounding list. *)
Lemma graph_acyclic l ns (m : PluginsMap) nl :
  numbered (keys m) ns m → filled (keys m) ns m nl → groundedBy l m →
  (∀ k, k ∈ ns → k ∈ l) → ¬ Graph.hasCycle nl.
Proof.
  intros Hnum Hfill Hg Hns [v Hcycle].
  set (f := λ g : nat, default "" (ns !! g)).
  assert (tc (dependsOn m) (f v) (f v)) as Hk.
  { eapply (tc_congruence f); [|done]. intros x y Hxy.
    destruct (graph_edge _ _ _ _ _ Hnum Hfill Hxy) as (k & d & Hk & Hd & Hdep).
    unfold f. by rewrite Hk, Hd. }
  eapply groundedBy_acyclic; [done| |done].
  apply Hns.
  assert (∃ y, Graph.edge nl v y) as [y Hvy].
  { inversion Hcycle; eauto. }
  destruct (graph_edge _ _ _ _ _ Hnum Hfill Hvy) as (k & d & Hv & _).
  unfold f. rewrite Hv. by eapply list_elem_of_lookup_2.
Qed.

Lemma groundedBy_lookup l (m : PluginsMap) k p dep :
  groundedBy l m → k ∈ l → find k m = Some p →
  dep ∈ PluginInfoStd.dependencies (info p) →
  Dependency.name dep ∈ l ∧
  ∃ pd, find (Dependency.name dep) m = Some pd ∧
        Version_compatible (PluginInfoStd.version (info pd))
                           (Dependency.version dep) = true.
Proof.
  intros Hg Hk Hp Hdep. induction l as [|k0 older IH];
    [by apply elem_of_nil in Hk|].
  destruct Hg as [Hhead Htail].
  apply elem_of_cons in Hk as [->|Hk].
  - destruct (Hhead _ _ Hp Hdep) as [? ?]. split; [by right|done].
  - destruct (IH Htail Hk) as [? ?]. split; [by right|done].
Qed.

(** What [loadPlugins] does to grounded flags, whatever it answers. *)
Lemma loadPlugins_checked fuel tryToContinue cb s code s' l :
  uniqueKeys s → Z.of_nat (length (pluginsMap s)) < 2 ^ 31 →
  groundedWith l s →
  loadPlugins fuel tryToContinue cb s = Done (code, s') →
  (code = SUCCESS ∨ code = LOAD_DEPENDENCY_NOT_FOUND ∨
   code = LOAD_DEPENDENCY_BAD_VERSION) ∧
  (tryToContinue = true → code = SUCCESS) ∧
  ∃ l', groundedWith (l' ++ l) s' ∧
    (∀ k v, flagOf s k = Some v → v ≠ indeterminate → flagOf s' k = Some v) ∧
    (code = SUCCESS →
       ∀ P, P ∈ loadOrderList s' → P ∈ l' ++ l ∧ flagOf s' P = Some tri_true).
Proof.
  intros Hnd Hsize Hg H. unfold loadPlugins in H.
  destruct (checkAll _ _ _ _ _ _) as [[[early nodeList] s1]| |] eqn:H1;
    try done.
  destruct (checkAll_grounded _ _ _ _ [] _ _ _ _ _ H1 Hg)
    as (l1 & ns & -> & Hg1 & Hns & Hfrozen & Hearly).
  { by intros k ?%elem_of_nil. }
  destruct early as [rc|].
  { simplify_eq. destruct (Hearly _ eq_refl) as [-> Hrc].
    split_and!; [tauto|done|]. exists l1. split_and!; [done..|].
    intros ->. by destruct Hrc. }
  assert (numbered [] [] (pluginsMap s)) as Hinit.
  { split_and!; [constructor|by intros ? ?%elem_of_nil|].
    by intros ? ? ?%elem_of_nil. }
  assert (Z.of_nat (length ([] ++ keys (pluginsMap s))) < 2 ^ 31) as Hsize'.
  { unfold keys. simpl. by rewrite length_fmap. }
  destruct (checkAll_numbered _ _ _ _ [] [] [] _ _ _ eq_refl Hnd Hsize' eq_refl
              Hinit H1) as (ns0 & Hns0 & Hnum & Hinfo & _ & _).
  assert (ns0 = ns) as ->.
  { assert (Inj (=) (=) Graph.newNode) as Hinj by (by intros a b [=]).
    by apply (inj (fmap Graph.newNode)). }
  simpl in Hnum. rewrite <- (sameInfos_keys _ _ Hinfo) in Hnum.
  destruct (fillParents _ _ _) as [nl| |] eqn:H2; try done.
  assert (filled (keys (pluginsMap s1)) ns (pluginsMap s1) nl) as Hfill.
  { eapply (fillParents_filled ns _ _ []); [done| |done| |done].
    - by rewrite (sameInfos_keys _ _ Hinfo).
    - split; [by rewrite length_fmap|]. intros g k Hk.
      split; [by intros ?%elem_of_nil|]. intros _.
      by rewrite list_lookup_fmap, Hk. }
  assert (Graph.unmarked nl) as Hfresh.
  { apply Forall_forall. intros node [g Hnode]%list_elem_of_lookup_1.
    destruct (graph_node _ _ _ _ _ Hnum Hfill Hnode) as (p & ids & _ & _ & _ & ->).
    done. }
  destruct (Graph.topologicalSort nl) as [[[error order] nl3]| |] eqn:H3;
    try done.
  destruct error.
  { exfalso. destruct Hg1 as (_ & _ & Hby).
    apply (graph_acyclic _ _ _ _ Hnum Hfill Hby); [intros k Hk; by apply Hns|].
    eapply SortFacts.sortLoop_error; [exact H3|]. intros t node Ht.
    unfold Graph.unmarked in Hfresh. rewrite Forall_forall in Hfresh.
    apply list_elem_of_lookup_2, Hfresh in Ht. congruence. }
  destruct (loadPluginsInOrder _) as [s3| |] eqn:H4; try done.
  destruct (callMainPlugin s3) as [s4| |] eqn:H5; try done. simplify_eq.
  split_and!; [by left|done|]. exists l1.
  pose proof (loadEach_sameInfos _ _ _ H4) as [Hinfo3 Hord3].
  pose proof (callMainPlugin_sameInfos _ _ H5) as [Hinfo4 Hord4].
  pose proof (loadEach_fields dependenciesExists (λ _ _, eq_refl) _ _ _ H4)
    as Hflags3.
  pose proof (callMainPlugin_registry _ _ H5) as Hm4. simpl in Hflags3.
  assert (∀ k, flagOf s' k = flagOf s1 k) as Hflag.
  { intros k. unfold flagOf. rewrite Hm4.
    by apply (fields_find dependenciesExists). }
  split_and!.
  - eapply groundedWith_same; [| |exact Hg1].
    + destruct Hinfo3 as [Hi3 _], Hinfo4 as [Hi4 _]. simpl in Hi3. congruence.
    + intros k p' Hp' Hyes. destruct Hg1 as (Hflags1 & _).
      pose proof (Hflag k) as Hk. unfold flagOf in Hk. rewrite Hp' in Hk.
      destruct (find k (pluginsMap s1)) as [p1|] eqn:Hp1; [|done].
      simpl in Hk. injection Hk as Hk. eapply Hflags1; [done|congruence].
  - intros k v Hk Hv. rewrite Hflag. by apply Hfrozen.
  - intros _ P HP. rewrite Hord4, Hord3 in HP. simpl in HP.
    rewrite Hflag. apply Hns.
    destruct (GraphFacts.topologicalSort_sound _ _ _ Hfresh H3)
      as (ids & Hat & _).
    apply list_elem_of_lookup_1 in HP as [j Hj].
    destruct (Forall2_lookup_r _ _ _ _ _ Hat Hj) as (g & _ & Hg').
    destruct (nl !! g) as [node|] eqn:Hnode; [|done].
    destruct (graph_node _ _ _ _ _ Hnum Hfill Hnode) as (p & ids' & Hk & _).
    simpl in Hg'. injection Hg' as <-. by eapply list_elem_of_lookup_2.
Qed.

End host.
End DependencyFacts.

(** ** The load of all plugins in the managers an application can get to *)

Module LoadAllFacts.
Import ManagerSpec FacadeSpec RegistryFacts CheckFacts LoadFacts UnloadFacts
       SearchFacts InvariantFacts LifecycleFacts FrameFacts DiscoveryFacts
       TargetedUnloadFacts FacadeFacts DependencyFacts.

Section host.
Context `{host : Host}.

Lemma groundedBy_grow l (m m' : PluginsMap) :
  (∀ k q, find k m = Some q → find k m' = Some q) →
  (∀ k, k ∈ l → k ∈ keys m) →
  groundedBy l m → groundedBy l m'.
Proof.
  intros Hkeep. induction l as [|k older IH]; [done|].
  intros Hkeys [Hhead Htail]. split.
  - intros p dep Hp Hdep.
    assert (find k m = Some p) as Hp0.
    { destruct (proj2 (find_is_Some k m)) as [q Hq]; [apply Hkeys; by left|].
      pose proof (Hkeep _ _ Hq). congruence. }
    destruct (Hhead _ _ Hp0 Hdep) as (? & pd & Hpd & ?). eauto.
  - apply IH; [|done]. intros k' Hk'. apply Hkeys. by right.
Qed.

(** The load of the plugins of the load order and the run of the main
    plugin leave the flags and the metadata as they are. *)
Lemma groundedWith_loaded l order s1 s3 s4 :
  loadPluginsInOrder (with_loadOrderList order s1) = Done s3 →
  callMainPlugin s3 = Done s4 →
  groundedWith l s1 → groundedWith l s4.
Proof.
  intros H4 H5 Hg1.
  pose proof (loadEach_sameInfos _ _ _ H4) as [[Hi3 _] _].
  pose proof (loadEach_fields dependenciesExists (λ _ _, eq_refl) _ _ _ H4)
    as Hflags3.
  pose proof (callMainPlugin_registry _ _ H5) as Hm4. simpl in Hflags3, Hi3.
  eapply groundedWith_same; [| |exact Hg1].
  - congruence.
  - intros k p' Hp' Hyes. destruct Hg1 as (Hflags1 & _).
    rewrite Hm4 in Hp'.
    destruct (fields_find_Some dependenciesExists k _ _ _ Hflags3 Hp')
      as (p1 & Hp1 & Hflag). eapply Hflags1; [done|congruence].
Qed.

Lemma loadPlugins_grounded fuel tryToContinue cb s code s' :
  grounded s → loadPlugins fuel tryToContinue cb s = Done (code, s') →
  grounded s'.
Proof.
  intros [l Hg] H. unfold loadPlugins in H.
  destruct (checkAll _ _ _ _ _ _) as [[[early nodeList] s1]| |] eqn:H1;
    try done.
  destruct (checkAll_grounded _ _ _ _ [] _ _ _ _ _ H1 Hg)
    as (l1 & ns & -> & Hg1 & _).
  { by intros k ?%elem_of_nil. }
  exists (l1 ++ l).
  destruct early as [rc|]; [by simplify_eq|].
  destruct (fillParents _ _ _) as [nl| |]; try done.
  destruct (Graph.topologicalSort nl) as [[[error order] nl3]| |]; try done.
  destruct error; [simplify_eq; by destruct cb|].
  destruct (loadPluginsInOrder _) as [s3| |] eqn:H4; try done.
  destruct (callMainPlugin s3) as [s4| |] eqn:H5; try done. simplify_eq.
  by eapply groundedWith_loaded.
Qed.

(** Targeted unloads keep the flags grounded: the list loses the records
    removed. *)
Lemma groundedWith_unloaded l s s' removed :
  unloadedTo s s' removed → allOpen s → groundedWith l s →
  groundedWith (filter (λ k, k ∉ removed) l) s'.
Proof.
  intros H1 Hopen (Hflags & Hkeys & Hg).
  pose proof H1 as (_ & _ & _ & _ & Hreg & _ & _ & Hdecl & _).
  split_and!.
  - intros k p Hp Hyes. apply Hreg in Hp as [Hp Hout].
    apply list_elem_of_filter. split; [done|]. eauto.
  - intros k [Hout Hk]%list_elem_of_filter.
    apply (unloadedTo_keys _ _ _ _ H1). auto.
  - clear Hflags Hkeys. induction l as [|k older IH]; [done|].
    destruct Hg as [Hhead Htail]. rewrite filter_cons.
    case_decide as Hk; [|by apply IH]. split; [|by apply IH].
    intros p dep Hp Hdep. pose proof Hp as Hp'. apply Hreg in Hp as [Hp _].
    destruct (Hhead _ _ Hp Hdep) as (Hin & pd & Hpd & Hcompat).
    assert (Dependency.name dep ∉ removed) as Hstay.
    { intros Hgone. apply (Hdecl _ Hgone k). exists p.
      split_and!; [done|by eapply Hopen|].
      unfold dependencyNames. by apply list_elem_of_fmap_2. }
    split; [by apply list_elem_of_filter|].
    exists pd. split; [|done]. by apply Hreg.
Qed.

Lemma perform_grounded fuel call s s' :
  wellFormed s → grounded s → perform fuel call s = Some s' → grounded s'.
Proof.
  intros (Hu & Hopen & _) [l Hg] H. destruct call; simpl in H.
  - simplify_eq. exists l.
    destruct (searchForPlugins_grows pluginDir recursive cb s Hu)
      as (_ & _ & _ & Hkeep & _).
    destruct (searchForPlugins_cases pluginDir recursive cb s Hu)
      as (_ & _ & _ & _ & Hnew).
    destruct Hg as (Hflags & Hkeys & Hby). split_and!.
    + intros k p Hp Hyes.
      destruct (find k (pluginsMap s)) as [q|] eqn:Hq.
      * pose proof (Hkeep _ _ Hq). eapply Hflags; [done|congruence].
      * destruct (Hnew _ _ Hp Hq) as (? & ? & ? & _ & _ & _ & _ & ->). done.
    + intros k [q Hq]%Hkeys%find_is_Some. apply find_is_Some. eauto.
    + by eapply groundedBy_grow.
  - simplify_eq. exists l. unfold registerMainPlugin.
    destruct (_ && _); [|done]. simpl.
    eapply groundedWith_same; [| |exact Hg].
    + simpl. by apply infos_update.
    + intros k p'. simpl. rewrite find_update. destruct Hg as (Hflags & _).
      case_decide; [|by eauto].
      destruct (find k (pluginsMap s)) as [p|] eqn:Hp; [|done].
      intros [= <-]. simpl. eauto.
  - destruct (loadPlugins _ _ _ _) as [[rc s1]| |] eqn:Hload; simplify_eq.
    eapply loadPlugins_grounded; [by exists l|done].
  - destruct (unloadPlugins _ _) as [[rc s1]| |] eqn:Hunload; simplify_eq.
    apply unloadPlugins_inv in Hunload as (Hm & _). exists [].
    split_and!; [|by intros k ?%elem_of_nil|done].
    intros k p. by rewrite Hm.
  - destruct (loadPlugin _ _ _) as [[ok s1]| |] eqn:Hload; simplify_eq.
    unfold loadPlugin in Hload.
    destruct (find pluginName (pluginsMap s)) as [plugin|] eqn:Hfind.
    + rewrite (Hopen _ _ Hfind) in Hload. simplify_eq. by exists l.
    + simplify_eq. by exists l.
  - destruct (loadPluginFromPath _ _ _) as [[ok s1]| |] eqn:Hload;
      simplify_eq.
    destruct (loadPluginFromPath_Done _ _ _ _ _ Hopen Hload)
      as [(_ & -> & _)|(file & n & _ & _ & _ & [[_ ->]|(Hfresh & _ & ->)])];
      [by exists l..|].
    exists (n :: l). destruct Hg as (Hflags & Hkeys & Hby).
    assert (∀ k, k ≠ n →
              find k (update n (set_iplugin (Some (InstanceOf "")))
                       (update n (set_dependenciesExists tri_true)
                          (assign n (set_lib (Some file) newPlugin)
                                  (pluginsMap s)))) = find k (pluginsMap s))
      as Hother.
    { intros k Hk. by rewrite !find_update_ne, find_assign, decide_False. }
    split_and!; simpl.
    + intros k p Hp Hyes. destruct (decide (k = n)) as [->|Hk]; [by left|].
      right. rewrite Hother in Hp by done. eauto.
    + intros k [->|Hk]%elem_of_cons; rewrite !keys_update, keys_assign;
        rewrite decide_False by done; apply elem_of_app; [right; by left|].
      left. auto.
    + split.
      * intros p dep. rewrite !find_update_eq, find_assign, decide_True by done.
        intros [= <-]. simpl. by intros ?%elem_of_nil.
      * eapply groundedBy_grow; [|done..]. intros k q Hq.
        rewrite Hother; [done|]. intros ->. apply Hfresh.
        apply find_is_Some. eauto.
  - destruct (unloadPlugin _ _ _) as [[ok s1|]| |] eqn:Hunload;
      simplify_eq.
    destruct (unloadPlugin_removes _ _ _ _ Hu Hunload) as (removed & H1 & _).
    eexists. by eapply groundedWith_unloaded.
Qed.

(** The dependency flags stay grounded through every call. *)
Lemma follows_grounded s s' :
  wellFormed s → grounded s → follows s s' → grounded s'.
Proof.
  intros Hs Hg. induction 1 as [|fuel call s1 s2 Hf IH Hcall]; [done|].
  eapply perform_grounded; [|done..]. by eapply follows_wellFormed.
Qed.

Lemma grounded_new : grounded emptyManager.
Proof. exists []. split_and!; [done|by intros k ?%elem_of_nil|done]. Qed.

Lemma reachable_grounded s :
  reachable s → uniqueKeys s ∧ allOpen s ∧ ∃ l, groundedWith l s.
Proof.
  intros Hreach.
  destruct (follows_wellFormed _ _ wellFormed_new Hreach) as (Hu & Hopen & _).
  split_and!; [done..|].
  exact (follows_grounded _ _ wellFormed_new grounded_new Hreach).
Qed.

(** X15. The invariant of the managers an application can get to: the keys
    of the registry are distinct, the library of every record is open, and
    no location is listed twice; and a record whose dependency flag is yes
    lies on no cycle of declared dependencies and has each declared
    dependency registered, in a version compatible with the one asked for. *)
Theorem reachable_invariant s :
  reachable s →
  wellFormed s ∧
  ∀ k p, find k (pluginsMap s) = Some p → dependenciesExists p = tri_true →
    ¬ tc (dependsOn (pluginsMap s)) k k ∧
    ∀ dep, dep ∈ PluginInfoStd.dependencies (info p) →
      hasPluginVersion (Dependency.name dep) (Dependency.version dep) s = true.
Proof.
  intros Hreach.
  pose proof (follows_wellFormed _ _ wellFormed_new Hreach) as Hwf.
  split; [done|].
  destruct (reachable_grounded _ Hreach) as (_ & _ & l & Hflags & _ & Hby).
  intros k p Hp Hyes. pose proof (Hflags _ _ Hp Hyes) as Hl. split.
  - by apply (groundedBy_acyclic l).
  - intros dep Hdep.
    destruct (groundedBy_lookup _ _ _ _ _ Hby Hl Hp Hdep)
      as (_ & pd & Hpd & Hc).
    unfold hasPluginVersion, hasPlugin, count. by rewrite Hpd, Hc.
Qed.

(** X16. In a manager an application can get to, [loadPlugins] never answers
    [LOAD_DEPENDENCY_CYCLE]: a yes flag is only set after the checks of all
    dependencies have returned, so the records whose flag is yes, which are
    the nodes of the graph, never lie on a cycle. And when it is asked to go
    on after a failed check, [loadPlugins] answers [SUCCESS] whenever it
    returns. *)
Theorem loadPlugins_never_cycle fuel tryToContinue cb s code s' :
  reachable s → Z.of_nat (length (pluginsMap s)) < 2 ^ 31 →
  loadPlugins fuel tryToContinue cb s = Done (code, s') →
  (code = SUCCESS ∨ code = LOAD_DEPENDENCY_NOT_FOUND ∨
   code = LOAD_DEPENDENCY_BAD_VERSION) ∧
  (tryToContinue = true → code = SUCCESS).
Proof.
  intros (Hu & _ & l & Hg)%reachable_grounded Hsize H.
  by destruct (loadPlugins_checked _ _ _ _ _ _ _ Hu Hsize Hg H) as (? & ? & _).
Qed.

(** X17. Every plugin of the load order of a successful [loadPlugins] has
    each of its declared dependencies registered, in a version that is
    compatible with the one it asks for. *)
Theorem loadPlugins_dependencies_met fuel tryToContinue cb s s' P p dep :
  reachable s → Z.of_nat (length (pluginsMap s)) < 2 ^ 31 →
  loadPlugins fuel tryToContinue cb s = Done (SUCCESS, s') →
  P ∈ loadOrderList s' → find P (pluginsMap s') = Some p →
  dep ∈ PluginInfoStd.dependencies (info p) →
  hasPluginVersion (Dependency.name dep) (Dependency.version dep) s' = true.
Proof.
  intros (Hu & _ & l & Hg)%reachable_grounded Hsize H HP Hp Hdep.
  destruct (loadPlugins_checked _ _ _ _ _ _ _ Hu Hsize Hg H)
    as (_ & _ & l1 & (_ & _ & Hby) & _ & Hin).
  destruct (Hin eq_refl _ HP) as [Hl _].
  destruct (groundedBy_lookup _ _ _ _ _ Hby Hl Hp Hdep) as (_ & pd & Hpd & Hc).
  unfold hasPluginVersion, hasPlugin, count. by rewrite Hpd, Hc.
Qed.

(** X18. A failed dependency check is never made again: a record whose flag
    is no keeps it through every search and every [loadPlugins], also when
    the dependency that was missing has been found since, and it is not in
    the load order of a successful [loadPlugins]. *)
Theorem loadPlugins_skips_failed fuel tryToContinue cb s code s' key :
  reachable s → Z.of_nat (length (pluginsMap s)) < 2 ^ 31 →
  flagOf s key = Some tri_false →
  (∀ pluginDir recursive cb',
     flagOf (searchForPlugins pluginDir recursive cb' s).2 key
       = Some tri_false) ∧
  (loadPlugins fuel tryToContinue cb s = Done (code, s') →
   flagOf s' key = Some tri_false ∧
   (code = SUCCESS → key ∉ loadOrderList s')).
Proof.
  intros (Hu & _ & l & Hg)%reachable_grounded Hsize Hno. split.
  - intros pluginDir recursive cb'.
    destruct (searchForPlugins_grows pluginDir recursive cb' s Hu)
      as (_ & _ & _ & Hkeep & _).
    unfold flagOf in *.
    destruct (find key (pluginsMap s)) as [p|] eqn:Hp; [|done].
    by rewrite (Hkeep _ _ Hp).
  - intros H.
    destruct (loadPlugins_checked _ _ _ _ _ _ _ Hu Hsize Hg H)
      as (_ & _ & l1 & _ & Hfrozen & Hin).
    pose proof (Hfrozen _ _ Hno) as Hno'. split; [by apply Hno'|].
    intros -> HP. destruct (Hin eq_refl _ HP) as [_ Hyes].
    rewrite Hno' in Hyes; done.
Qed.

End host.
End LoadAllFacts.

(** ** The plugin objects a load builds *)

Module CreationFacts.
Import ManagerSpec FacadeSpec RegistryFacts CheckFacts LoadFacts FrameFacts.
Import FacadeFacts DependencyFacts LoadAllFacts.

Lemma callbacksOnly_refl s : callbacksOnly s s.
Proof. exists []. by rewrite app_nil_r. Qed.

Lemma callbacksOnly_trans s1 s2 s3 :
  callbacksOnly s1 s2 → callbacksOnly s2 s3 → callbacksOnly s1 s3.
Proof.
  intros (e1 & H1 & F1) (e2 & H2 & F2). exists (e1 ++ e2).
  rewrite H2, H1, app_assoc. split; [done|]. by apply Forall_app.
Qed.

Lemma callbacksOnly_modify key f s : callbacksOnly s (modify key f s).
Proof. exists []. simpl. by rewrite app_nil_r. Qed.

Lemma callbacksOnly_callback cb code data s :
  callbacksOnly s (callback cb code data s).
Proof.
  exists (if cb then [Callback code data] else []).
  split; [apply TraceFacts.trace_callback|]. destruct cb; by repeat constructor.
Qed.

Lemma callbacksOnly_created s s' :
  callbacksOnly s s' →
  createdCalls (trace s') = createdCalls (trace s) ∧
  loadedCalls (trace s') = loadedCalls (trace s) ∧
  unloadCalls (trace s') = unloadCalls (trace s).
Proof.
  intros (events & -> & H). unfold createdCalls, loadedCalls, unloadCalls.
  rewrite !omap_app.
  induction H as [|e events He _ IH]; [by rewrite !app_nil_r|].
  by destruct e.
Qed.

Section host.
Context `{host : Host}.

Section check.
Variable check : string → PlugMgrPrivate → CheckResult.
Hypothesis check_callbacks : ∀ key s retCode s',
  check key s = Done (retCode, s') → callbacksOnly s s'.

Lemma checkEach_callbacks cb key pluginPath deps : ∀ s retCode s',
  checkEach check cb key pluginPath deps s = Done (retCode, s') →
  callbacksOnly s s'.
Proof using check_callbacks.
  induction deps as [|dep deps IH]; intros s retCode s' H; simpl in H.
  - simplify_eq. apply callbacksOnly_modify.
  - destruct (find _ _) as [depPlugin|].
    + destruct (negb _).
      * simplify_eq. eapply callbacksOnly_trans;
          [apply callbacksOnly_modify | apply callbacksOnly_callback].
      * destruct (check _ s) as [[rc s1]| |] eqn:Hc; try done.
        apply check_callbacks in Hc. destruct (succeeded rc).
        -- eapply callbacksOnly_trans; [done | by eapply IH].
        -- by simplify_eq.
    + simplify_eq. eapply callbacksOnly_trans;
        [apply callbacksOnly_modify | apply callbacksOnly_callback].
Qed.
End check.

Lemma checkDependencies_callbacks fuel cb : ∀ key s retCode s',
  checkDependencies fuel cb key s = Done (retCode, s') → callbacksOnly s s'.
Proof.
  induction fuel as [|fuel IH]; intros key s retCode s' H; [done|].
  simpl in H. destruct (find key (pluginsMap s)) as [plugin|]; [|done].
  destruct (dependenciesExists plugin).
  - by eapply checkEach_callbacks.
  - simplify_eq. apply callbacksOnly_refl.
  - simplify_eq. apply callbacksOnly_refl.
Qed.

Lemma checkAll_callbacks fuel tryToContinue cb :
  ∀ todo nodeList s early nodeList' s',
  checkAll fuel tryToContinue cb todo nodeList s = Done (early, nodeList', s') →
  callbacksOnly s s'.
Proof.
  induction todo as [|k todo IH]; intros nodeList s early nodeList' s' H;
    simpl in H.
  - simplify_eq. apply callbacksOnly_refl.
  - destruct (checkDependencies _ _ _ _) as [[rc s1]| |] eqn:Hc; try done.
    apply checkDependencies_callbacks in Hc.
    assert (callbacksOnly s s1) as H1.
    { eapply callbacksOnly_trans; [|done]. apply callbacksOnly_modify. }
    destruct (negb tryToContinue && negb (succeeded rc)); [by simplify_eq|].
    destruct (find k (pluginsMap s1)) as [p1|]; [|done].
    destruct (dependenciesExists p1);
      (eapply callbacksOnly_trans; [exact H1|]).
    + by eapply IH.
    + eapply callbacksOnly_trans; [|by eapply IH]. apply callbacksOnly_modify.
    + by eapply IH.
Qed.

Lemma pluginObject_find name s :
  pluginObject name s = find name (pluginsMap s) ≫= iplugin.
Proof.
  unfold pluginObject, hasPlugin, count.
  by destruct (find name (pluginsMap s)).
Qed.

Lemma dependencyObjects_fmap (m : PluginsMap) : ∀ deps objects,
  dependencyObjects deps m = Some objects →
  objects = (λ dep, find (Dependency.name dep) m ≫= iplugin) <$> deps.
Proof.
  induction deps as [|dep deps IH]; intros objects H; simpl in H.
  - by simplify_eq.
  - destruct (find (Dependency.name dep) m) as [pd|] eqn:Hpd; [|done].
    destruct (dependencyObjects deps m) as [rest|]; [|done].
    simplify_eq. rewrite fmap_cons, Hpd. simpl. f_equal. by apply IH.
Qed.

Lemma loadPlugin_created key s s' :
  PlugMgrPrivate_loadPlugin key s = Done s' →
  ∃ p, find key (pluginsMap s) = Some p ∧
    pluginsMap s' =
      update key (set_iplugin (Some (InstanceOf (path p)))) (pluginsMap s) ∧
    createdCalls (trace s') = createdCalls (trace s) ++
      [(key,
        (λ dep, find (Dependency.name dep) (pluginsMap s) ≫= iplugin)
          <$> PluginInfoStd.dependencies (info p),
        isMainPlugin p)].
Proof.
  unfold PlugMgrPrivate_loadPlugin. intros H.
  destruct (find key (pluginsMap s)) as [plugin|]; [|done].
  destruct (lib plugin) as [file|]; [|done].
  destruct (jp_createPlugin file); [|done].
  destruct (dependencyObjects _ _) as [objects|] eqn:Hobj; [|done].
  apply dependencyObjects_fmap in Hobj as ->. simplify_eq.
  exists plugin. split_and!; [done..|]. simpl. unfold createdCalls.
  rewrite !omap_app. simpl. by rewrite app_nil_r.
Qed.

(** The loop of [loadPluginsInOrder] over names that stand once and after
    their dependencies: [built] are the names before the loop's. *)
Lemma loadEach_created : ∀ names built s s',
  NoDup (built ++ names) →
  (∀ a P b p dep, names = a ++ P :: b → find P (pluginsMap s) = Some p →
     dep ∈ PluginInfoStd.dependencies (info p) →
     Dependency.name dep ∈ built ++ a) →
  (∀ k, k ∈ built → is_Some (pluginObject k s)) →
  loadEach names s = Done s' →
  createdCalls (trace s') = createdCalls (trace s) ++
    ((λ P, (P, dependencyObjectsOf s' P, isMainPluginOf s' P)) <$> names) ∧
  (∀ k, k ∉ names → find k (pluginsMap s') = find k (pluginsMap s)) ∧
  (∀ k, k ∈ built ++ names → is_Some (pluginObject k s')).
Proof.
  induction names as [|P names IH]; intros built s s' Hnd Hdeps Hbuilt H;
    simpl in H.
  - simplify_eq. rewrite !app_nil_r. by split_and!.
  - destruct (PlugMgrPrivate_loadPlugin P s) as [s1| |] eqn:H1; try done.
    apply loadPlugin_created in H1 as (p & Hp & Hm1 & Hc1).
    replace (built ++ P :: names) with ((built ++ [P]) ++ names) in *
      by (by rewrite <- app_assoc).
    assert (P ∉ names ∧ P ∉ built) as [HPn HPb].
    { apply NoDup_app in Hnd as (Hnb & Hdisj & _).
      apply NoDup_app in Hnb as (_ & Hdisj' & _). split.
      - intros Hin. apply (Hdisj P); [|done]. apply elem_of_app. right. by left.
      - intros Hin. apply (Hdisj' P Hin). by left. }
    destruct (IH (built ++ [P]) s1 s') as (Hc & Hsame & Hobj); [done| | |done|].
    { intros a P' b p' dep -> Hp' Hdep. rewrite <- app_assoc. simpl.
      apply (Hdeps (P :: a) P' b p' dep); [done| |done].
      rewrite Hm1, find_update_ne in Hp'; [done|].
      intros ->. apply HPn. apply elem_of_app. right. by left. }
    { intros k [Hk| ->%list_elem_of_singleton]%elem_of_app.
      - destruct (Hbuilt k Hk) as [o Ho]. exists o.
        rewrite pluginObject_find in *. rewrite Hm1, find_update_ne; [done|].
        by intros ->.
      - exists (InstanceOf (path p)).
        rewrite pluginObject_find, Hm1, find_update_eq, Hp. done. }
    split_and!; [|intros k Hk|done].
    + rewrite Hc, Hc1, <- app_assoc. f_equal. rewrite fmap_cons. simpl.
      f_equal. unfold dependencyObjectsOf, isMainPluginOf.
      rewrite (Hsame P HPn), Hm1, find_update_eq, Hp. simpl.
      f_equal. f_equal. unfold dependencyNames. simpl.
      rewrite <- list_fmap_compose. apply Forall_fmap_ext_1, Forall_forall.
      intros dep Hdep. simpl. rewrite pluginObject_find.
      assert (Dependency.name dep ∈ built) as HD.
      { specialize (Hdeps [] P names p dep eq_refl Hp Hdep).
        by rewrite app_nil_r in Hdeps. }
      rewrite Hsame, Hm1, find_update_ne; [done|by intros ->|].
      intros Hin. apply NoDup_app in Hnd as (_ & Hdisj & _).
      apply (Hdisj (Dependency.name dep)); [|done].
      apply elem_of_app. by left.
    + rewrite Hsame, Hm1, find_update_ne; [done| |].
      * intros ->. apply Hk. by left.
      * intros Hin. apply Hk. by right.
Qed.

(** The load order of a successful [loadPlugins] puts every declared
    dependency of a plugin before it. *)
Lemma loadPlugins_order_before fuel tryToContinue cb s s' a P b p dep :
  uniqueKeys s → Z.of_nat (length (pluginsMap s)) < 2 ^ 31 →
  loadPlugins fuel tryToContinue cb s = Done (SUCCESS, s') →
  loadOrderList s' = a ++ P :: b → find P (pluginsMap s') = Some p →
  dep ∈ PluginInfoStd.dependencies (info p) →
  Dependency.name dep ∈ a.
Proof.
  intros Hnd Hsize H Horder HP Hdep.
  destruct (loadPlugins_sorted _ _ _ _ _ Hnd Hsize H)
    as (s1 & ns & nl & ids & Hinfo & (_ & _ & Hid) & Hnode & _ & Hat & Hpp).
  assert (loadOrderList s' !! length a = Some P) as Hj.
  { rewrite Horder. by apply list_lookup_middle. }
  destruct (Forall2_lookup_r _ _ _ _ _ Hat Hj) as (g & Hg & HgP).
  destruct (Hnode _ _ HgP) as (p1 & pids & Hp & Hpids & Hnl).
  destruct (sameInfos_find _ _ _ _ Hinfo HP) as (p0 & Hp0 & Hinfop).
  rewrite Hp in Hp0. simplify_eq. rewrite Hinfop in Hdep.
  apply list_elem_of_lookup_1 in Hdep as [n Hn].
  unfold parentIds in Hpids. apply mapM_Some_1 in Hpids.
  destruct (Forall2_lookup_l _ _ _ _ _ Hpids Hn) as (gD & HgD & HfindD).
  destruct (find (Dependency.name dep) (pluginsMap s1)) as [pD|] eqn:HpD;
    simplify_eq/=.
  destruct (Hpp _ _ _ (graphId pD) Hg Hnl) as (Hpos & i & Hlt & Hi).
  { simpl. by eapply list_elem_of_lookup_2. }
  assert (Dependency.name dep ∈ keys (pluginsMap s1)) as HDkey.
  { apply find_is_Some. by rewrite HpD. }
  destruct (Hid _ _ HDkey HpD) as [[Hneg _]|[_ HnsD]]; [lia|].
  destruct (Forall2_lookup_l _ _ _ _ _ Hat Hi) as (D & HD & HDn).
  assert (D = Dependency.name dep) as -> by congruence.
  rewrite Horder, lookup_app_l in HD by done.
  by eapply list_elem_of_lookup_2.
Qed.

(** X19. A successful [loadPlugins] calls the factory of each plugin of the
    load order once, in that order, and hands it the plugin objects of its
    declared dependencies, in the order of the declaration; each of them has
    been built by then and is the one the registry holds afterwards. *)
Theorem loadPlugins_hands_dependencies fuel tryToContinue cb s s' :
  uniqueKeys s → Z.of_nat (length (pluginsMap s)) < 2 ^ 31 →
  loadPlugins fuel tryToContinue cb s = Done (SUCCESS, s') →
  createdCalls (trace s') = createdCalls (trace s) ++
    ((λ P, (P, dependencyObjectsOf s' P, isMainPluginOf s' P))
       <$> loadOrderList s') ∧
  ∀ P, P ∈ loadOrderList s' →
    is_Some (pluginObject P s') ∧ Forall is_Some (dependencyObjectsOf s' P).
Proof.
  intros Hu Hsize H.
  destruct (loadPlugins_order_registered _ _ _ _ _ Hu Hsize H) as [Hnd Hreg].
  assert (∀ a P b p dep, loadOrderList s' = a ++ P :: b →
            find P (pluginsMap s') = Some p →
            dep ∈ PluginInfoStd.dependencies (info p) →
            Dependency.name dep ∈ a) as Hbefore.
  { intros a P b p dep. by eapply loadPlugins_order_before. }
  destruct (loadPlugins_stages _ _ _ _ _ H)
    as (nodeList & s1 & nl & order & nl' & s3 & H1 & H2 & H3 & H4 & H5).
  apply checkAll_callbacks, callbacksOnly_created in H1 as (Hc1 & _).
  unfold loadPluginsInOrder in H4. simpl in H4.
  pose proof (loadEach_sameInfos _ _ _ H4) as [Hinfo3 Hord3].
  pose proof (callMainPlugin_sameInfos _ _ H5) as [Hinfo4 Hord4].
  pose proof (callMainPlugin_registry _ _ H5) as Hm4.
  assert (loadOrderList s' = order) as Horder by (by rewrite Hord4, Hord3).
  rewrite Horder in *.
  assert (createdCalls (trace s') = createdCalls (trace s3)) as Hc4.
  { unfold callMainPlugin in H5. case_decide; [by simplify_eq|].
    destruct (find _ _) as [plugin|]; [|done].
    destruct (iplugin plugin); [|done]. simplify_eq. simpl.
    unfold createdCalls. rewrite omap_app. simpl. by rewrite app_nil_r. }
  assert (∀ P, dependencyObjectsOf s' P = dependencyObjectsOf s3 P) as Hd4.
  { intros P. unfold dependencyObjectsOf. rewrite Hm4.
    destruct (find P (pluginsMap s3)); [|done].
    apply Forall_fmap_ext_1, Forall_forall. intros D _.
    by rewrite !pluginObject_find, Hm4. }
  assert (∀ P, isMainPluginOf s' P = isMainPluginOf s3 P) as Hi4.
  { intros P. unfold isMainPluginOf. by rewrite Hm4. }
  destruct (loadEach_created order [] (with_loadOrderList order s1) s3 Hnd)
    as (Hc & _ & Hobj); [| |exact H4|].
  { intros a P b p dep -> Hp Hdep. simpl.
    assert (is_Some (find P (pluginsMap s'))) as [p' Hp'].
    { apply find_is_Some, Hreg. apply elem_of_app. right. by left. }
    destruct (sameInfos_find _ _ _ _ Hinfo4 Hp') as (p3 & Hp3 & Hi3).
    destruct (sameInfos_find _ _ _ _ Hinfo3 Hp3) as (p2 & Hp2 & Hi2).
    simpl in Hp, Hp2. rewrite Hp in Hp2. simplify_eq.
    apply (Hbefore a P b p' dep eq_refl Hp'). by rewrite Hi3, Hi2. }
  { by intros k ?%elem_of_nil. }
  simpl in Hc. split.
  - rewrite Hc4, Hc, Hc1. f_equal.
    apply Forall_fmap_ext_1, Forall_forall. intros P _.
    by rewrite Hd4, Hi4.
  - intros P HP.
    assert (∀ k, k ∈ order → is_Some (pluginObject k s')) as Hobj'.
    { intros k Hk. rewrite pluginObject_find, Hm4, <- pluginObject_find.
      by apply Hobj. }
    split; [by apply Hobj'|].
    unfold dependencyObjectsOf.
    destruct (find P (pluginsMap s')) as [p'|] eqn:Hp'; [|done].
    apply list_elem_of_split in HP as (a & b & ->).
    apply Forall_fmap, Forall_forall. intros D HD. simpl.
    apply list_elem_of_fmap in HD as (dep & -> & Hdep).
    apply Hobj'. apply elem_of_app. left.
    by apply (Hbefore a P b p' dep eq_refl Hp').
Qed.

Lemma checkAll_loadOrder fuel tryToContinue cb :
  ∀ todo nodeList s early nodeList' s',
  checkAll fuel tryToContinue cb todo nodeList s = Done (early, nodeList', s') →
  loadOrderList s' = loadOrderList s.
Proof.
  induction todo as [|k todo IH]; intros nodeList s early nodeList' s' H;
    simpl in H.
  - by simplify_eq.
  - destruct (checkDependencies _ _ _ _) as [[rc s1]| |] eqn:Hc; try done.
    apply checkDependencies_frame in Hc as (_ & _ & Ho & _). simpl in Ho.
    destruct (negb tryToContinue && negb (succeeded rc)); [by simplify_eq|].
    destruct (find k (pluginsMap s1)) as [p1|]; [|done].
    destruct (dependenciesExists p1); apply IH in H; simpl in H; congruence.
Qed.

(** X20. A [loadPlugins] that returns another code than [SUCCESS] has built
    no plugin object and called nothing but the callback; when it stopped at
    a failed dependency check, the load order of the load before it is still
    stored. *)
Theorem loadPlugins_failure_builds_nothing fuel tryToContinue cb s code s' :
  loadPlugins fuel tryToContinue cb s = Done (code, s') → code ≠ SUCCESS →
  callbacksOnly s s' ∧
  (∀ name, pluginObject name s' = pluginObject name s) ∧
  (code ≠ LOAD_DEPENDENCY_CYCLE → loadOrderList s' = loadOrderList s).
Proof.
  intros H Hcode.
  assert (∀ name, pluginObject name s' = pluginObject name s) as Hobj.
  { intros name. rewrite !pluginObject_find.
    assert (fields iplugin (pluginsMap s') = fields iplugin (pluginsMap s))
      as Hfields.
    2:{ apply (fields_find _ name) in Hfields.
        by destruct (find name (pluginsMap s')), (find name (pluginsMap s));
          simplify_eq/=. }
    unfold loadPlugins in H.
    destruct (checkAll _ _ _ _ _ _) as [[[early nodeList] s1]| |] eqn:H1;
      try done.
    apply (checkAll_fields iplugin) in H1; [|done..].
    destruct early as [rc|]; [by simplify_eq|].
    destruct (fillParents _ _ _) as [nodeList'| |]; try done.
    destruct (Graph.topologicalSort _) as [[[error order] nodeList'']| |];
      try done.
    destruct error.
    { simplify_eq. by destruct cb. }
    destruct (loadPluginsInOrder _) as [s3| |]; try done.
    destruct (callMainPlugin s3) as [s4| |]; try done. by simplify_eq. }
  split_and!; [|done|].
  - unfold loadPlugins in H.
    destruct (checkAll _ _ _ _ _ _) as [[[early nodeList] s1]| |] eqn:H1;
      try done.
    apply checkAll_callbacks in H1.
    destruct early as [rc|]; [by simplify_eq|].
    destruct (fillParents _ _ _) as [nodeList'| |]; try done.
    destruct (Graph.topologicalSort _) as [[[error order] nodeList'']| |];
      try done.
    destruct error.
    { simplify_eq. eapply callbacksOnly_trans; [done|].
      apply (callbacksOnly_callback cb _ _ (with_loadOrderList order s1)). }
    destruct (loadPluginsInOrder _) as [s3| |]; try done.
    destruct (callMainPlugin s3) as [s4| |]; try done. by simplify_eq.
  - intros Hcycle. unfold loadPlugins in H.
    destruct (checkAll _ _ _ _ _ _) as [[[early nodeList] s1]| |] eqn:H1;
      try done.
    apply checkAll_loadOrder in H1.
    destruct early as [rc|]; [by simplify_eq|].
    destruct (fillParents _ _ _) as [nodeList'| |]; try done.
    destruct (Graph.topologicalSort _) as [[[error order] nodeList'']| |];
      try done.
    destruct error; [by simplify_eq|].
    destruct (loadPluginsInOrder _) as [s3| |]; try done.
    destruct (callMainPlugin s3) as [s4| |]; try done. by simplify_eq.
Qed.

End host.
End CreationFacts.

(** ** Cycles of declared dependencies *)

Module CycleFacts.
Import ManagerSpec FacadeSpec RegistryFacts CheckFacts LoadFacts FrameFacts.
Import InvariantFacts FacadeFacts DependencyFacts LoadAllFacts.

Section host.
Context `{host : Host}.

Lemma clearOfFailures_same s s' :
  infos (pluginsMap s') = infos (pluginsMap s) →
  (∀ k p', find k (pluginsMap s') = Some p' →
     dependenciesExists p' ≠ tri_false) →
  clearOfFailures s → clearOfFailures s'.
Proof.
  intros Hinfo Hflags Hmet k p' Hp'. split; [by eauto|].
  intros dep Hdep.
  pose proof (find_infos k _ _ Hinfo) as Hk. rewrite Hp' in Hk.
  destruct (find k (pluginsMap s)) as [p|] eqn:Hp; [|done]. simpl in Hk.
  injection Hk as Hk. rewrite Hk in Hdep.
  destruct (Hmet _ _ Hp) as [_ Hdeps].
  destruct (Hdeps _ Hdep) as (pd & Hpd & Hcompat).
  pose proof (find_infos (Dependency.name dep) _ _ Hinfo) as Hd.
  rewrite Hpd in Hd.
  destruct (find (Dependency.name dep) (pluginsMap s')) as [pd'|]; [|done].
  simpl in Hd. injection Hd as Hd. exists pd'. by rewrite Hd.
Qed.

Lemma clearOfFailures_graphId key g s :
  clearOfFailures s → clearOfFailures (modify key (set_graphId g) s).
Proof.
  intros Hmet. eapply clearOfFailures_same; [| |done].
  - simpl. by apply infos_update.
  - intros k p'. simpl. rewrite find_update.
    case_decide; [|by intros ?%Hmet; tauto].
    destruct (find k (pluginsMap s)) as [p|] eqn:Hp; [|done].
    intros [= <-]. simpl. by destruct (Hmet _ _ Hp).
Qed.

Lemma clearOfFailures_yes key s :
  clearOfFailures s →
  clearOfFailures (modify key (set_dependenciesExists tri_true) s).
Proof.
  intros Hmet. eapply clearOfFailures_same; [| |done].
  - simpl. by apply infos_update.
  - intros k p'. simpl. rewrite find_update.
    case_decide; [|by intros ?%Hmet; tauto].
    destruct (find k (pluginsMap s)) as [p|] eqn:Hp; [|done].
    by intros [= <-].
Qed.

(** A test of [clearOfFailures] that can be run. *)
Lemma clearOfFailures_checked s :
  forallb (λ kp : string * Plugin,
             match dependenciesExists kp.2 with
             | tri_false => false
             | _ => true
             end &&
             forallb (λ dep, hasPluginVersion (Dependency.name dep)
                                              (Dependency.version dep) s)
                     (PluginInfoStd.dependencies (info kp.2)))
          (pluginsMap s) = true →
  clearOfFailures s.
Proof.
  intros H k p Hp. apply find_Some_elem, list_elem_of_In in Hp.
  rewrite forallb_forall in H. apply H in Hp. simpl in Hp.
  apply andb_true_iff in Hp as [Hflag Hdeps]. split.
  - intros Hno. by rewrite Hno in Hflag.
  - intros dep Hdep%list_elem_of_In.
    rewrite forallb_forall in Hdeps. apply Hdeps in Hdep.
    unfold hasPluginVersion in Hdep. apply andb_true_iff in Hdep as [_ Hdep].
    destruct (find (Dependency.name dep) (pluginsMap s)) as [pd|]; [|done].
    by exists pd.
Qed.

Lemma clearOfFailures_split s :
  clearOfFailures s → noFailedCheck s ∧ dependenciesMet s.
Proof.
  intros Hmet. split.
  - intros k p Hp. by destruct (Hmet _ _ Hp).
  - intros k p dep Hp Hdep. destruct (Hmet _ _ Hp) as [_ Hdeps].
    destruct (Hdeps _ Hdep) as (pd & Hpd & Hc).
    unfold hasPluginVersion, hasPlugin, count. by rewrite Hpd, Hc.
Qed.

Section each.
Variable check : string → PlugMgrPrivate → CheckResult.
Variable cb : bool.
Hypothesis check_frame : ∀ key s rc s',
  check key s = Done (rc, s') → flagsOnly s s'.
Hypothesis check_met : ∀ key s,
  clearOfFailures s → key ∈ keys (pluginsMap s) →
  check key s = OutOfFuel ∨
  ∃ s', check key s = Done (SUCCESS, s') ∧ clearOfFailures s'.

Lemma checkEach_met key pluginPath : ∀ deps s p,
  clearOfFailures s → find key (pluginsMap s) = Some p →
  deps ⊆ PluginInfoStd.dependencies (info p) →
  checkEach check cb key pluginPath deps s = OutOfFuel ∨
  ∃ s', checkEach check cb key pluginPath deps s = Done (SUCCESS, s') ∧
        clearOfFailures s'.
Proof using check_frame check_met.
  induction deps as [|dep deps IH]; intros s p Hmet Hp Hsub; simpl.
  - right. eexists. split; [done|]. by apply clearOfFailures_yes.
  - destruct (Hmet _ _ Hp) as [_ Hdeps].
    destruct (Hdeps dep) as (pd & Hpd & Hcompat).
    { apply Hsub. by left. }
    rewrite Hpd, Hcompat. simpl.
    destruct (check_met (Dependency.name dep) s Hmet) as [->|(s1 & Hc & Hmet1)].
    { apply find_is_Some. by rewrite Hpd. }
    { by left. }
    rewrite Hc. simpl. pose proof (check_frame _ _ _ _ Hc) as Hframe.
    assert (is_Some (find key (pluginsMap s1))) as [p1 Hp1].
    { apply find_is_Some. rewrite (flagsOnly_keys _ _ Hframe).
      apply find_is_Some. by rewrite Hp. }
    destruct (flagsOnly_find _ _ _ _ Hframe Hp1) as (p0 & Hp0 & _ & Hi & _).
    rewrite Hp in Hp0. simplify_eq.
    apply (IH s1 p1 Hmet1 Hp1). rewrite Hi.
    intros d Hd. apply Hsub. by right.
Qed.
End each.

(** With all dependencies met, a dependency check that returns answers
    [SUCCESS]. *)
Lemma checkDependencies_met fuel cb : ∀ key s,
  clearOfFailures s → key ∈ keys (pluginsMap s) →
  checkDependencies fuel cb key s = OutOfFuel ∨
  ∃ s', checkDependencies fuel cb key s = Done (SUCCESS, s') ∧
        clearOfFailures s'.
Proof.
  induction fuel as [|fuel IH]; intros key s Hmet Hkey; [by left|].
  simpl. apply find_is_Some in Hkey as [p Hp]. rewrite Hp.
  destruct (dependenciesExists p) eqn:Hflag.
  - eapply checkEach_met; [apply checkDependencies_frame|apply IH|done..].
  - right. by exists s.
  - by destruct (Hmet _ _ Hp).
Qed.

Lemma checkAll_met fuel tryToContinue cb : ∀ todo nodeList s l,
  clearOfFailures s → groundedWith l s →
  (∀ k, k ∈ todo → k ∈ keys (pluginsMap s)) →
  checkAll fuel tryToContinue cb todo nodeList s = OutOfFuel ∨
  ∃ nodeList' s' l',
    checkAll fuel tryToContinue cb todo nodeList s = Done (None, nodeList', s') ∧
    groundedWith (l' ++ l) s' ∧ ∀ k, k ∈ todo → k ∈ l' ++ l.
Proof.
  induction todo as [|key todo IH]; intros nodeList s l Hmet Hg Hkeys; simpl.
  - right. exists nodeList, s, []. split_and!; [done..|].
    by intros k ?%elem_of_nil.
  - destruct (checkDependencies_met fuel cb key
                (modify key (set_graphId (-1)) s)) as [->|(s1 & Hc & Hmet1)].
    { by apply clearOfFailures_graphId. }
    { simpl. rewrite keys_update. apply Hkeys. by left. }
    { by left. }
    rewrite Hc. simpl. rewrite andb_false_r.
    pose proof (checkDependencies_frame _ _ _ _ _ _ Hc) as Hframe.
    destruct (checkDependencies_grounded _ _ _ _ _ _ _ Hc
                (groundedWith_graphId _ key (-1) _ Hg)) as (l1 & Hg1 & Hin1).
    specialize (Hin1 eq_refl).
    assert (keys (pluginsMap s1) = keys (pluginsMap s)) as Hk1.
    { rewrite (flagsOnly_keys _ _ Hframe). simpl. apply keys_update. }
    assert (is_Some (find key (pluginsMap s1))) as [p1 Hp1].
    { apply find_is_Some. rewrite Hk1. apply Hkeys. by left. }
    rewrite Hp1.
    assert (∀ nodeList0 s0,
              clearOfFailures s0 → groundedWith (l1 ++ l) s0 →
              keys (pluginsMap s0) = keys (pluginsMap s) →
              checkAll fuel tryToContinue cb todo nodeList0 s0 = OutOfFuel ∨
              ∃ nodeList' s' l',
                checkAll fuel tryToContinue cb todo nodeList0 s0
                  = Done (None, nodeList', s') ∧
                groundedWith (l' ++ l) s' ∧
                ∀ k, k ∈ key :: todo → k ∈ l' ++ l) as Hrest.
    { intros nodeList0 s0 Hmet0 Hg0 Hk0.
      destruct (IH nodeList0 s0 (l1 ++ l) Hmet0 Hg0)
        as [->|(nl' & s' & l2 & -> & Hg2 & Hin2)]; [|by left|].
      { intros k Hk. rewrite Hk0. apply Hkeys. by right. }
      right. exists nl', s', (l2 ++ l1). rewrite <- app_assoc.
      split_and!; [done..|].
      intros k [->|Hk]%elem_of_cons; [|by auto].
      apply elem_of_app. by right. }
    destruct (dependenciesExists p1).
    + by apply Hrest.
    + apply Hrest.
      * by apply clearOfFailures_graphId.
      * by apply groundedWith_graphId.
      * simpl. by rewrite keys_update.
    + by apply Hrest.
Qed.

Lemma clearOfFailures_both s :
  noFailedCheck s → dependenciesMet s → clearOfFailures s.
Proof.
  intros Hflags Hmet k p Hp. split; [by eapply Hflags|].
  intros dep Hdep. specialize (Hmet _ _ _ Hp Hdep).
  unfold hasPluginVersion in Hmet. apply andb_true_iff in Hmet as [_ Hmet].
  destruct (find (Dependency.name dep) (pluginsMap s)) as [pd|]; [|done].
  by exists pd.
Qed.

(** X21. In a manager an application can get to, where no record has its
    dependency flag at no and every declared dependency is registered in
    a compatible version, a plugin on a cycle of declared dependencies
    keeps [loadPlugins] from returning: the recursion of the dependency
    check has no end, and the topological sort that would report the
    cycle is never reached. *)
Theorem loadPlugins_cycle_no_return fuel tryToContinue cb s key :
  reachable s → noFailedCheck s → dependenciesMet s →
  tc (dependsOn (pluginsMap s)) key key →
  loadPlugins fuel tryToContinue cb s = OutOfFuel.
Proof.
  intros (Hu & _ & l & Hg)%reachable_grounded Hflags Hdeps Hcycle.
  pose proof (clearOfFailures_both _ Hflags Hdeps) as Hmet.
  unfold loadPlugins.
  destruct (checkAll_met fuel tryToContinue cb (keys (pluginsMap s)) [] s l
              Hmet Hg) as [->|(nl' & s1 & l1 & Hc & (_ & _ & Hby) & Hin)];
    [done..|].
  exfalso.
  apply checkAll_sameInfos in Hc as (Hinfo & _).
  apply (groundedBy_acyclic (l1 ++ l) (pluginsMap s) key); [| |done].
  - by apply (groundedBy_infos _ (pluginsMap s1)).
  - apply Hin.
    assert (∃ p, find key (pluginsMap s) = Some p) as [p Hp].
    { inversion Hcycle as [? ? (p & Hp & _)|? ? ? (p & Hp & _) _]; eauto. }
    apply find_is_Some. by rewrite Hp.
Qed.

End host.
End CycleFacts.

(** ** Requests of plugins *)

Module RequestFacts.
Import ManagerSpec FacadeSpec RegistryFacts CStringUtil.

Lemma c_str_text str : text (c_str str) = text str.
Proof.
  induction str as [|x rest IH]; simpl; [done|].
  case_decide; [done|]. simpl. rewrite decide_False by done. by f_equal.
Qed.

Lemma c_str_c_str str : c_str (c_str str) = c_str str.
Proof.
  induction str as [|x rest IH]; simpl; [done|].
  case_decide; [done|]. simpl. rewrite decide_False by done. by f_equal.
Qed.

Lemma strlen32_c_str str : strlen32 (c_str str) = strlen32 str.
Proof. unfold strlen32. by rewrite c_str_text. Qed.

Lemma pluginInfo_find name s :
  pluginInfo name s =
  match find name (pluginsMap s) with
  | Some plugin => toPluginInfo (info plugin)
  | None => jp.PluginInfo.null
  end.
Proof.
  unfold pluginInfo, hasPlugin, count. by destruct (find name (pluginsMap s)).
Qed.

Lemma c_str_chars str : c_str str = String.string_of_list_ascii (text str).
Proof.
  induction str as [|x rest IH]; simpl; [done|].
  case_decide; [done|]. simpl. by f_equal.
Qed.

(** X22. The requests for the metadata and for the version of a plugin
    look up the name [*data] points to, and the sender itself when [*data]
    is null. They answer [NOT_FOUND], and write nothing, exactly when no
    record is registered under this key. Otherwise the metadata handed
    out holds, field by field, the characters of the record's metadata up
    to the first NUL, the number of its dependencies and, in their order,
    the names and versions of the dependencies; and the version handed
    out is these characters of the record's version, with their number
    as the size. *)
Theorem handleRequest_lookup appDirectory sender target s :
  let name := default sender target in
  let answer code :=
    handleRequest appDirectory sender code (Some target) true s in
  let chars str := String.string_of_list_ascii (text str) in
  match find name (pluginsMap s) with
  | None =>
      answer Request.GET_PLUGININFO = Done (Request.NOT_FOUND, None) ∧
      answer Request.GET_PLUGINVERSION = Done (Request.NOT_FOUND, None)
  | Some plugin =>
      let meta := info plugin in
      (∃ i,
         answer Request.GET_PLUGININFO
           = Done (Request.SUCCESS, Some (Request.Info i, 1)) ∧
         jp.PluginInfo.name i = Some (chars (PluginInfoStd.name meta)) ∧
         jp.PluginInfo.prettyName i
           = Some (chars (PluginInfoStd.prettyName meta)) ∧
         jp.PluginInfo.version i = Some (chars (PluginInfoStd.version meta)) ∧
         jp.PluginInfo.author i = Some (chars (PluginInfoStd.author meta)) ∧
         jp.PluginInfo.url i = Some (chars (PluginInfoStd.url meta)) ∧
         jp.PluginInfo.license i = Some (chars (PluginInfoStd.license meta)) ∧
         jp.PluginInfo.copyright i
           = Some (chars (PluginInfoStd.copyright meta)) ∧
         jp.PluginInfo.dependenciesNb i
           = to_int (Z.of_nat (length (PluginInfoStd.dependencies meta))) ∧
         Forall2 (λ handed dep,
                    jp.Dependency.name handed = chars (Dependency.name dep) ∧
                    jp.Dependency.version handed
                      = chars (Dependency.version dep))
                 (jp.PluginInfo.dependencies i)
                 (PluginInfoStd.dependencies meta)) ∧
      answer Request.GET_PLUGINVERSION =
        Done (Request.SUCCESS,
              Some (Request.Text (chars (PluginInfoStd.version meta)),
                    Z.of_nat (length (text (PluginInfoStd.version meta)))
                      `mod` 2 ^ 32))
  end.
Proof.
  cbv zeta. unfold handleRequest. simpl. rewrite pluginInfo_find.
  destruct (find (default sender target) (pluginsMap s)) as [plugin|];
    [|done].
  simpl. split.
  - eexists. split; [done|]. simpl. rewrite <- !c_str_chars.
    split_and!; try done.
    apply Forall2_fmap_l, Forall_Forall2_diag, Forall_forall.
    intros dep _. simpl. by rewrite <- !c_str_chars.
  - rewrite c_str_c_str, strlen32_c_str, c_str_chars. done.
Qed.

End RequestFacts.

(** ** Witnesses of the further properties *)

Module Witnesses.
Import ManagerSpec FacadeSpec FacadeFacts.

Ltac by_decision :=
  match goal with
  | |- ?P => apply (bool_decide_unpack P); vm_compute; exact I
  end.

Ltac by_running := vm_compute; reflexivity.

Lemma reachable_discovered : reachable (host := Demo.host) Demo.discovered.
Proof.
  eapply follows_call
    with (fuel := 0%nat) (call := SearchForPlugins "plugins" false true);
    [apply follows_here|reflexivity].
Qed.

Lemma reachable_discoveredMore :
  reachable (host := Demo.host) Demo.discoveredMore.
Proof.
  eapply follows_call
    with (fuel := 0%nat) (call := SearchForPlugins "more" false true);
    [apply reachable_discovered|reflexivity].
Qed.

Lemma reachable_stoppedOnce : reachable (host := Demo.host) Demo.stoppedOnce.
Proof.
  eapply follows_call with (fuel := 4%nat) (call := LoadPlugins false true);
    [apply reachable_discoveredMore|by_running].
Qed.

Lemma reachable_ringDiscovered :
  reachable (host := Scenes.ring) Scenes.ringDiscovered.
Proof.
  eapply follows_call
    with (fuel := 0%nat) (call := SearchForPlugins "ring" false true);
    [apply follows_here|reflexivity].
Qed.

Lemma wellFormed_registered : wellFormed Scenes.registered.
Proof.
  apply (perform_wellFormed (host := Demo.host) 0 (RegisterMainPlugin "B")
           Demo.discovered); [|reflexivity].
  apply (perform_wellFormed (host := Demo.host) 0
           (SearchForPlugins "plugins" false true) emptyManager);
    [apply wellFormed_new|reflexivity].
Qed.

Lemma follows_unloadedWithMain :
  follows (host := Demo.host) Scenes.registered Scenes.unloadedWithMain.
Proof.
  eapply follows_call with (fuel := 0%nat) (call := UnloadPlugins true).
  - eapply follows_call with (fuel := 4%nat) (call := LoadPlugins true true);
      [apply follows_here|by_running].
  - by_running.
Qed.

(** The witness of X1: the sort of a chain of two nodes. *)
Lemma topologicalSort_complete_witness :
  let nl := Scenes.chain in
  Graph.unmarked nl ∧ Graph.parentsInRange nl ∧
  ∃ error names nl',
    Graph.topologicalSort nl = Done (error, names, nl') ∧
    if error then Graph.hasCycle nl
    else ∃ ids : list nat,
      ids ≡ₚ seq 0 (length nl) ∧
      Forall2 (λ i n, Graph.name <$> nl !! i = Some n) ids names ∧
      ∀ (k i : nat) (node : Graph.Node) (p : Z),
        ids !! k = Some i → nl !! i = Some node →
        p ∈ Graph.parentNodes node →
        ∃ k', (k' < k)%nat ∧ ids !! k' = Some (Z.to_nat p).
Proof.
  intros nl.
  assert (Graph.unmarked nl) as H1 by (repeat constructor).
  assert (Graph.parentsInRange nl) as H2 by (repeat constructor; simpl; lia).
  do 2 (split; [done|]).
  exact (SortFacts.topologicalSort_complete nl H1 H2).
Defined.

(** The witness of X6: the targeted unload of [A] after the load of [A] and
    of [B], which depends on it. *)
Lemma unloadPlugin_removes_dependents_witness :
  let s := Demo.loaded in
  let s' := Scenes.afterUnload 3 "A" Demo.loaded in
  uniqueKeys s ∧ unloadPlugin 3 "A" s = Done (Answer true s') ∧
  ("A" ∈ keys (pluginsMap s) ∧ "A" ∉ keys (pluginsMap s') ∧
   uniqueKeys s' ∧
   (∀ k q, find k (pluginsMap s') = Some q → find k (pluginsMap s) = Some q) ∧
   (∀ k, k ∈ keys (pluginsMap s) → k ∉ keys (pluginsMap s') →
         rtc (declares (pluginsMap s)) k "A" ∧
         ∀ k1, ¬ declares (pluginsMap s') k1 k) ∧
   locations s' = locations s ∧
   loadOrderList s' = loadOrderList s ∧
   mainPluginName s' = mainPluginName s).
Proof.
  intros s s'.
  assert (uniqueKeys s) as H1 by by_decision.
  assert (unloadPlugin 3 "A" s = Done (Answer true s')) as H2 by by_running.
  do 2 (split; [done|]).
  exact (TargetedUnloadFacts.unloadPlugin_removes_dependents 3 "A" s s' H1 H2).
Defined.

(** The witness of X7: the calls of this targeted unload. *)
Lemma unloadPlugin_dependents_first_witness :
  let s := Demo.loaded in
  let r := Answer true (Scenes.afterUnload 3 "A" Demo.loaded) in
  uniqueKeys s ∧ unloadPlugin 3 "A" s = Done r ∧
  unloadCalls (trace (managerOf r)) = unloadCalls (trace s) ++ ["B"; "A"] ∧
  ∃ removed,
    unloadCalls (trace (managerOf r)) =
      unloadCalls (trace s) ++
      filter (λ k, holdsObject (pluginsMap s) k) removed ∧
    NoDup removed ∧
    (∀ k, k ∈ keys (pluginsMap (managerOf r)) ↔
          k ∈ keys (pluginsMap s) ∧ k ∉ removed) ∧
    (∀ (i j : nat) k1 k2, removed !! i = Some k1 → removed !! j = Some k2 →
          declares (pluginsMap s) k1 k2 → (i < j)%nat) ∧
    (∀ s', r = Answer true s' → last removed = Some "A").
Proof.
  intros s r.
  assert (uniqueKeys s) as H1 by by_decision.
  assert (unloadPlugin 3 "A" s = Done r) as H2 by by_running.
  do 2 (split; [done|]). split; [by_running|].
  exact (TargetedUnloadFacts.unloadPlugin_dependents_first 3 "A" s r H1 H2).
Defined.

(** The witness of X8: the targeted unload of [W] beside [X] and [Y], which
    depend on each other. *)
Lemma unloadPlugin_cycle_witness :
  let s := Scenes.ringDiscovered in
  let r := Answer true (Scenes.afterUnload 2 "W" Scenes.ringDiscovered) in
  uniqueKeys s ∧ unloadPlugin 2 "W" s = Done r ∧
  (∀ k, tc (declares (pluginsMap s)) k k →
        find k (pluginsMap (managerOf r)) = find k (pluginsMap s)) ∧
  (tc (declares (pluginsMap s)) "W" "W" → ∀ s', r ≠ Answer true s').
Proof.
  intros s r.
  assert (uniqueKeys s) as H1 by by_decision.
  assert (unloadPlugin 2 "W" s = Done r) as H2 by by_running.
  do 2 (split; [done|]).
  exact (TargetedUnloadFacts.unloadPlugin_cycle 2 "W" s r H1 H2).
Defined.

(** The witness of X9: the unload of all plugins after the targeted unload
    of [A], which is in the load order. *)
Lemma unloadPlugin_then_unloadPlugins_witness :
  let s := Demo.loaded in
  let s' := Scenes.afterUnload 3 "A" Demo.loaded in
  uniqueKeys s ∧ unloadPlugin 3 "A" s = Done (Answer true s') ∧
  "A" ∈ loadOrderList s ∧
  unloadPlugins true s' = Undefined ∧
  (pluginsMap s' ≠ [] → PluginManager_destructor s' = Undefined).
Proof.
  intros s s'.
  assert (uniqueKeys s) as H1 by by_decision.
  assert (unloadPlugin 3 "A" s = Done (Answer true s')) as H2 by by_running.
  assert ("A" ∈ loadOrderList s) as H3 by by_decision.
  do 3 (split; [done|]).
  exact (TargetedUnloadFacts.unloadPlugin_then_unloadPlugins
           3 "A" s s' true H1 H2 H3).
Defined.

(** The witness of X10: the search of the directory [plugins] by a new
    manager. *)
Lemma searchForPlugins_result_witness :
  let s := emptyManager in
  let code :=
    (searchForPlugins (host := Demo.host) "plugins" false true s).1 in
  let s' := (searchForPlugins (host := Demo.host) "plugins" false true s).2 in
  uniqueKeys s ∧
  (code = SUCCESS ∨ code = SEARCH_NOTHING_FOUND ∨ code = SEARCH_LISTFILES_ERROR) ∧
  (code = SUCCESS ↔
     ∃ k, k ∈ keys (pluginsMap s') ∧ k ∉ keys (pluginsMap s)) ∧
  (code ≠ SUCCESS → pluginsMap s' = pluginsMap s) ∧
  locations s' =
    (if decide (code = SUCCESS ∧ "plugins" ∉ locations s)
     then locations s ++ ["plugins"] else locations s) ∧
  (∀ k q, find k (pluginsMap s') = Some q → find k (pluginsMap s) = None →
     ∃ libPath file metadata,
       libPath ∈ (listLibrariesInDir (Host := Demo.host) "plugins" false).2 ∧
       library_at (Host := Demo.host) libPath = Some file ∧
       candidate file k metadata ∧
       PluginInfoStd.name (parseMetadata (host := Demo.host) metadata) ≠ "" ∧
       q = discoveredRecord (host := Demo.host) libPath file metadata).
Proof.
  intros s code s'.
  assert (uniqueKeys s) as H1 by constructor.
  split; [done|].
  exact (DiscoveryFacts.searchForPlugins_result (host := Demo.host)
           "plugins" false true s H1).
Defined.

(** The witness of X11: the second search of the directory [plugins]. *)
Lemma searchForPlugins_again_witness :
  let s := emptyManager in
  let s1 := (searchForPlugins (host := Demo.host) "plugins" false true s).2 in
  let code :=
    (searchForPlugins (host := Demo.host) "plugins" false false s1).1 in
  let s2 := (searchForPlugins (host := Demo.host) "plugins" false false s1).2 in
  uniqueKeys s ∧ code = SEARCH_NOTHING_FOUND ∧
  (code ≠ SUCCESS ∧ pluginsMap s2 = pluginsMap s1 ∧
   locations s2 = locations s1).
Proof.
  intros s s1 code s2.
  assert (uniqueKeys s) as H1 by constructor.
  split; [done|]. split; [by_running|].
  exact (DiscoveryFacts.searchForPlugins_again (host := Demo.host)
           "plugins" false true false s H1).
Defined.

Lemma reachable_loaded : reachable (host := Demo.host) Demo.loaded.
Proof.
  eapply follows_call with (fuel := 4%nat) (call := LoadPlugins true true);
    [apply reachable_discovered|by_running].
Qed.

(** The witness of X15: the manager after a search and a load. *)
Lemma reachable_invariant_witness :
  let s := Demo.loaded in
  reachable (host := Demo.host) s ∧
  flagOf s "B" = Some tri_true ∧
  (wellFormed s ∧
   ∀ k p, find k (pluginsMap s) = Some p → dependenciesExists p = tri_true →
     ¬ tc (dependsOn (pluginsMap s)) k k ∧
     ∀ dep, dep ∈ PluginInfoStd.dependencies (info p) →
       hasPluginVersion (host := Demo.host)
         (Dependency.name dep) (Dependency.version dep) s = true).
Proof.
  intros s. split; [apply reachable_loaded|]. split; [by_running|].
  exact (LoadAllFacts.reachable_invariant (host := Demo.host) s
           reachable_loaded).
Defined.

(** The witness of X12: the targeted load of [A] after the search that found
    it. *)
Lemma loadPlugin_reachable_witness :
  let s := Demo.discovered in
  reachable (host := Demo.host) s ∧
  hasPlugin "A" s = true ∧ isPluginLoaded "A" s = false ∧
  (loadPlugin (host := Demo.host) 4 "A" s = Done (hasPlugin "A" s, s) ∧
   isPluginLoaded "A" s = bool_decide (is_Some (pluginObject "A" s))).
Proof.
  intros s. split; [apply reachable_discovered|].
  do 2 (split; [by_running|]).
  exact (FacadeFacts.loadPlugin_reachable (host := Demo.host) 4 "A" s
           reachable_discovered).
Defined.

(** The witness of X13: [B] is named main plugin, and all plugins are loaded
    and unloaded. *)
Lemma registerMainPlugin_once_witness :
  let s := Scenes.registered in
  let s' := Scenes.unloadedWithMain in
  wellFormed s ∧ mainPluginName s ≠ "" ∧ follows (host := Demo.host) s s' ∧
  mainPluginName s' ∉ keys (pluginsMap s') ∧
  (mainPluginName s' = mainPluginName s ∧
   (∀ name, registerMainPlugin name s' = (UNKNOWN_ERROR, s')) ∧
   (mainPluginName s' ∉ keys (pluginsMap s') →
    ∀ fuel tryToContinue cb s'',
      loadPlugins (host := Demo.host) fuel tryToContinue cb s'
        ≠ Done (SUCCESS, s''))).
Proof.
  intros s s'.
  assert (mainPluginName s ≠ "") as H2 by by_decision.
  split; [apply wellFormed_registered|].
  split; [done|]. split; [apply follows_unloadedWithMain|].
  split; [by_decision|].
  exact (FacadeFacts.registerMainPlugin_once (host := Demo.host) s s'
           wellFormed_registered H2 follows_unloadedWithMain).
Defined.

(** The witness of X14: [loadPluginFromPath] on the library of [A], by a new
    manager. *)
Lemma loadPluginFromPath_builds_witness :
  let file := Demo.pluginFile "A" "metadata of A" in
  let s := emptyManager in
  allOpen s ∧
  library_at (Host := Demo.host) "plugins/libA.so" = Some file ∧
  jp_name file = Some "A" ∧ jp_createPlugin file = true ∧
  ∃ s',
    loadPluginFromPath (host := Demo.host) 1 "plugins/libA.so" s
      = Done (true, s') ∧
    ("A" ∈ keys (pluginsMap s) → s' = s) ∧
    ("A" ∉ keys (pluginsMap s) →
       find "A" (pluginsMap s') =
         Some (mkPlugin "" (Some file) PluginInfoStd.empty tri_true (-1)
                        (Some (InstanceOf "")) false) ∧
       (∀ k, k ≠ "A" → find k (pluginsMap s') = find k (pluginsMap s)) ∧
       trace s' = trace s ++ [Created "A" [] false; Loaded "A"] ∧
       isPluginLoaded "A" s' = true).
Proof.
  intros file s.
  assert (allOpen s) as H1 by done.
  do 4 (split; [done|]).
  exact (FacadeFacts.loadPluginFromPath_builds (host := Demo.host)
           0 "plugins/libA.so" file "A" s H1 eq_refl eq_refl eq_refl).
Defined.

(** The witness of X16: the load of the plugins found in [plugins]. *)
Lemma loadPlugins_never_cycle_witness :
  let s := Demo.discovered in
  reachable (host := Demo.host) s ∧
  Z.of_nat (length (pluginsMap s)) < 2 ^ 31 ∧
  loadPlugins (host := Demo.host) 4 true true s = Done (SUCCESS, Demo.loaded) ∧
  ((SUCCESS = SUCCESS ∨ SUCCESS = LOAD_DEPENDENCY_NOT_FOUND ∨
    SUCCESS = LOAD_DEPENDENCY_BAD_VERSION) ∧
   (true = true → SUCCESS = SUCCESS)).
Proof.
  intros s.
  assert (Z.of_nat (length (pluginsMap s)) < 2 ^ 31) as H2 by by_running.
  assert (loadPlugins (host := Demo.host) 4 true true s
          = Done (SUCCESS, Demo.loaded)) as H3 by by_running.
  split; [apply reachable_discovered|]. do 2 (split; [done|]).
  exact (LoadAllFacts.loadPlugins_never_cycle (host := Demo.host)
           4 true true s SUCCESS Demo.loaded reachable_discovered H2 H3).
Defined.

(** The witness of X17: the dependency of [B] on [A] after this load. *)
Lemma loadPlugins_dependencies_met_witness :
  let s := Demo.discovered in
  let s' := Demo.loaded in
  let p := Demo.recordOf "B" Demo.loaded in
  let dep := Dependency.mk "A" "1.0.0" in
  reachable (host := Demo.host) s ∧
  Z.of_nat (length (pluginsMap s)) < 2 ^ 31 ∧
  loadPlugins (host := Demo.host) 4 true true s = Done (SUCCESS, s') ∧
  "B" ∈ loadOrderList s' ∧ find "B" (pluginsMap s') = Some p ∧
  dep ∈ PluginInfoStd.dependencies (info p) ∧
  hasPluginVersion (host := Demo.host)
    (Dependency.name dep) (Dependency.version dep) s' = true.
Proof.
  intros s s' p dep.
  assert (Z.of_nat (length (pluginsMap s)) < 2 ^ 31) as H2 by by_running.
  assert (loadPlugins (host := Demo.host) 4 true true s
          = Done (SUCCESS, s')) as H3 by by_running.
  assert ("B" ∈ loadOrderList s') as H4 by by_decision.
  assert (find "B" (pluginsMap s') = Some p) as H5 by by_running.
  assert (dep ∈ PluginInfoStd.dependencies (info p)) as H6.
  { apply (list_elem_of_lookup_2 _ 0%nat). by_running. }
  split; [apply reachable_discovered|]. do 5 (split; [done|]).
  exact (LoadAllFacts.loadPlugins_dependencies_met (host := Demo.host)
           4 true true s s' "B" p dep reachable_discovered H2 H3 H4 H5 H6).
Defined.

(** The witness of X18: [C] asks for [Z], which is not registered; a load
    that stops at the failed check, and a load after it that goes on. *)
Lemma loadPlugins_skips_failed_witness :
  let s := Demo.stoppedOnce in
  let s' := Scenes.continued in
  reachable (host := Demo.host) s ∧
  Z.of_nat (length (pluginsMap s)) < 2 ^ 31 ∧
  flagOf s "C" = Some tri_false ∧
  loadPlugins (host := Demo.host) 4 true true s = Done (SUCCESS, s') ∧
  ((∀ pluginDir recursive cb',
      flagOf (searchForPlugins (host := Demo.host) pluginDir recursive cb' s).2
             "C" = Some tri_false) ∧
   (loadPlugins (host := Demo.host) 4 true true s = Done (SUCCESS, s') →
    flagOf s' "C" = Some tri_false ∧
    (SUCCESS = SUCCESS → "C" ∉ loadOrderList s'))).
Proof.
  intros s s'.
  assert (Z.of_nat (length (pluginsMap s)) < 2 ^ 31) as H2 by by_running.
  assert (flagOf s "C" = Some tri_false) as H3 by by_running.
  split; [apply reachable_stoppedOnce|]. do 2 (split; [done|]).
  split; [by_running|].
  exact (LoadAllFacts.loadPlugins_skips_failed (host := Demo.host)
           4 true true s SUCCESS s' "C" reachable_stoppedOnce H2 H3).
Defined.

(** The witness of X19: the factories called by the load of the plugins
    found in [plugins]. *)
Lemma loadPlugins_hands_dependencies_witness :
  let s := Demo.discovered in
  let s' := Demo.loaded in
  uniqueKeys s ∧ Z.of_nat (length (pluginsMap s)) < 2 ^ 31 ∧
  loadPlugins (host := Demo.host) 4 true true s = Done (SUCCESS, s') ∧
  createdCalls (trace s') =
    [("A", [], false); ("B", [Some (InstanceOf "plugins/libA.so")], false)] ∧
  (createdCalls (trace s') = createdCalls (trace s) ++
     ((λ P, (P, dependencyObjectsOf s' P, isMainPluginOf s' P))
        <$> loadOrderList s') ∧
   ∀ P, P ∈ loadOrderList s' →
     is_Some (pluginObject P s') ∧ Forall is_Some (dependencyObjectsOf s' P)).
Proof.
  intros s s'.
  assert (uniqueKeys s) as H1 by by_decision.
  assert (Z.of_nat (length (pluginsMap s)) < 2 ^ 31) as H2 by by_running.
  assert (loadPlugins (host := Demo.host) 4 true true s
          = Done (SUCCESS, s')) as H3 by by_running.
  do 3 (split; [done|]). split; [by_running|].
  exact (CreationFacts.loadPlugins_hands_dependencies (host := Demo.host)
           4 true true s s' H1 H2 H3).
Defined.

(** The witness of X20: the load that stops at the failed check of [C]. *)
Lemma loadPlugins_failure_builds_nothing_witness :
  let s := Demo.discoveredMore in
  let s' := Demo.stoppedOnce in
  loadPlugins (host := Demo.host) 4 false true s
    = Done (LOAD_DEPENDENCY_NOT_FOUND, s') ∧
  LOAD_DEPENDENCY_NOT_FOUND ≠ SUCCESS ∧
  (callbacksOnly s s' ∧
   (∀ name, pluginObject name s' = pluginObject name s) ∧
   (LOAD_DEPENDENCY_NOT_FOUND ≠ LOAD_DEPENDENCY_CYCLE →
    loadOrderList s' = loadOrderList s)).
Proof.
  intros s s'.
  assert (loadPlugins (host := Demo.host) 4 false true s
          = Done (LOAD_DEPENDENCY_NOT_FOUND, s')) as H1 by by_running.
  assert (LOAD_DEPENDENCY_NOT_FOUND ≠ SUCCESS) as H2 by done.
  do 2 (split; [done|]).
  exact (CreationFacts.loadPlugins_failure_builds_nothing (host := Demo.host)
           4 false true s LOAD_DEPENDENCY_NOT_FOUND s' H1 H2).
Defined.

(** The witness of X21: the load of [X] and [Y], which depend on each
    other, right after the search that found them. *)
Lemma loadPlugins_cycle_no_return_witness :
  let s := Scenes.ringDiscovered in
  reachable (host := Scenes.ring) s ∧
  noFailedCheck s ∧
  dependenciesMet (host := Scenes.ring) s ∧
  tc (dependsOn (pluginsMap s)) "X" "X" ∧
  loadPlugins (host := Scenes.ring) 1000 true true s = OutOfFuel.
Proof.
  intros s.
  assert (noFailedCheck s ∧ dependenciesMet (host := Scenes.ring) s)
    as [H1 H2].
  { apply CycleFacts.clearOfFailures_split,
      CycleFacts.clearOfFailures_checked. by_running. }
  assert (tc (dependsOn (pluginsMap s)) "X" "X") as H3.
  { apply tc_l with "Y".
    - exists (Demo.recordOf "X" s). split; [by_running|by_decision].
    - apply tc_once.
      exists (Demo.recordOf "Y" s). split; [by_running|by_decision]. }
  split; [apply reachable_ringDiscovered|]. do 3 (split; [done|]).
  exact (CycleFacts.loadPlugins_cycle_no_return (host := Scenes.ring)
           1000 true true s "X" reachable_ringDiscovered H1 H2 H3).
Defined.


(** C2 against the code. All plugins of [plugins] are loaded, [B] is
    unloaded by name, and all plugins are unloaded: the load order still
    names [B], and [unloadPlugins] stops at the null pointer that
    [pluginsMap["B"]] makes, before [aboutToBeUnloaded()] is called on the
    plugin object of [A], which is loaded. *)
Lemma unloadPlugins_misses_live_plugin :
  let s := Scenes.afterUnload 3 "B" Demo.loaded in
  loadPlugins (host := Demo.host) 4 true true Demo.discovered
    = Done (SUCCESS, Demo.loaded) ∧
  unloadPlugin 3 "B" Demo.loaded = Done (Answer true s) ∧
  reachable (host := Demo.host) s ∧
  keys (pluginsMap s) = ["A"] ∧ loadOrderList s = ["A"; "B"] ∧
  isPluginLoaded "A" s = true ∧
  unloadPlugins true s = Undefined ∧
  PluginManager_destructor s = Undefined.
Proof.
  intros s.
  assert (reachable (host := Demo.host) s) as Hreach.
  { eapply follows_call with (fuel := 3%nat) (call := UnloadPlugin "B");
      [apply reachable_loaded|by_running]. }
  split_and!; [by_running|by_running|done|by_running..].
Qed.



(** Metadata that violates the schema and is admitted: null stands where
    the schema asks for the array of the dependencies, the loop over the
    dependencies runs over nothing, and the plugin is registered without
    a call of the callback. *)
Lemma schema_violation_admitted :
  let found :=
    searchForPlugins (host := Scenes.lenient) "odd" false true emptyManager in
  json_parse (Host := Scenes.lenient) "metadata of N"
    = Some Scenes.nullDependencies ∧
  ¬ conformsToSchema Scenes.nullDependencies ∧
  PluginInfoStd.name (parseMetadata (host := Scenes.lenient) "metadata of N")
    = "N" ∧
  found.1 = SUCCESS ∧ keys (pluginsMap found.2) = ["N"] ∧ trace found.2 = [].
Proof.
  intros found.
  assert (¬ conformsToSchema Scenes.nullDependencies) as Hschema.
  { intros (_ & members & elements & Heq & Hdeps & _).
    injection Heq as <-. vm_compute in Hdeps. discriminate Hdeps. }
  split_and!; [by_running|done|by_running..].
Qed.

(** The counterexamples of C7 as stated: bad metadata under a registered
    name is answered with [SEARCH_NAME_ALREADY_EXISTS], and metadata that
    violates the schema by a null in the place of the dependencies is
    admitted. *)
Lemma bad_metadata_counterexamples :
  ("more/libA.so" ∈ (Demo.listing "more" false).2 ∧
   Demo.library "more/libA.so" = Some (Demo.pluginFile "A" "not JSON") ∧
   metadataDefect (host := Demo.host) "not JSON" ∧
   Callback SEARCH_CANNOT_PARSE_METADATA (PathOf "more/libA.so")
     ∉ trace (searchForPlugins (host := Demo.host) "more" false true
                Demo.discovered).2 ∧
   Callback SEARCH_NAME_ALREADY_EXISTS (PathOf "more/libA.so")
     ∈ trace (searchForPlugins (host := Demo.host) "more" false true
                Demo.discovered).2) ∧
  (json_parse (Host := Scenes.lenient) "metadata of N"
     = Some Scenes.nullDependencies ∧
   ¬ conformsToSchema Scenes.nullDependencies ∧
   PluginInfoStd.name (parseMetadata (host := Scenes.lenient) "metadata of N")
     ≠ "" ∧
   keys (pluginsMap (searchForPlugins (host := Scenes.lenient) "odd" false
                       true emptyManager).2) = ["N"]).
Proof.
  split.
  - destruct Examples.name_collision_hides_bad_metadata
      as (? & ? & _ & ? & ? & ?). by split_and!.
  - destruct schema_violation_admitted as (? & ? & Hname & _ & ? & _).
    split_and!; [done..| |done]. by rewrite Hname.
Qed.

End Witnesses.
